(** * Binary de Bruijn tori: a shallow embedding of [torus.py]

    The development follows the Python class [Torus]: the bit codec
    ([_list_to_num], [to_bytes], [from_bytes], the ['b'] format), the
    sequence generator [debruijn], the object with its two files, and the
    methods [__init__], [transpose] and [make].  Python integers that hold
    rows are [N]; counts and dimensions are [nat]; file contents are
    [list byte]. *)

From Stdlib Require Import String List NArith Arith Lia Bool Permutation.
From Stdlib.Strings Require Import Byte.
Import ListNotations.
Local Open Scope N_scope.

(** ** Exceptions and the state-and-exception monad *)

(** The exceptions the code can raise.  [OutOfFuel] is not a Python
    exception: it marks a [while] loop of the model that used up its
    iteration budget. *)
Inductive exn : Type :=
| ValueError (msg : string)
| IndexError
| TypeError
| OverflowError
| OSError
| OutOfFuel.

Inductive result (A : Type) : Type :=
| Ok (a : A)
| Raise (e : exn).
Arguments Ok {A} a.
Arguments Raise {A} e.

Definition rbind {A B} (x : result A) (f : A -> result B) : result B :=
  match x with
  | Ok a => f a
  | Raise e => Raise e
  end.

(** ** Bit codec *)

(** [_bytes(n)]: [(n + 7) // 8]. *)
Definition _bytes (n : nat) : nat := ((n + 7) / 8)%nat.

(** Value of a string of binary digits, most significant first. *)
Definition bits_value (line : list bool) : N :=
  fold_left (fun acc b => 2 * acc + N.b2n b) line 0.

(** [int(''.join(map(str, line)), 2)]: the empty string is not a literal. *)
Definition _list_to_num (line : list bool) : result N :=
  match line with
  | [] => Raise (ValueError "invalid literal for int() with base 2")
  | _ => Ok (bits_value line)
  end.

(** [f'{num:b}']: the binary digits, ['0'] for zero. *)
Fixpoint pos_bin (p : positive) : list bool :=
  match p with
  | xH => [true]
  | xO q => pos_bin q ++ [false]
  | xI q => pos_bin q ++ [true]
  end.

Definition bin (num : N) : list bool :=
  match num with
  | N0 => [false]
  | Npos p => pos_bin p
  end.

(** [f'{num:0{width}b}']: zero-padded on the left to at least [width]. *)
Definition format_b (width : nat) (num : N) : list bool :=
  repeat false (width - length (bin num)) ++ bin num.

(** [_popcount(num)]: [f'{num:b}'.count('1')]. *)
Definition _popcount (num : N) : nat :=
  count_occ bool_dec (bin num) true.

Definition parity (num : N) : N := N.of_nat (_popcount num mod 2).

Definition byte_of_N (x : N) : byte :=
  match Byte.of_N x with
  | Some b => b
  | None => x00
  end.

(** Big-endian digits in base 256, [length] of them. *)
Fixpoint be_bytes (length : nat) (num : N) : list byte :=
  match length with
  | O => []
  | S k => be_bytes k (num / 256) ++ [byte_of_N (num mod 256)]
  end.

(** [num.to_bytes(length, 'big')]. *)
Definition to_bytes (num : N) (length : nat) : result (list byte) :=
  if num <? 256 ^ N.of_nat length then Ok (be_bytes length num)
  else Raise OverflowError.

(** The bytes [_write_from_array] writes for one line:
    [int(''.join(map(str, line)), 2).to_bytes(length, 'big')]. *)
Definition pack (line : list bool) (length : nat) : result (list byte) :=
  rbind (_list_to_num line) (fun num => to_bytes num length).

(** [int.from_bytes(bs, 'big')]. *)
Definition from_bytes (bs : list byte) : N :=
  fold_left (fun acc b => 256 * acc + Byte.to_N b) bs 0.

(** [l * k] on Python lists. *)
Definition list_mul {A} (l : list A) (k : nat) : list A :=
  concat (repeat l k).

(** [zip] applied to the unpacked [lines]: one tuple per position present
    in every line. *)
Definition zip_star (lines : list (list bool)) : list (list bool) :=
  match lines with
  | [] => []
  | l :: ls =>
      let w := fold_left Nat.min (map (@length bool) ls) (length l) in
      map (fun j => map (fun line => nth j line false) lines) (seq 0 w)
  end.

(** [list(itertools.accumulate(l, operator.xor))]. *)
Fixpoint accumulate_from (acc : bool) (l : list bool) : list bool :=
  match l with
  | [] => []
  | x :: t => let a := xorb acc x in a :: accumulate_from a t
  end.

Definition accumulate_xor (l : list bool) : list bool :=
  match l with
  | [] => []
  | x :: t => x :: accumulate_from x t
  end.

(** ** Sequence generator *)

(** [l[k] = v]. *)
Fixpoint set_item {A} (l : list A) (k : nat) (v : A) : result (list A) :=
  match l, k with
  | [], _ => Raise IndexError
  | _ :: t, O => Ok (v :: t)
  | x :: t, S k' => rbind (set_item t k' v) (fun t' => Ok (x :: t'))
  end.

(** [l[k]] for [k >= 0]. *)
Definition get_item {A} (l : list A) (k : nat) : result A :=
  match nth_error l k with
  | Some x => Ok x
  | None => Raise IndexError
  end.

(** [for j in range(order - i): word[i+j] = word[j]], over the list of [j]. *)
Fixpoint copy_period (word : list bool) (i : nat) (js : list nat)
  : result (list bool) :=
  match js with
  | [] => Ok word
  | j :: js' =>
      rbind (get_item word j) (fun b =>
      rbind (set_item word (i + j) b) (fun word' =>
      copy_period word' i js'))
  end.

(** [while i and word[i-1]: i -= 1]. *)
Fixpoint strip_ones (word : list bool) (i : nat) : result nat :=
  match i with
  | O => Ok O
  | S k =>
      rbind (get_item word k) (fun b =>
      if b then strip_ones word k else Ok i)
  end.

(** The body of [while i:] in [debruijn], iterated at most [fuel] times. *)
Fixpoint debruijn_loop (fuel order : nat) (seq word : list bool) (i : nat)
  : result (list bool) :=
  match i with
  | O => Ok seq
  | S _ =>
      match fuel with
      | O => Raise OutOfFuel
      | S fuel' =>
          let seq1 :=
            if (order mod i =? 0)%nat then seq ++ firstn i word else seq in
          rbind (copy_period word i (List.seq 0 (order - i))) (fun word1 =>
          rbind (strip_ones word1 order) (fun i1 =>
          rbind (match i1 with
                 | O => Ok word1
                 | S k => set_item word1 k true
                 end) (fun word2 =>
          debruijn_loop fuel' order seq1 word2 i1)))
      end
  end.

(** [Torus.debruijn(order)]. *)
Definition debruijn (order : nat) : result (list bool) :=
  debruijn_loop (2 ^ order) order [] (repeat false order) 1.

(** ** The object, its two files, and the monad of its methods *)

(** The attributes of a [Torus] object, together with the contents of the
    two files it names: [file] is the content of [self.file], [temp] the
    content of [self.temp] when that file exists.  [quota] and [landed]
    describe the storage device: [quota] is the number of operations on it
    (a copy, the opening of a file, a write, the closing of the written
    file, a removal) that it still carries out before one fails with
    [OSError]; [None] is a device that never fails.  While nothing fails,
    [file] is the content as the program has written it.  When a copy, a
    write or the closing fails, what has reached the file is some prefix of
    that content, buffered or not: its first [landed] bytes. *)
Record Torus : Type := mkTorus {
  r : nat;
  s : nat;
  m : nat;
  n : nat;
  row_sums : N;
  col_sums : N;
  file : list byte;
  temp : option (list byte);
  quota : option nat;
  landed : nat
}.

Definition set_dims (r' s' m' n' : nat) (T : Torus) : Torus :=
  mkTorus r' s' m' n' (row_sums T) (col_sums T) (file T) (temp T) (quota T)
    (landed T).
Definition set_sums (rs cs : N) (T : Torus) : Torus :=
  mkTorus (r T) (s T) (m T) (n T) rs cs (file T) (temp T) (quota T)
    (landed T).
Definition set_file (f : list byte) (T : Torus) : Torus :=
  mkTorus (r T) (s T) (m T) (n T) (row_sums T) (col_sums T) f (temp T)
    (quota T) (landed T).
Definition set_temp (t : option (list byte)) (T : Torus) : Torus :=
  mkTorus (r T) (s T) (m T) (n T) (row_sums T) (col_sums T) (file T) t
    (quota T) (landed T).
Definition set_quota (q : option nat) (T : Torus) : Torus :=
  mkTorus (r T) (s T) (m T) (n T) (row_sums T) (col_sums T) (file T) (temp T)
    q (landed T).
Definition set_fault (q : option nat) (b : nat) (T : Torus) : Torus :=
  mkTorus (r T) (s T) (m T) (n T) (row_sums T) (col_sums T) (file T) (temp T)
    q b.

(** A method run: the value returned or the exception raised, and the
    state of the object and of its files at that point. *)
Definition M (A : Type) : Type := Torus -> result A * Torus.

Definition ret {A} (a : A) : M A := fun self => (Ok a, self).
Definition raise {A} (e : exn) : M A := fun self => (Raise e, self).
Definition lift {A} (x : result A) : M A := fun self => (x, self).
Definition get : M Torus := fun self => (Ok self, self).
Definition modify (f : Torus -> Torus) : M unit := fun self => (Ok tt, f self).
Definition bind {A B} (c : M A) (f : A -> M B) : M B :=
  fun self =>
    match c self with
    | (Ok a, self') => f a self'
    | (Raise e, self') => (Raise e, self')
    end.

Declare Scope torus_scope.
Delimit Scope torus_scope with torus.
Notation "x <- c ;; k" := (bind c (fun x => k))
  (at level 61, c at next level, right associativity) : torus_scope.
Notation "c ;; k" := (bind c (fun _ => k))
  (at level 61, right associativity) : torus_scope.
Local Open Scope torus_scope.

(** [for x in xs: acc = body(x, acc)], stopping at the first exception. *)
Fixpoint for_each {X A} (xs : list X) (body : X -> A -> M A) (acc : A) : M A :=
  match xs with
  | [] => ret acc
  | x :: xs' => acc' <- body x acc ;; for_each xs' body acc'
  end.

(** *** Files *)

(** One operation on the storage device: carried out, which leaves the
    state [done self] and one operation less to go, or failed, which
    raises [OSError] and leaves the state [failed self]. *)
Definition device {A} (a : A) (done failed : Torus -> Torus) : M A :=
  fun self =>
    match quota self with
    | Some O => (Raise OSError, failed self)
    | Some (S k) => (Ok a, set_quota (Some k) (done self))
    | None => (Ok a, done self)
    end.

(** [shutil.copyfile(self.file, self.temp)]; a copy that fails leaves a
    part of the content in the scratch file. *)
Definition copyfile : M unit :=
  device tt (fun T => set_temp (Some (file T)) T)
            (fun T => set_temp (Some (firstn (landed T) (file T))) T).

(** [open(self.file, 'w+b')]: the file is truncated. *)
Definition open_write : M unit := device tt (set_file []) (fun T => T).

(** A file object open for reading: the whole content and what is left
    after the position. *)
Record reader : Type := mkReader { whole : list byte; rest : list byte }.

(** [open(self.temp, 'rb')]. *)
Definition open_read : M reader :=
  fun self =>
    match temp self with
    | Some c => device (mkReader c c) (fun T => T) (fun T => T) self
    | None => (Raise OSError, self)
    end.

(** [old.seek(0)]. *)
Definition seek0 (old : reader) : reader := mkReader (whole old) (whole old).

(** [old.read(k)]: at most [k] bytes, fewer at the end of the file. *)
Definition read (k : nat) (old : reader) : list byte * reader :=
  (firstn k (rest old), mkReader (whole old) (skipn k (rest old))).

(** [f.write(bs)]. *)
Definition write (bs : list byte) : M unit :=
  device tt (fun T => set_file (file T ++ bs) T)
            (fun T => set_file (firstn (landed T) (file T ++ bs)) T).

(** The closing of the written file at the end of a [with] block. *)
Definition close_write : M unit :=
  device tt (fun T => T)
            (fun T => set_file (firstn (landed T) (file T)) T).

(** [os.remove(self.temp)]. *)
Definition remove_temp : M unit :=
  fun self =>
    match temp self with
    | Some _ => device tt (set_temp None) (fun T => T) self
    | None => (Raise OSError, self)
    end.

(** *** Row input and output *)

(** [_write_from_num(f, length, lines)]. *)
Fixpoint _write_from_num (length : nat) (lines : list N) : M unit :=
  match lines with
  | [] => ret tt
  | num :: lines' =>
      bs <- lift (to_bytes num length) ;;
      write bs ;;
      _write_from_num length lines'
  end.

(** [_read_to_num(f)]. *)
Definition _read_to_num (old : reader) : M (N * reader) :=
  self <- get ;;
  let (bs, old') := read (_bytes (s self)) old in
  ret (from_bytes bs, old').

(** [_write_from_array(f, length, lines)]. *)
Fixpoint _write_from_array (length : nat) (lines : list (list bool)) : M unit :=
  match lines with
  | [] => ret tt
  | line :: lines' =>
      bs <- lift (pack line length) ;;
      write bs ;;
      _write_from_array length lines'
  end.

(** [_read_to_array(f)]. *)
Definition _read_to_array (old : reader) : M (list bool * reader) :=
  self <- get ;;
  let (bs, old') := read (_bytes (s self)) old in
  ret (format_b (s self) (from_bytes bs), old').

(** ** The methods *)

(** [__init__(self, values, m, n, storage)], run on the new object. *)
Definition __init__ (values : list (list bool)) (m0 n0 : nat) : M unit :=
  modify (fun T => set_dims (length values) (s T) (m T) (n T) T) ;;
  row0 <- lift (get_item values 0) ;;
  modify (set_dims (length values) (length row0) m0 n0) ;;
  self <- get ;;
  (if (r self * s self =? 2 ^ (m self * n self))%nat then ret tt
   else raise (ValueError "Dimension mismatch")) ;;
  modify (set_sums 0 0) ;;
  for_each values (fun row _ =>
    row_num <- lift (_list_to_num row) ;;
    modify (fun T =>
      set_sums (N.shiftl (row_sums T) 1 + parity row_num)
               (N.lxor (col_sums T) row_num) T)) tt ;;
  open_write ;;
  self <- get ;;
  _write_from_array (_bytes (s self)) values ;;
  close_write.

(** The object before [__init__] has run, on a device with the given
    quota; [Torus(values, m, n, storage)] is [__init__] run on it. *)
Definition blank (q : option nat) : Torus :=
  mkTorus 0 0 0 0 0 0 [] None q 0.

(** [get_size(self)]. *)
Definition get_size (T : Torus) : nat * nat * nat * nat :=
  (r T, s T, m T, n T).

(** [transpose(self)]. *)
Definition transpose : M unit :=
  copyfile ;;
  open_write ;;
  old <- open_read ;;
  self <- get ;;
  ls <- for_each (seq 0 (r self)) (fun _ acc =>
          let '(lines, old) := acc in
          lo <- _read_to_array old ;;
          ret (lines ++ [fst lo], snd lo)) ([], old) ;;
  _write_from_array (_bytes (r self)) (zip_star (fst ls)) ;;
  close_write ;;
  remove_temp ;;
  modify (fun T => set_dims (s T) (r T) (n T) (m T) T) ;;
  modify (fun T => set_sums (col_sums T) (row_sums T) T).

Inductive mode : Type := EVEN | ODD.

(** The local variables of the streaming loop of [make]. *)
Record locals : Type := mkLocals {
  old_file : reader;
  next_line : N;
  result_buf : list N
}.

(** [for i in range(num_copies): old_line_repeated += old_line << (s * i)]. *)
Definition repeat_pattern (old_line : N) (width copies : nat) : N :=
  fold_left (fun acc i => acc + N.shiftl old_line (N.of_nat (width * i)))
            (seq 0 copies) 0.

(** One pass of [for row in range(num_rows - 1)].  [num_copies] is [None]
    when [2 ** (n - 1)] is the float [0.5] ([n = 0] in the odd case), which
    [range] refuses. *)
Definition make_row (num_rows : nat) (num_copies : option nat) (row : nat)
  (v : locals) : M locals :=
  self <- get ;;
  let old := if (row =? r self)%nat then seek0 (old_file v) else old_file v in
  lo <- _read_to_num old ;;
  let '(old_line, old) := lo in
  copies <- match num_copies with
            | Some c => ret c
            | None => raise TypeError
            end ;;
  let next := N.lxor (next_line v) (repeat_pattern old_line (s self) copies) in
  let result := result_buf v ++ [next] in
  modify (fun T =>
    set_sums (N.shiftl (row_sums T) 1 + parity next)
             (N.lxor (col_sums T) next) T) ;;
  if (length result mod Nat.min num_rows (2 ^ 10) =? 0)%nat then
    _write_from_num (_bytes (s self * copies)) result ;;
    ret (mkLocals old next [])
  else ret (mkLocals old next result).

(** [if seed is None: seed = Torus.debruijn(order)]. *)
Definition seed_or_default (seed : option (list bool)) (order : nat)
  : result (list bool) :=
  match seed with
  | None => debruijn order
  | Some sd => Ok sd
  end.

(** The first line of the new torus, as a list of bits. *)
Definition first_line (MODE : mode) (seed : option (list bool)) (self : Torus)
  : result (list bool) :=
  let zeros := repeat false (s self) in
  match MODE with
  | EVEN =>
      rbind (seed_or_default seed (n self)) (fun sd =>
      Ok (zeros ++ list_mul (tl sd) (s self)))
  | ODD =>
      if (n self =? 2)%nat then
        Ok (zeros ++ list_mul [false; true] (s self / 2))
      else if (3 <=? n self)%nat then
        rbind (seed_or_default seed (n self - 1)) (fun sd =>
        Ok (zeros ++ list_mul (accumulate_xor (removelast sd)) (s self)))
      else Ok zeros
  end.

(** Which construction applies: [self.col_sums == 0] or
    [self.col_sums == (1 << self.s) - 1]. *)
Definition choose_mode (self : Torus) : result mode :=
  if col_sums self =? 0 then Ok EVEN
  else if col_sums self =? N.shiftl 1 (N.of_nat (s self)) - 1 then Ok ODD
  else Raise (ValueError "Column sums must be all even or all odd").

Definition num_rows_of (MODE : mode) (self : Torus) : nat :=
  match MODE with
  | EVEN => r self
  | ODD => (2 * r self)%nat
  end.

(** [2 ** self.n] or [2 ** (self.n - 1)]; the latter is the float [0.5]
    when [n = 0], here [None]. *)
Definition num_copies_of (MODE : mode) (self : Torus) : option nat :=
  match MODE with
  | EVEN => Some (2 ^ n self)%nat
  | ODD =>
      match n self with
      | O => None
      | S k => Some (2 ^ k)%nat
      end
  end.

(** [make(self, seed)].  After the loop the new width is [s * num_copies];
    with the float copy count this point is reached only when [r = 0] (the
    loop is then empty), which no constructed torus has, and the model
    raises [TypeError] there instead of storing a float width. *)
Definition make (seed : option (list bool)) : M unit :=
  self <- get ;;
  MODE <- lift (choose_mode self) ;;
  bits <- lift (first_line MODE seed self) ;;
  next <- lift (_list_to_num bits) ;;
  modify (set_sums (parity next) next) ;;
  let num_rows := num_rows_of MODE self in
  let num_copies := num_copies_of MODE self in
  copyfile ;;
  open_write ;;
  old <- open_read ;;
  for_each (seq 0 (num_rows - 1)) (make_row num_rows num_copies)
           (mkLocals old next [next]) ;;
  close_write ;;
  remove_temp ;;
  copies <- match num_copies with
            | Some c => ret c
            | None => raise TypeError
            end ;;
  modify (fun T => set_dims num_rows (s T * copies) (m T + 1) (n T) T).

(** ** Export of the store as images *)

(** What [save] hands to the imaging library, one record per
    [Image.frombytes('1', img_dim, data, 'raw', '1')] followed by
    [img.save(...)]: the file name, the pixel dimensions [(width, height)]
    and the raw data.  [Whole] is the name given to [save]; [Tile h w] is
    [f'{base}_{h}_{w}{ext}'] for [base, ext = os.path.splitext(name)].  The
    checks and the encoding done inside the library are not modelled. *)
Inductive image_name : Type :=
| Whole
| Tile (h w : nat).

Record image : Type := mkImage {
  image_file : image_name;
  image_dim : nat * nat;
  image_data : list byte
}.

(** The exceptions of [save]: those of the rest of the class, and the
    division by zero of [self.s % tile_width]. *)
Inductive save_exn : Type :=
| SaveError (e : exn)
| ZeroDivisionError.

(** [get_next_data()], with the variables [data], [i] and [w] of the
    enclosing loops as arguments: the bytes of row [i], tile column [w],
    each bit and each row repeated [square_size] times. *)
Definition get_next_data (self : Torus) (img_width square_size : nat)
  (data : list byte) (i w : nat) : result (list byte) :=
  let start := (i * _bytes (s self) + w * _bytes img_width)%nat in
  let next_data := firstn (_bytes img_width) (skipn start data) in
  if (1 <? square_size)%nat then
    let num := from_bytes next_data in
    let bits := format_b img_width num in
    let stretched := flat_map (fun b => repeat b square_size) bits in
    rbind (_list_to_num stretched) (fun v =>
    rbind (to_bytes v (square_size * _bytes img_width)) (fun bs =>
    Ok (list_mul bs square_size)))
  else Ok next_data.

(** [for i in range(img_height): curr_data.extend(get_next_data())]. *)
Fixpoint tile_data (self : Torus) (img_width square_size : nat)
  (data : list byte) (w : nat) (rows : list nat) : result (list byte) :=
  match rows with
  | [] => Ok []
  | i :: rows' =>
      rbind (get_next_data self img_width square_size data i w) (fun d =>
      rbind (tile_data self img_width square_size data w rows') (fun ds =>
      Ok (d ++ ds)))
  end.

(** [for w in range(tile_width)]: the images saved, and the exception
    that stopped the loop, if any. *)
Fixpoint save_row (self : Torus) (tile_width tile_height square_size : nat)
  (data : list byte) (h : nat) (cols : list nat) : list image * option exn :=
  let img_width := (s self / tile_width)%nat in
  let img_height := (r self / tile_height)%nat in
  let img_dim := (img_width * square_size, img_height * square_size)%nat in
  match cols with
  | [] => ([], None)
  | w :: cols' =>
      match tile_data self img_width square_size data w (seq 0 img_height) with
      | Raise e => ([], Some e)
      | Ok curr_data =>
          let name := if ((tile_width =? 1) && (tile_height =? 1))%nat
                      then Whole else Tile (h + 1) (w + 1) in
          let (imgs, e) :=
            save_row self tile_width tile_height square_size data h cols' in
          (mkImage name img_dim curr_data :: imgs, e)
      end
  end.

(** [for h in range(tile_height)], reading one band of rows each time. *)
Fixpoint save_bands (self : Torus) (tile_width tile_height square_size : nat)
  (f : reader) (bands : list nat) : list image * option exn :=
  match bands with
  | [] => ([], None)
  | h :: bands' =>
      let (data, f') :=
        read (r self / tile_height * _bytes (s self)) f in
      match save_row self tile_width tile_height square_size data h
              (seq 0 tile_width) with
      | (imgs, Some e) => (imgs, Some e)
      | (imgs, None) =>
          let (imgs', e) :=
            save_bands self tile_width tile_height square_size f' bands' in
          (imgs ++ imgs', e)
      end
  end.

(** [save(self, name, tile_width, tile_height, square_size)]: the images
    saved, in order, and the exception raised, if any. *)
Definition save (tile_width tile_height square_size : nat) (self : Torus)
  : list image * option save_exn :=
  match tile_width with
  | O => ([], Some ZeroDivisionError)
  | S _ =>
      if negb (s self mod tile_width =? 0)%nat then
        ([], Some (SaveError
           (ValueError "Tile dimensions must divide torus dimensions")))
      else
        match tile_height with
        | O => ([], Some ZeroDivisionError)
        | S _ =>
            if negb (r self mod tile_height =? 0)%nat then
              ([], Some (SaveError
                 (ValueError "Tile dimensions must divide torus dimensions")))
            else
              let img_width := (s self / tile_width)%nat in
              let img_height := (r self / tile_height)%nat in
              let img_dim :=
                (img_width * square_size, img_height * square_size)%nat in
              if negb (img_width mod 8 =? 0)%nat then
                ([], Some (SaveError
                   (ValueError "Output image width must be at least 8")))
              else if ((tile_width =? 1) && (tile_height =? 1) &&
                       (square_size =? 1))%nat then
                ([mkImage Whole img_dim (file self)], None)
              else
                let (imgs, e) :=
                  save_bands self tile_width tile_height square_size
                    (mkReader (file self) (file self)) (seq 0 tile_height) in
                (imgs, option_map SaveError e)
        end
  end.

(** ** Notions used to state the properties *)

(** Bit [i] of a byte string, counted from the most significant bit of the
    first byte. *)
Definition bit_at (bs : list byte) (i : nat) : bool :=
  N.testbit (Byte.to_N (nth (i / 8) bs x00)) (N.of_nat (7 - i mod 8)).

(** The layout the specification words for [pack]: the bits first, in
    order, and zeros after them up to the end of the last byte. *)
Definition left_justified (bits : list bool) (bs : list byte) : Prop :=
  length bs = _bytes (length bits) /\
  (forall i, (i < length bits)%nat -> bit_at bs i = nth i bits false) /\
  (forall i, (length bits <= i < 8 * length bs)%nat -> bit_at bs i = false).

(** The layout [to_bytes] gives: the zeros first, then the bits, in order,
    ending at the last bit of the last byte. *)
Definition right_justified (bits : list bool) (bs : list byte) : Prop :=
  length bs = _bytes (length bits) /\
  let pad := (8 * length bs - length bits)%nat in
  (forall i, (i < pad)%nat -> bit_at bs i = false) /\
  (forall i, (i < length bits)%nat -> bit_at bs (pad + i) = nth i bits false).

(** The dimension invariant [r * s == 2^(m*n)]. *)
Definition dims_ok (T : Torus) : Prop :=
  (r T * s T = 2 ^ (m T * n T))%nat.

(** Two states with the same dimensions. *)
Definition same_dims (T T' : Torus) : Prop :=
  r T' = r T /\ s T' = s T /\ m T' = m T /\ n T' = n T.

(** Two states with the same dimensions and the same scratch file: what
    the reading and writing of rows leaves as it is. *)
Definition same_frame (T T' : Torus) : Prop :=
  same_dims T T' /\ temp T' = temp T.

(** A computation whose final state is related to its initial state by
    [R], however it ends. *)
Definition keeps (R : Torus -> Torus -> Prop) {A} (c : M A) : Prop :=
  forall T, R T (snd (c T)).

(** The 4-by-4 torus of [sample-small.py] and the 4-by-16 torus of the
    other samples. *)
Definition bits_of (l : list nat) : list bool :=
  map (fun x => negb (x =? 0)%nat) l.

Definition sample_small : list (list bool) :=
  map bits_of
    [[0; 0; 1; 0];
     [0; 0; 0; 1];
     [0; 1; 1; 1];
     [1; 0; 1; 1]]%nat.

Definition sample_large : list (list bool) :=
  map bits_of
    [[0; 0; 1; 1; 0; 0; 1; 0; 0; 0; 1; 1; 0; 1; 1; 1];
     [0; 0; 1; 1; 0; 0; 0; 1; 0; 1; 1; 0; 0; 0; 0; 1];
     [0; 0; 1; 1; 0; 1; 1; 1; 0; 0; 1; 1; 0; 0; 1; 0];
     [1; 1; 0; 0; 1; 0; 1; 1; 1; 0; 0; 1; 1; 0; 1; 1]]%nat.

(** [Torus(values, m, n, storage)] on a device with the given quota: the
    state [__init__] leaves. *)
Definition new_torus (values : list (list bool)) (m0 n0 : nat)
  (q : option nat) : Torus :=
  snd (__init__ values m0 n0 (blank q)).

(** The state in which [transpose] and [make] start to rewrite the store:
    the scratch file holds a copy of the store and the store is empty. *)
Definition begin_rewrite (T : Torus) : Torus :=
  set_file [] (set_temp (Some (file T)) T).

(** The part of [transpose] that follows the opening of the two files. *)
Definition transpose_body (self : Torus) (old : reader) : M unit :=
  ls <- for_each (seq 0 (r self)) (fun _ acc =>
          let '(lines, old) := acc in
          lo <- _read_to_array old ;;
          ret (lines ++ [fst lo], snd lo)) ([], old) ;;
  _write_from_array (_bytes (r self)) (zip_star (fst ls)) ;;
  close_write ;;
  remove_temp ;;
  modify (fun T => set_dims (s T) (r T) (n T) (m T) T) ;;
  modify (fun T => set_sums (col_sums T) (row_sums T) T).

(** The part of [make] that follows the opening of the two files. *)
Definition make_body (MODE : mode) (self : Torus) (next : N) (old : reader)
  : M unit :=
  let num_rows := num_rows_of MODE self in
  let num_copies := num_copies_of MODE self in
  for_each (seq 0 (num_rows - 1)) (make_row num_rows num_copies)
           (mkLocals old next [next]) ;;
  close_write ;;
  remove_temp ;;
  copies <- match num_copies with
            | Some c => ret c
            | None => raise TypeError
            end ;;
  modify (fun T => set_dims num_rows (s T * copies) (m T + 1) (n T) T).





(** The packed store of a list of rows of the given width: each row in
    [ceil(width/8)] bytes, row after row. *)
Definition store_of (width : nat) (rows : list N) : list byte :=
  concat (map (be_bytes (_bytes width)) rows).

(** The store of [T] holds the rows [rows]: [r] of them, of [s] bits. *)
Definition stored (T : Torus) (rows : list N) : Prop :=
  length rows = r T /\
  Forall (fun x => x < 2 ^ N.of_nat (s T)) rows /\
  file T = store_of (s T) rows.

(** A torus in a consistent state: the dimension invariant holds, the store
    holds [r] rows of [s] bits, no scratch file is left over, and the
    device does not fail. *)
Definition wf (T : Torus) : Prop :=
  dims_ok T /\ (exists rows, stored T rows) /\ temp T = None /\
  quota T = None.

(** The rows of the transposed matrix, as numbers. *)
Definition transposed_rows (width : nat) (rows : list N) : list N :=
  map bits_value (zip_star (map (format_b width) rows)).

(** The state [transpose] leaves when nothing fails. *)
Definition transposed (T : Torus) (rows : list N) : Torus :=
  mkTorus (s T) (r T) (n T) (m T) (col_sums T) (row_sums T)
    (store_of (r T) (transposed_rows (s T) rows)) None (quota T) (landed T).

(** A matrix of bits with [h] rows of [w] bits. *)
Definition rect (h w : nat) (M : list (list bool)) : Prop :=
  length M = h /\ Forall (fun line => length line = w) M.

(** The rows that follow [line] in the new torus when the old rows [olds]
    are read in this order: each is the one before it, XORed with the old
    row repeated [copies] times. *)
Fixpoint new_rows (width copies : nat) (line : N) (olds : list N) : list N :=
  match olds with
  | [] => []
  | o :: olds' =>
      let next := N.lxor line (repeat_pattern o width copies) in
      next :: new_rows width copies next olds'
  end.

(** The rows flushed to the store and the rows still buffered, after the
    rows [news] have been appended one by one to the buffer [pending] with
    batch size [b]. *)
Fixpoint batches (b : nat) (pending news : list N) : list N * list N :=
  match news with
  | [] => ([], pending)
  | x :: news' =>
      let p := pending ++ [x] in
      if (length p mod b =? 0)%nat then
        let (f, p') := batches b [] news' in (p ++ f, p')
      else batches b p news'
  end.

(** The parity summaries as [__init__] and [make] accumulate them over a
    list of rows. *)
Definition track_rows (rs : N) (rows : list N) : N :=
  fold_left (fun rs x => N.shiftl rs 1 + parity x) rows rs.

Definition track_cols (cs : N) (rows : list N) : N :=
  fold_left N.lxor rows cs.

(** The old rows the passes of the loop read: the store in order, and in
    the odd case once more from the start after row [r]. *)
Definition rows_read (MODE : mode) (T : Torus) (rows : list N) : list N :=
  firstn (num_rows_of MODE T - 1) (rows ++ rows).

(** All the rows of the new torus: the first line and those that follow. *)
Definition all_rows (MODE : mode) (T : Torus) (copies : nat) (next : N)
  (rows : list N) : list N :=
  next :: new_rows (s T) copies next (rows_read MODE T rows).

(** The state [make] leaves when nothing fails.  With a single row the
    loop has no pass and nothing is written. *)
Definition made (MODE : mode) (T : Torus) (copies : nat) (next : N)
  (rows : list N) : Torus :=
  let out := all_rows MODE T copies next rows in
  mkTorus (num_rows_of MODE T) (s T * copies) (m T + 1) (n T)
    (track_rows 0 out) (track_cols 0 out)
    (if (num_rows_of MODE T =? 1)%nat then []
     else store_of (s T * copies) out)
    None (quota T) (landed T).

(** The column-parity summary of a torus all of whose [s] columns are odd. *)
Definition all_ones (width : nat) : N := N.shiftl 1 (N.of_nat width) - 1.

(** The seed [make] works with is there and is no longer than a de Bruijn
    sequence of the order asked for. *)
Definition seed_fits (seed : option (list bool)) (order : nat) : Prop :=
  exists sd,
    seed_or_default seed order = Ok sd /\ (length sd <= 2 ^ order)%nat.

(** *** Lyndon words, for the length of the default seed *)

(** A Lyndon word: smaller than each of its proper suffixes, the first
    difference being a [0] in the word against a [1] in the suffix. *)
Definition lyndon (w : list bool) : Prop :=
  forall d, (0 < d < length w)%nat ->
    exists p, (d + p < length w)%nat /\
      (forall t, (t < p)%nat -> nth (d + t) w false = nth t w false) /\
      nth p w false = false /\ nth (d + p) w false = true.

(** The letter at position [k] of the word [w] repeated for ever. *)
Definition power (w : list bool) (k : nat) : bool :=
  nth (k mod length w) w false.

(** The [n] letters of the repeated word [w] from position [j] on. *)
Definition turn (w : list bool) (n j : nat) : list bool :=
  map (fun t => power w (j + t)) (seq 0 n).

(** The first [i1 - 1] letters of the repeated word, followed by [1]: the
    word [debruijn] goes on with after it has stripped the trailing ones
    and raised the last [0]. *)
Definition raised (w : list bool) (i1 : nat) : list bool :=
  map (power w) (seq 0 (i1 - 1)) ++ [true].

(** A seed given to [make] is no longer than a de Bruijn sequence of the
    order asked for; the default seed needs no condition. *)
Definition seed_short (seed : option (list bool)) (order : nat) : Prop :=
  match seed with
  | Some sd => (length sd <= 2 ^ order)%nat
  | None => True
  end.

(** The state [__init__] leaves when nothing fails. *)
Definition initialised (values : list (list bool)) (w m0 n0 : nat)
  (T0 : Torus) : Torus :=
  let nums := map bits_value values in
  mkTorus (length values) w m0 n0 (track_rows 0 nums) (track_cols 0 nums)
    (store_of w nums) (temp T0) (quota T0) (landed T0).

(** The rows read back from a store: [count] reads of [k] bytes each. *)
Fixpoint read_rows (k count : nat) (bs : list byte) : list N :=
  match count with
  | O => []
  | S c => from_bytes (firstn k bs) :: read_rows k c (skipn k bs)
  end.

Definition stored_rows (T : Torus) : list N :=
  read_rows (_bytes (s T)) (r T) (file T).

(** The summaries the object carries are those a full recomputation from
    the stored row bytes gives. *)
Definition sums_consistent (T : Torus) : Prop :=
  row_sums T = track_rows 0 (stored_rows T) /\
  col_sums T = track_cols 0 (stored_rows T).

(** The store holds exactly [r] packed rows of [ceil(s/8)] bytes. *)
Definition store_complete (T : Torus) : Prop :=
  length (file T) = (r T * _bytes (s T))%nat.

(** The smallest tori on which the two constructions meet their edge
    cases: one all-zero row of two bits; one column holding 1 and 0; the
    single bit 1 with windows of no columns. *)
Definition one_row : list (list bool) := [[false; false]].
Definition one_column : list (list bool) := [[true]; [false]].
Definition one_bit : list (list bool) := [[true]].

(** The XOR of the bits of a line: whether it has an odd number of ones. *)
Definition xor_all (line : list bool) : bool := fold_left xorb line false.

(** Every row of the list has an even number of ones. *)
Definition all_even (rows : list N) : Prop :=
  Forall (fun x => parity x = 0) rows.

(** Two states with the same parity summaries. *)
Definition same_sums (T T' : Torus) : Prop :=
  row_sums T' = row_sums T /\ col_sums T' = col_sums T.

(** The seed of the even construction fits and gives a first line with an
    even number of ones: the line holds [width] copies of [seed[1:]]. *)
Definition seed_even (seed : option (list bool)) (order width : nat) : Prop :=
  exists sd,
    seed_or_default seed order = Ok sd /\ (length sd <= 2 ^ order)%nat /\
    Nat.even (width * count_occ bool_dec (tl sd) true) = true.

(** The 16-by-4 torus the sample drivers grow: the transpose of the
    4-by-16 sample. *)
Definition sample_large_t : Torus :=
  snd (transpose (new_torus sample_large 3 2 None)).

(** *** Notions for the images *)

(** The pixel in row [y], column [x] of a raw 1-bit image whose width is a
    multiple of 8: rows follow one another without padding. *)
Definition pixel (img : image) (y x : nat) : bool :=
  bit_at (image_data img) (y * fst (image_dim img) + x).

(** The number of bytes a raw 1-bit image of the given dimensions takes:
    each pixel row is padded to whole bytes. *)
Definition raw_size (dim : nat * nat) : nat :=
  (snd dim * _bytes (fst dim))%nat.

(** The element in row [i], column [j] of the torus whose rows are the
    numbers [rows] of [width] bits, column 0 being the most significant. *)
Definition torus_bit (width : nat) (rows : list N) (i j : nat) : bool :=
  N.testbit (nth i rows 0) (N.of_nat (width - 1 - j)).

(** The band of rows [save] reads for tile row [h]. *)
Definition band (self : Torus) (tile_height h : nat) : list byte :=
  let k := (r self / tile_height * _bytes (s self))%nat in
  firstn k (skipn (h * k) (file self)).

(** The bytes [get_next_data] returns when it succeeds. *)
Definition cell (self : Torus) (img_width square_size : nat)
  (data : list byte) (i w : nat) : list byte :=
  match get_next_data self img_width square_size data i w with
  | Ok d => d
  | Raise _ => []
  end.

(** The image [save] makes for tile row [h], tile column [w]. *)
Definition tile_image (self : Torus) (tile_width tile_height square_size : nat)
  (h w : nat) : image :=
  let img_width := (s self / tile_width)%nat in
  let img_height := (r self / tile_height)%nat in
  mkImage
    (if ((tile_width =? 1) && (tile_height =? 1))%nat then Whole
     else Tile (h + 1) (w + 1))
    (img_width * square_size, img_height * square_size)%nat
    (concat (map (fun i => cell self img_width square_size
                             (band self tile_height h) i w)
                 (seq 0 img_height))).

(** All the images, tile row after tile row. *)
Definition tiles (self : Torus) (tile_width tile_height square_size : nat)
  : list image :=
  flat_map (fun h => map (tile_image self tile_width tile_height square_size h)
                         (seq 0 tile_width))
           (seq 0 tile_height).

(** *** Notions for the sequence generator *)

(** The window of [k] bits that starts at position [i] of the cyclic
    sequence [sd]. *)
Definition window (sd : list bool) (k i : nat) : list bool :=
  map (fun j => nth ((i + j) mod length sd) sd false) (seq 0 k).

(** The windows of [k] bits of the cyclic sequence, one per position. *)
Definition windows (sd : list bool) (k : nat) : list (list bool) :=
  map (window sd k) (seq 0 (length sd)).

(** A binary de Bruijn sequence of order [k]: [2^k] bits, every word of
    [k] bits being the window at exactly one position. *)
Definition is_debruijn (k : nat) (sd : list bool) : Prop :=
  length sd = (2 ^ k)%nat /\
  forall w, length w = k ->
    count_occ (list_eq_dec bool_dec) (windows sd k) w = 1%nat.

(** The words of [k] bits. *)
Fixpoint all_words (k : nat) : list (list bool) :=
  match k with
  | O => [[]]
  | S k' => map (cons false) (all_words k') ++ map (cons true) (all_words k')
  end.

(** The check of [is_debruijn] by enumeration. *)
Definition is_debruijnb (k : nat) (sd : list bool) : bool :=
  let ws := windows sd k in
  (length sd =? 2 ^ k)%nat &&
  forallb (fun w => (count_occ (list_eq_dec bool_dec) ws w =? 1)%nat)
          (all_words k).

(** The value of the first [i] bits of the working word of [debruijn],
    followed by zeros: it grows with every pass of the loop. *)
Definition progress (word : list bool) (i : nat) : N :=
  bits_value (firstn i word ++ repeat false (length word - i)).

(** The value below which the windows of the turns put out so far lie:
    that of the first [i] letters of the word followed by zeros, and
    [2^n] when the loop is over. *)
Definition bar (word : list bool) (i : nat) : N :=
  match i with
  | O => 2 ^ N.of_nat (length word)
  | S _ => progress word i
  end.

(** * Properties *)

(** ** The bit codec *)

Section Codec.

Lemma bits_value_snoc (l : list bool) (b : bool) :
  bits_value (l ++ [b]) = 2 * bits_value l + N.b2n b.
Proof. unfold bits_value. now rewrite fold_left_app. Qed.

Lemma bits_value_lt (l : list bool) :
  bits_value l < 2 ^ N.of_nat (length l).
Proof.
  induction l as [|b l IH] using rev_ind; [reflexivity|].
  rewrite bits_value_snoc, length_app, Nat.add_comm. cbn [length Nat.add].
  rewrite Nat2N.inj_succ, N.pow_succ_r'.
  destruct b; cbn [N.b2n]; lia.
Qed.

Lemma bits_value_testbit (l : list bool) (i : nat) :
  N.testbit (bits_value l) (N.of_nat i) =
  if (i <? length l)%nat then nth (length l - 1 - i) l false else false.
Proof.
  revert i. induction l as [|b l IH] using rev_ind; intro i.
  - cbn. now destruct i.
  - rewrite bits_value_snoc, length_app, Nat.add_comm. cbn [length Nat.add].
    destruct i as [|i].
    + cbn [N.of_nat]. rewrite N.testbit_0_r.
      cbn [Nat.ltb Nat.leb]. rewrite app_nth2 by lia.
      replace (S (length l) - 1 - 0 - length l)%nat with 0%nat by lia.
      reflexivity.
    + rewrite Nat2N.inj_succ, N.testbit_succ_r, IH.
      change (S i <? S (length l))%nat with (i <? length l)%nat.
      destruct (Nat.ltb_spec i (length l)); [|reflexivity].
      rewrite app_nth1 by lia. f_equal. lia.
Qed.

Lemma bits_value_inj (l1 l2 : list bool) :
  length l1 = length l2 -> bits_value l1 = bits_value l2 -> l1 = l2.
Proof.
  intros Hlen Hval. apply (nth_ext _ _ false false Hlen). intros i Hi.
  pose proof (bits_value_testbit l1 (length l1 - 1 - i)) as H1.
  pose proof (bits_value_testbit l2 (length l1 - 1 - i)) as H2.
  rewrite Hval, H2, <- Hlen in H1.
  destruct (Nat.ltb_spec (length l1 - 1 - i) (length l1)); [|lia].
  replace (length l1 - 1 - (length l1 - 1 - i))%nat with i in H1 by lia.
  now symmetry.
Qed.

Lemma bits_value_zeros (k : nat) (l : list bool) :
  bits_value (repeat false k ++ l) = bits_value l.
Proof.
  unfold bits_value. rewrite fold_left_app.
  replace (fold_left _ (repeat false k) 0) with 0; [reflexivity|].
  induction k; [reflexivity|]. cbn. exact IHk.
Qed.

Lemma bits_value_app (l1 l2 : list bool) :
  bits_value (l1 ++ l2) =
  bits_value l1 * 2 ^ N.of_nat (length l2) + bits_value l2.
Proof.
  induction l2 as [|b l2 IH] using rev_ind.
  - rewrite app_nil_r. cbn. lia.
  - rewrite app_assoc, !bits_value_snoc, IH, length_app, Nat.add_comm.
    cbn [length Nat.add]. rewrite Nat2N.inj_succ, N.pow_succ_r'. lia.
Qed.

Lemma pos_bin_value (p : positive) : bits_value (pos_bin p) = Npos p.
Proof.
  induction p; cbn [pos_bin]; try rewrite bits_value_snoc, IHp;
    cbn [N.b2n]; try reflexivity; lia.
Qed.

Lemma bin_value (x : N) : bits_value (bin x) = x.
Proof. destruct x; [reflexivity|apply pos_bin_value]. Qed.

Lemma pos_bin_length (p : positive) (w : nat) :
  Npos p < 2 ^ N.of_nat w -> (length (pos_bin p) <= w)%nat.
Proof.
  revert w. induction p; intros w H; cbn [pos_bin];
    try rewrite length_app; cbn [length].
  - destruct w as [|w]; [cbn in H; lia|].
    rewrite Nat2N.inj_succ, N.pow_succ_r' in H.
    specialize (IHp w). assert (Npos p < 2 ^ N.of_nat w) by lia. lia.
  - destruct w as [|w]; [cbn in H; lia|].
    rewrite Nat2N.inj_succ, N.pow_succ_r' in H.
    specialize (IHp w). assert (Npos p < 2 ^ N.of_nat w) by lia. lia.
  - destruct w as [|w]; [cbn in H; lia|]. lia.
Qed.

Lemma bin_length (x : N) (w : nat) :
  (1 <= w)%nat -> x < 2 ^ N.of_nat w -> (length (bin x) <= w)%nat.
Proof.
  intros Hw H. destruct x; [cbn; lia|]. now apply pos_bin_length.
Qed.

Lemma format_b_value (w : nat) (x : N) : bits_value (format_b w x) = x.
Proof. unfold format_b. now rewrite bits_value_zeros, bin_value. Qed.

Lemma format_b_length (w : nat) (x : N) :
  (1 <= w)%nat -> x < 2 ^ N.of_nat w -> length (format_b w x) = w.
Proof.
  intros Hw H. unfold format_b. rewrite length_app, repeat_length.
  pose proof (bin_length x w Hw H). lia.
Qed.

Lemma format_b_bits_value (l : list bool) :
  l <> [] -> format_b (length l) (bits_value l) = l.
Proof.
  intro Hl. assert (1 <= length l)%nat by (destruct l; [easy|cbn; lia]).
  apply bits_value_inj.
  - apply format_b_length; [assumption|apply bits_value_lt].
  - apply format_b_value.
Qed.

Lemma count_occ_snoc (l : list bool) (b : bool) :
  count_occ bool_dec (l ++ [b]) true =
  (count_occ bool_dec l true + if b then 1 else 0)%nat.
Proof. rewrite count_occ_app. now destruct b. Qed.

(** *** Bytes *)

Lemma to_N_byte_of_N (x : N) : x < 256 -> Byte.to_N (byte_of_N x) = x.
Proof.
  intro H. unfold byte_of_N. destruct (Byte.of_N x) eqn:E.
  - now apply Byte.to_of_N.
  - apply Byte.of_N_None_iff in E. lia.
Qed.

Lemma to_N_lt (b : byte) : Byte.to_N b < 256.
Proof. pose proof (Byte.to_N_bounded b). lia. Qed.

Lemma be_bytes_length (k : nat) (x : N) : length (be_bytes k x) = k.
Proof.
  revert x. induction k; intro x; cbn [be_bytes]; [reflexivity|].
  rewrite length_app, IHk. cbn. lia.
Qed.

Lemma from_bytes_snoc (bs : list byte) (b : byte) :
  from_bytes (bs ++ [b]) = 256 * from_bytes bs + Byte.to_N b.
Proof. unfold from_bytes. now rewrite fold_left_app. Qed.

Lemma from_bytes_lt (bs : list byte) :
  from_bytes bs < 256 ^ N.of_nat (length bs).
Proof.
  induction bs as [|b bs IH] using rev_ind; [reflexivity|].
  rewrite from_bytes_snoc, length_app, Nat.add_comm. cbn [length Nat.add].
  rewrite Nat2N.inj_succ, N.pow_succ_r'. pose proof (to_N_lt b). lia.
Qed.

Lemma from_be_bytes (k : nat) (x : N) :
  x < 256 ^ N.of_nat k -> from_bytes (be_bytes k x) = x.
Proof.
  revert x. induction k; intros x H.
  - cbn in *. lia.
  - cbn [be_bytes]. rewrite Nat2N.inj_succ, N.pow_succ_r' in H.
    rewrite from_bytes_snoc, IHk, to_N_byte_of_N.
    + symmetry. apply N.div_mod. lia.
    + apply N.mod_lt. lia.
    + apply N.Div0.div_lt_upper_bound. lia.
Qed.

Lemma pow256 (k : nat) : 256 ^ N.of_nat k = 2 ^ N.of_nat (8 * k).
Proof.
  rewrite Nat2N.inj_mul, N.pow_mul_r. reflexivity.
Qed.

Lemma bytes_bound (w : nat) : (w <= 8 * _bytes w)%nat.
Proof.
  unfold _bytes. pose proof (Nat.div_mod_eq (w + 7) 8).
  pose proof (Nat.mod_upper_bound (w + 7) 8). lia.
Qed.

Lemma bytes_bound_upper (w : nat) : (8 * _bytes w < w + 8)%nat.
Proof.
  unfold _bytes. pose proof (Nat.div_mod_eq (w + 7) 8).
  pose proof (Nat.mod_upper_bound (w + 7) 8). lia.
Qed.

Lemma fits_in_bytes (w : nat) (x : N) :
  x < 2 ^ N.of_nat w -> x < 256 ^ N.of_nat (_bytes w).
Proof.
  intro H. rewrite pow256. eapply N.lt_le_trans; [exact H|].
  apply N.pow_le_mono_r; [lia|]. pose proof (bytes_bound w). lia.
Qed.

Lemma to_bytes_ok (x : N) (k : nat) :
  x < 256 ^ N.of_nat k -> to_bytes x k = Ok (be_bytes k x).
Proof.
  intro H. unfold to_bytes. apply N.ltb_lt in H. now rewrite H.
Qed.

Lemma testbit_join (a b : N) (j : N) :
  b < 256 ->
  N.testbit (256 * a + b) j =
  if j <? 8 then N.testbit b j else N.testbit a (j - 8).
Proof.
  intro Hb. change 256 with (2 ^ 8) in *.
  destruct (N.ltb_spec j 8).
  - rewrite <- (N.mod_pow2_bits_low (2 ^ 8 * a + b) 8 j) by assumption.
    rewrite N.add_comm, N.mul_comm, N.Div0.mod_add, N.mod_small by assumption.
    reflexivity.
  - replace j with ((j - 8) + 8) at 1 by lia.
    rewrite <- N.div_pow2_bits.
    rewrite N.add_comm, N.mul_comm, N.div_add by (cbn; lia).
    rewrite N.div_small by assumption. reflexivity.
Qed.

Lemma from_bytes_testbit (bs : list byte) (j : nat) :
  (j < 8 * length bs)%nat ->
  N.testbit (from_bytes bs) (N.of_nat j) = bit_at bs (8 * length bs - 1 - j).
Proof.
  revert j. induction bs as [|b bs IH] using rev_ind; intros j Hj.
  - cbn in Hj. lia.
  - rewrite length_app, Nat.add_comm in *. cbn [length Nat.add] in *.
    rewrite from_bytes_snoc, testbit_join by apply to_N_lt.
    unfold bit_at.
    destruct (N.ltb_spec (N.of_nat j) 8).
    + replace ((8 * S (length bs) - 1 - j) / 8)%nat with (length bs).
      2:{ apply Nat.div_unique with (r := (7 - j)%nat); lia. }
      replace ((8 * S (length bs) - 1 - j) mod 8)%nat with (7 - j)%nat.
      2:{ apply Nat.mod_unique with (q := length bs); lia. }
      rewrite app_nth2, Nat.sub_diag by lia. cbn [nth].
      f_equal. lia.
    + replace (N.of_nat j - 8) with (N.of_nat (j - 8)) by lia.
      rewrite IH by lia. unfold bit_at.
      replace (8 * S (length bs) - 1 - j)%nat
        with (8 * length bs - 1 - (j - 8))%nat by lia.
      rewrite app_nth1; [reflexivity|].
      apply Nat.Div0.div_lt_upper_bound. lia.
Qed.

End Codec.

(** ** The packed layout of a row *)

Lemma be_bytes_bit_at (bits : list bool) (k i : nat) :
  (length bits <= 8 * k)%nat -> (i < 8 * k)%nat ->
  bit_at (be_bytes k (bits_value bits)) i =
  if (i <? 8 * k - length bits)%nat then false
  else nth (i - (8 * k - length bits)) bits false.
Proof.
  intros Hk Hi.
  assert (Hfit : bits_value bits < 256 ^ N.of_nat k).
  { rewrite pow256. eapply N.lt_le_trans; [apply bits_value_lt|].
    apply N.pow_le_mono_r; lia. }
  pose proof (from_bytes_testbit (be_bytes k (bits_value bits)) (8 * k - 1 - i))
    as H.
  rewrite be_bytes_length, from_be_bytes, bits_value_testbit in H
    by (assumption || lia).
  replace (8 * k - 1 - (8 * k - 1 - i))%nat with i in H by lia.
  rewrite <- H.
  destruct (Nat.ltb_spec (8 * k - 1 - i) (length bits));
    destruct (Nat.ltb_spec i (8 * k - length bits));
    try reflexivity; try lia.
  - f_equal. lia.
  - lia.
Qed.

Lemma pack_ok (bits : list bool) (k : nat) :
  bits <> [] -> (length bits <= 8 * k)%nat ->
  pack bits k = Ok (be_bytes k (bits_value bits)).
Proof.
  intros Hne Hk. unfold pack. destruct bits as [|b bits]; [easy|].
  cbn [_list_to_num rbind]. apply to_bytes_ok.
  rewrite pow256. eapply N.lt_le_trans; [apply bits_value_lt|].
  apply N.pow_le_mono_r; lia.
Qed.

(** C7, as the code has it: [pack] of a non-empty bit sequence emits
    exactly [ceil(len(bits)/8)] bytes, whose big-endian value is the value
    of the bit string; the bits are right-justified, the unused bit
    positions being the leading bits of the first byte, all zero. *)
Theorem pack_right_justified (bits : list bool) :
  bits <> [] ->
  exists bs,
    pack bits (_bytes (length bits)) = Ok bs /\
    from_bytes bs = bits_value bits /\
    right_justified bits bs.
Proof.
  intro Hne. pose proof (bytes_bound (length bits)) as Hb.
  exists (be_bytes (_bytes (length bits)) (bits_value bits)).
  split; [now apply pack_ok|]. split.
  - apply from_be_bytes, fits_in_bytes, bits_value_lt.
  - unfold right_justified. rewrite be_bytes_length.
    split; [reflexivity|]. cbv zeta. split; intros i Hi.
    + rewrite be_bytes_bit_at by lia.
      destruct (Nat.ltb_spec i (8 * _bytes (length bits) - length bits));
        [reflexivity|lia].
    + rewrite be_bytes_bit_at by lia.
      destruct (Nat.ltb_spec (8 * _bytes (length bits) - length bits + i)
                  (8 * _bytes (length bits) - length bits)); [lia|].
      f_equal. lia.
Qed.

Lemma pack_right_justified_witness :
  exists bs,
    pack [true; false; true] (_bytes 3) = Ok bs /\
    from_bytes bs = bits_value [true; false; true] /\
    right_justified [true; false; true] bs.
Proof. apply (pack_right_justified [true; false; true]). discriminate. Defined.

(** C7 as stated fails: the single bit 1 is packed as the byte 0x01, whose
    first bit is 0 and whose last bit, beyond the sequence, is 1. *)
Lemma pack_left_justified_counterexample :
  pack [true] (_bytes 1) = Ok [x01] /\ ~ left_justified [true] [x01].
Proof.
  split; [reflexivity|]. intros (_ & H & _).
  specialize (H 0%nat). cbn in H. discriminate H. lia.
Qed.

(** ** Reasoning about method runs *)

Lemma bind_ok {A B} (c : M A) (f : A -> M B) (T T' : Torus) (b : B) :
  bind c f T = (Ok b, T') ->
  exists a T1, c T = (Ok a, T1) /\ f a T1 = (Ok b, T').
Proof.
  unfold bind. destruct (c T) as [[a|e] T1]; intro H; [|discriminate].
  now exists a, T1.
Qed.

Lemma bind_run {A B} (c : M A) (f : A -> M B) (T T1 : Torus) (a : A) :
  c T = (Ok a, T1) -> bind c f T = f a T1.
Proof. unfold bind. now intros ->. Qed.

Lemma bind_raise {A B} (c : M A) (f : A -> M B) (T T1 : Torus) (e : exn) :
  c T = (Raise e, T1) -> bind c f T = (Raise e, T1).
Proof. unfold bind. now intros ->. Qed.

Tactic Notation "inv_bind" hyp(H) "as" ident(a) ident(T1) ident(H1) :=
  apply bind_ok in H; destruct H as (a & T1 & H1 & H).

Lemma same_dims_refl (T : Torus) : same_dims T T.
Proof. now repeat split. Qed.

Lemma same_dims_trans (T1 T2 T3 : Torus) :
  same_dims T1 T2 -> same_dims T2 T3 -> same_dims T1 T3.
Proof. unfold same_dims. intuition congruence. Qed.

Lemma same_frame_refl (T : Torus) : same_frame T T.
Proof. split; [apply same_dims_refl|reflexivity]. Qed.

Lemma same_frame_trans (T1 T2 T3 : Torus) :
  same_frame T1 T2 -> same_frame T2 T3 -> same_frame T1 T3.
Proof.
  intros [D1 E1] [D2 E2]. split; [eapply same_dims_trans; eassumption|].
  congruence.
Qed.

(** Composition of computations that keep a reflexive and transitive
    relation between the states. *)
Section Keeps.

Variable R : Torus -> Torus -> Prop.
Hypothesis R_refl : forall T, R T T.
Hypothesis R_trans : forall T1 T2 T3, R T1 T2 -> R T2 T3 -> R T1 T3.

Lemma keeps_ret {A} (a : A) : keeps R (ret a).
Proof. intro T. apply R_refl. Qed.

Lemma keeps_raise {A} (e : exn) : keeps R (@raise A e).
Proof. intro T. apply R_refl. Qed.

Lemma keeps_lift {A} (x : result A) : keeps R (lift x).
Proof. intro T. apply R_refl. Qed.

Lemma keeps_get : keeps R get.
Proof. intro T. apply R_refl. Qed.

Lemma keeps_bind {A B} (c : M A) (f : A -> M B) :
  keeps R c -> (forall a, keeps R (f a)) -> keeps R (bind c f).
Proof.
  intros Hc Hf T. unfold bind. specialize (Hc T).
  destruct (c T) as [[a|e] T1]; cbn [snd] in *; [|assumption].
  eapply R_trans; [exact Hc|apply Hf].
Qed.

Lemma keeps_for_each {X A} (xs : list X) (body : X -> A -> M A) (acc : A) :
  (forall x a, keeps R (body x a)) -> keeps R (for_each xs body acc).
Proof.
  intro Hb. revert acc. induction xs as [|x xs IH]; intro acc; cbn [for_each].
  - apply keeps_ret.
  - apply keeps_bind; [apply Hb|]. intro a. apply IH.
Qed.

End Keeps.

Lemma keeps_run {R A} (c : M A) (T T' : Torus) (x : result A) :
  keeps R c -> c T = (x, T') -> R T T'.
Proof. intros Hc H. specialize (Hc T). now rewrite H in Hc. Qed.

Lemma keeps_weaken (R R' : Torus -> Torus -> Prop) {A} (c : M A) :
  (forall T T', R T T' -> R' T T') -> keeps R c -> keeps R' c.
Proof. intros HR Hc T. apply HR, Hc. Qed.

Ltac keeps_frame_step :=
  first
    [ apply (keeps_bind same_frame same_frame_trans)
    | apply (keeps_ret same_frame same_frame_refl)
    | apply (keeps_raise same_frame same_frame_refl)
    | apply (keeps_lift same_frame same_frame_refl)
    | apply (keeps_get same_frame same_frame_refl) ].

Lemma frame_write (bs : list byte) : keeps same_frame (write bs).
Proof.
  intro T. unfold write, device. destruct (quota T) as [[|k]|];
    now repeat split.
Qed.

Lemma frame_open_write : keeps same_frame open_write.
Proof.
  intro T. unfold open_write, device. destruct (quota T) as [[|k]|];
    now repeat split.
Qed.

Lemma frame_close_write : keeps same_frame close_write.
Proof.
  intro T. unfold close_write, device. destruct (quota T) as [[|k]|];
    now repeat split.
Qed.

Lemma dims_remove_temp : keeps same_dims remove_temp.
Proof.
  intro T. unfold remove_temp, device. destruct (temp T); [|now repeat split].
  destruct (quota T) as [[|k]|]; now repeat split.
Qed.

Lemma dims_copyfile : keeps same_dims copyfile.
Proof.
  intro T. unfold copyfile, device. destruct (quota T) as [[|k]|];
    now repeat split.
Qed.

Lemma dims_open_read : keeps same_dims open_read.
Proof.
  intro T. unfold open_read, device. destruct (temp T); [|now repeat split].
  destruct (quota T) as [[|k]|]; now repeat split.
Qed.

Lemma frame_set_sums (f g : Torus -> N) :
  keeps same_frame (modify (fun T => set_sums (f T) (g T) T)).
Proof. intro T. now repeat split. Qed.

Lemma frame_write_from_num (k : nat) (lines : list N) :
  keeps same_frame (_write_from_num k lines).
Proof.
  induction lines as [|x lines IH]; cbn [_write_from_num].
  - keeps_frame_step.
  - keeps_frame_step; [keeps_frame_step|]. intros bs.
    keeps_frame_step; [apply frame_write|]. intros _. exact IH.
Qed.

Lemma frame_write_from_array (k : nat) (lines : list (list bool)) :
  keeps same_frame (_write_from_array k lines).
Proof.
  induction lines as [|x lines IH]; cbn [_write_from_array].
  - keeps_frame_step.
  - keeps_frame_step; [keeps_frame_step|]. intros bs.
    keeps_frame_step; [apply frame_write|]. intros _. exact IH.
Qed.

Lemma frame_read_to_num (old : reader) : keeps same_frame (_read_to_num old).
Proof.
  unfold _read_to_num. keeps_frame_step; [keeps_frame_step|]. intro self.
  destruct (read _ old). keeps_frame_step.
Qed.

Lemma frame_read_to_array (old : reader) :
  keeps same_frame (_read_to_array old).
Proof.
  unfold _read_to_array. keeps_frame_step; [keeps_frame_step|]. intro self.
  destruct (read _ old). keeps_frame_step.
Qed.

Lemma frame_make_row (num_rows : nat) (num_copies : option nat) (row : nat)
  (v : locals) : keeps same_frame (make_row num_rows num_copies row v).
Proof.
  unfold make_row. keeps_frame_step; [keeps_frame_step|]. intro self.
  keeps_frame_step; [apply frame_read_to_num|]. intros [old_line old].
  keeps_frame_step.
  { destruct num_copies; keeps_frame_step. }
  intro copies. keeps_frame_step; [apply frame_set_sums|]. intros _.
  destruct (_ =? 0)%nat; [|keeps_frame_step].
  keeps_frame_step; [apply frame_write_from_num|]. intros _. keeps_frame_step.
Qed.

Lemma frame_make_loop (num_rows : nat) (num_copies : option nat)
  (rows : list nat) (v : locals) :
  keeps same_frame (for_each rows (make_row num_rows num_copies) v).
Proof.
  apply (keeps_for_each same_frame same_frame_refl same_frame_trans).
  intros row v'. apply frame_make_row.
Qed.

Lemma frame_read_loop (rows : list nat) (acc : list (list bool) * reader) :
  keeps same_frame
    (for_each rows (fun _ acc =>
       let '(lines, old) := acc in
       lo <- _read_to_array old ;;
       ret (lines ++ [fst lo], snd lo)) acc).
Proof.
  apply (keeps_for_each same_frame same_frame_refl same_frame_trans).
  intros _ [lines old]. keeps_frame_step; [apply frame_read_to_array|].
  intro lo. keeps_frame_step.
Qed.

Lemma frame_init_sums (values : list (list bool)) :
  keeps same_frame
    (for_each values (fun row _ =>
       row_num <- lift (_list_to_num row) ;;
       modify (fun T => set_sums (N.shiftl (row_sums T) 1 + parity row_num)
                                 (N.lxor (col_sums T) row_num) T)) tt).
Proof.
  apply (keeps_for_each same_frame same_frame_refl same_frame_trans).
  intros row _. keeps_frame_step; [keeps_frame_step|]. intro row_num.
  apply (frame_set_sums _ (fun T => N.lxor (col_sums T) row_num)).
Qed.

(** ** The dimension invariant *)

Lemma init_dims (values : list (list bool)) (m0 n0 : nat) (T0 T : Torus) :
  __init__ values m0 n0 T0 = (Ok tt, T) ->
  dims_ok T /\ r T = length values /\ m T = m0 /\ n T = n0 /\
  exists row0, nth_error values 0 = Some row0 /\ s T = length row0.
Proof.
  intro H. unfold __init__ in H.
  inv_bind H as u0 T1 K0. inversion K0; subst T1; clear K0.
  inv_bind H as row0 T1 K0.
  assert (Hrow0 : nth_error values 0 = Some row0 /\
                  T1 = set_dims (length values) (s T0) (m T0) (n T0) T0).
  { unfold lift, get_item in K0. destruct (nth_error values 0); now inversion K0. }
  destruct Hrow0 as [Hrow0 ->]. clear K0.
  inv_bind H as u1 T1 K0. inversion K0; subst T1; clear K0.
  inv_bind H as self T1 K0. inversion K0; subst self T1; clear K0.
  inv_bind H as u2 T1 K0.
  cbn [r s m n set_dims] in K0.
  destruct (Nat.eqb_spec (length values * length row0) (2 ^ (m0 * n0)))
    as [Hd|Hd]; [|discriminate K0].
  inversion K0; subst T1; clear K0.
  inv_bind H as u3 T1 K0. inversion K0; subst T1; clear K0.
  inv_bind H as u4 T1 K0. apply (keeps_run _ _ _ _ (frame_init_sums _)) in K0.
  inv_bind H as u5 T2 K1. apply (keeps_run _ _ _ _ frame_open_write) in K1.
  inv_bind H as self T3 K2. inversion K2; subst self T3; clear K2.
  inv_bind H as u6 T3 K2.
  apply (keeps_run _ _ _ _ (frame_write_from_array _ _)) in K2.
  apply (keeps_run _ _ _ _ frame_close_write) in H.
  destruct K0 as [(Hr & Hs & Hm & Hn) _]. destruct K1 as [(Hr1 & Hs1 & Hm1 & Hn1) _].
  destruct K2 as [(Hr2 & Hs2 & Hm2 & Hn2) _]. destruct H as [(Hr3 & Hs3 & Hm3 & Hn3) _].
  cbn [r s m n set_dims set_sums set_file] in *.
  assert (Er : r T = length values) by congruence.
  assert (Es : s T = length row0) by congruence.
  assert (Em : m T = m0) by congruence.
  assert (En : n T = n0) by congruence.
  unfold dims_ok. rewrite Er, Es, Em, En.
  repeat split; try assumption. now exists row0.
Qed.

Lemma init_mismatch (row0 : list bool) (rows : list (list bool))
  (m0 n0 : nat) (T0 : Torus) :
  (length (row0 :: rows) * length row0 <> 2 ^ (m0 * n0))%nat ->
  exists T,
    __init__ (row0 :: rows) m0 n0 T0 =
      (Raise (ValueError "Dimension mismatch"), T) /\
    file T = file T0 /\ temp T = temp T0.
Proof.
  intro Hd. unfold __init__, bind, lift, get_item, modify, get. cbn [nth_error].
  cbn [r s m n set_dims].
  destruct (Nat.eqb_spec (length (row0 :: rows) * length row0) (2 ^ (m0 * n0)));
    [contradiction|].
  unfold raise. eexists. split; [reflexivity|]. now split.
Qed.

(** *** Where the rewrite starts *)

(** The opening of the two files, by the number of operations the device
    still carries out. *)
Lemma open_files_run {A} (k : reader -> M A) (T : Torus) :
  (copyfile ;; open_write ;; old <- open_read ;; k old) T =
  match quota T with
  | Some 0%nat =>
      (Raise OSError, set_temp (Some (firstn (landed T) (file T))) T)
  | Some 1%nat =>
      (Raise OSError, set_quota (Some 0%nat) (set_temp (Some (file T)) T))
  | Some 2%nat => (Raise OSError, set_quota (Some 0%nat) (begin_rewrite T))
  | Some (S (S (S q))) =>
      k (mkReader (file T) (file T)) (set_quota (Some q) (begin_rewrite T))
  | None => k (mkReader (file T) (file T)) (begin_rewrite T)
  end.
Proof.
  destruct T as [r0 s0 m0 n0 rs cs f t q b].
  unfold bind, copyfile, open_write, open_read, device. cbn.
  destruct q as [[|[|[|q]]]|]; reflexivity.
Qed.

Lemma transpose_start (T : Torus) :
  transpose T =
  match quota T with
  | Some 0%nat =>
      (Raise OSError, set_temp (Some (firstn (landed T) (file T))) T)
  | Some 1%nat =>
      (Raise OSError, set_quota (Some 0%nat) (set_temp (Some (file T)) T))
  | Some 2%nat => (Raise OSError, set_quota (Some 0%nat) (begin_rewrite T))
  | Some (S (S (S q))) =>
      transpose_body T (mkReader (file T) (file T))
        (set_quota (Some q) (begin_rewrite T))
  | None => transpose_body T (mkReader (file T) (file T)) (begin_rewrite T)
  end.
Proof.
  unfold transpose. rewrite open_files_run.
  destruct (quota T) as [[|[|[|q]]]|]; reflexivity.
Qed.

(** The part of [make] that rewrites the store. *)
Lemma make_start (seed : option (list bool)) (T : Torus) :
  make seed T =
  match choose_mode T with
  | Raise e => (Raise e, T)
  | Ok MODE =>
      match rbind (first_line MODE seed T) _list_to_num with
      | Raise e => (Raise e, T)
      | Ok next =>
          let T1 := set_sums (parity next) next T in
          match quota T with
          | Some 0%nat =>
              (Raise OSError,
               set_temp (Some (firstn (landed T) (file T))) T1)
          | Some 1%nat =>
              (Raise OSError,
               set_quota (Some 0%nat) (set_temp (Some (file T)) T1))
          | Some 2%nat =>
              (Raise OSError, set_quota (Some 0%nat) (begin_rewrite T1))
          | Some (S (S (S q))) =>
              make_body MODE T next (mkReader (file T) (file T))
                (set_quota (Some q) (begin_rewrite T1))
          | None =>
              make_body MODE T next (mkReader (file T) (file T))
                (begin_rewrite T1)
          end
      end
  end.
Proof.
  unfold make. unfold bind at 1, get at 1. unfold bind at 1, lift at 1.
  destruct (choose_mode T) as [MODE|e]; [|reflexivity].
  unfold bind at 1, lift at 1.
  destruct (first_line MODE seed T) as [bits|e]; [|reflexivity].
  cbn [rbind]. unfold bind at 1, lift at 1.
  destruct (_list_to_num bits) as [next|e]; [|reflexivity].
  unfold bind at 1, modify at 1. rewrite open_files_run.
  cbn [quota landed file set_sums].
  destruct (quota T) as [[|[|[|q]]]|]; reflexivity.
Qed.

Lemma transpose_start_ok (T T' : Torus) :
  transpose T = (Ok tt, T') ->
  exists q,
    transpose_body T (mkReader (file T) (file T))
      (set_quota q (begin_rewrite T)) = (Ok tt, T').
Proof.
  rewrite transpose_start.
  destruct (quota T) as [[|[|[|q]]]|] eqn:E; try discriminate; intro H.
  - now exists (Some q).
  - exists None. replace (set_quota None (begin_rewrite T))
      with (begin_rewrite T); [exact H|].
    unfold begin_rewrite, set_quota, set_file, set_temp. cbn. now rewrite E.
Qed.

Lemma remove_temp_run (T : Torus) (c : list byte) :
  temp T = Some c -> quota T = None ->
  remove_temp T = (Ok tt, set_temp None T).
Proof. unfold remove_temp, device. now intros -> ->. Qed.

Lemma close_write_run (T : Torus) :
  quota T = None -> close_write T = (Ok tt, T).
Proof. unfold close_write, device. now intros ->. Qed.

Lemma transpose_body_dims (self : Torus) (old : reader) (T T' : Torus) :
  transpose_body self old T = (Ok tt, T') ->
  r T' = s T /\ s T' = r T /\ m T' = n T /\ n T' = m T.
Proof.
  unfold transpose_body. intro H.
  inv_bind H as ls T1 R1. apply (keeps_run _ _ _ _ (frame_read_loop _ _)) in R1.
  inv_bind H as u2 T2 R2.
  apply (keeps_run _ _ _ _ (frame_write_from_array _ _)) in R2.
  inv_bind H as uc Tc Rc. apply (keeps_run _ _ _ _ frame_close_write) in Rc.
  inv_bind H as u3 T3 R3. apply (keeps_run _ _ _ _ dims_remove_temp) in R3.
  inv_bind H as u4 T4 R4. inversion R4; subst T4; clear R4.
  inversion H; subst T'; clear H.
  cbn [r s m n set_dims set_sums].
  destruct R1 as [R1 _], R2 as [R2 _], Rc as [Rc _].
  unfold same_dims in *. intuition congruence.
Qed.

Lemma transpose_dims (T T' : Torus) :
  transpose T = (Ok tt, T') ->
  r T' = s T /\ s T' = r T /\ m T' = n T /\ n T' = m T.
Proof.
  intro H. apply transpose_start_ok in H. destruct H as [q H].
  apply transpose_body_dims in H. exact H.
Qed.

Lemma choose_mode_cases (T : Torus) (MODE : mode) :
  choose_mode T = Ok MODE ->
  MODE = EVEN /\ col_sums T = 0 \/
  MODE = ODD /\ col_sums T = N.shiftl 1 (N.of_nat (s T)) - 1 /\
    col_sums T <> 0.
Proof.
  unfold choose_mode. destruct (N.eqb_spec (col_sums T) 0).
  - intro H. inversion H. now left.
  - destruct (N.eqb_spec (col_sums T) (N.shiftl 1 (N.of_nat (s T)) - 1)).
    + intro H. inversion H. now right.
    + discriminate.
Qed.

Lemma make_body_dims (MODE : mode) (self : Torus) (next : N) (old : reader)
  (T T' : Torus) :
  make_body MODE self next old T = (Ok tt, T') ->
  exists copies,
    num_copies_of MODE self = Some copies /\
    get_size T' = (num_rows_of MODE self, s T * copies, m T + 1, n T)%nat.
Proof.
  unfold make_body. intro H.
  inv_bind H as v T1 R1. apply (keeps_run _ _ _ _ (frame_make_loop _ _ _ _)) in R1.
  inv_bind H as uc Tc Rc. apply (keeps_run _ _ _ _ frame_close_write) in Rc.
  inv_bind H as u2 T2 R2. apply (keeps_run _ _ _ _ dims_remove_temp) in R2.
  inv_bind H as copies T3 R3. exists copies.
  destruct (num_copies_of MODE self) as [c|]; [|discriminate R3].
  inversion R3; subst c T3; clear R3. split; [reflexivity|].
  inversion H; subst T'; clear H.
  unfold get_size. cbn [r s m n set_dims].
  destruct R1 as [R1 _], Rc as [Rc _]. unfold same_dims in *.
  intuition congruence.
Qed.

Lemma make_dims (seed : option (list bool)) (T T' : Torus) :
  make seed T = (Ok tt, T') ->
  (col_sums T = 0 /\
   get_size T' = (r T, s T * 2 ^ n T, m T + 1, n T)%nat) \/
  (col_sums T = N.shiftl 1 (N.of_nat (s T)) - 1 /\ (1 <= n T)%nat /\
   get_size T' = (2 * r T, s T * 2 ^ (n T - 1), m T + 1, n T)%nat).
Proof.
  rewrite make_start. destruct (choose_mode T) as [MODE|e] eqn:EM;
    [|discriminate].
  destruct (rbind _ _) as [next|e]; [|discriminate].
  cbv zeta. intro H.
  assert (H' : exists T1, same_dims T T1 /\
                 make_body MODE T next (mkReader (file T) (file T)) T1 =
                 (Ok tt, T')).
  { destruct (quota T) as [[|[|[|q]]]|]; try discriminate;
      eexists; (split; [|exact H]); now repeat split. }
  clear H. destruct H' as (T1 & (Hr1 & Hs1 & Hm1 & Hn1) & H).
  apply make_body_dims in H. destruct H as (copies & Hc & Hsz).
  rewrite Hs1, Hm1, Hn1 in Hsz.
  apply choose_mode_cases in EM. destruct EM as [[-> Hcs]|(-> & Hcs & _)].
  - left. split; [assumption|]. cbn in Hc. inversion Hc; subst copies.
    exact Hsz.
  - right. split; [assumption|]. cbn [num_copies_of] in Hc.
    destruct (n T) as [|k] eqn:En; [discriminate Hc|].
    inversion Hc; subst copies. split; [lia|].
    rewrite Hsz. cbn [num_rows_of]. repeat f_equal. lia.
Qed.

(** C5: the constructor refuses a matrix whose dimensions do not multiply
    to [2^(m*n)], a torus it does build satisfies [r * s = 2^(m*n)], and
    every transpose and every successful construction step preserves the
    equation for the updated dimensions. *)
Theorem dimension_invariant :
  (forall row0 rows m0 n0 T0,
      (length (row0 :: rows) * length row0 <> 2 ^ (m0 * n0))%nat ->
      exists T,
        __init__ (row0 :: rows) m0 n0 T0 =
          (Raise (ValueError "Dimension mismatch"), T) /\
        file T = file T0) /\
  (forall values m0 n0 T0 T,
      __init__ values m0 n0 T0 = (Ok tt, T) -> dims_ok T) /\
  (forall T T', dims_ok T -> transpose T = (Ok tt, T') -> dims_ok T') /\
  (forall seed T T', dims_ok T -> make seed T = (Ok tt, T') -> dims_ok T').
Proof.
  split; [|split; [|split]].
  - intros row0 rows m0 n0 T0 Hd.
    destruct (init_mismatch row0 rows m0 n0 T0 Hd) as (T & HT & Hf & _).
    now exists T.
  - intros values m0 n0 T0 T H. exact (proj1 (init_dims _ _ _ _ _ H)).
  - intros T T' Hd H. apply transpose_dims in H.
    destruct H as (Hr & Hs & Hm & Hn). unfold dims_ok in *.
    rewrite Hr, Hs, Hm, Hn, (Nat.mul_comm (s T)), (Nat.mul_comm (n T)).
    exact Hd.
  - intros seed T T' Hd H. apply make_dims in H. unfold dims_ok, get_size in *.
    destruct H as [(_ & E)|(_ & Hn & E)]; inversion E as [[Hr Hs Hm Hn']];
      rewrite Hr, Hs, Hm, Hn'.
    + rewrite Nat.mul_assoc, Hd, <- Nat.pow_add_r. f_equal. lia.
    + replace ((r T + (r T + 0)) * (s T * 2 ^ (n T - 1)))%nat
        with (r T * s T * 2 ^ S (n T - 1))%nat
        by (rewrite Nat.pow_succ_r'; lia).
      rewrite Hd, <- Nat.pow_add_r. f_equal. lia.
Qed.

(** ** Transposition of bit matrices *)

Lemma fold_min_const (w : nat) (ls : list nat) :
  Forall (fun k => k = w) ls -> fold_left Nat.min ls w = w.
Proof.
  induction 1 as [|k ls -> _ IH]; cbn [fold_left]; [reflexivity|].
  now rewrite Nat.min_id.
Qed.

Lemma zip_star_rect (h w : nat) (M : list (list bool)) :
  (1 <= h)%nat -> rect h w M ->
  zip_star M = map (fun j => map (fun line => nth j line false) M) (seq 0 w).
Proof.
  intros Hh [Hlen Hall]. destruct M as [|l ls]; [cbn in Hlen; lia|].
  unfold zip_star. inversion Hall as [|? ? Hl Hls]; subst.
  rewrite fold_min_const; [reflexivity|].
  rewrite Forall_map. exact Hls.
Qed.

Lemma zip_star_is_rect (h w : nat) (M : list (list bool)) :
  (1 <= h)%nat -> rect h w M -> rect w h (zip_star M).
Proof.
  intros Hh HM. rewrite (zip_star_rect h w M Hh HM). destruct HM as [Hlen _].
  split.
  - now rewrite length_map, length_seq.
  - rewrite Forall_map, Forall_forall. intros j _. now rewrite length_map.
Qed.

Lemma zip_star_nth (h w : nat) (M : list (list bool)) (i j : nat) :
  (1 <= h)%nat -> rect h w M -> (i < h)%nat -> (j < w)%nat ->
  nth i (nth j (zip_star M) []) false = nth j (nth i M []) false.
Proof.
  intros Hh HM Hi Hj. rewrite (zip_star_rect h w M Hh HM).
  destruct HM as [Hlen _].
  rewrite (nth_indep _ [] (map (fun line => nth 0 line false) M))
    by now rewrite length_map, length_seq.
  rewrite (map_nth (fun j => map (fun line => nth j line false) M)
             (seq 0 w) 0%nat j).
  rewrite seq_nth by assumption. cbn [Nat.add].
  rewrite (nth_indep _ false (nth j [] false))
    by (rewrite length_map; lia).
  apply (map_nth (fun line => nth j line false)).
Qed.

Lemma zip_star_involutive (h w : nat) (M : list (list bool)) :
  (1 <= h)%nat -> (1 <= w)%nat -> rect h w M -> zip_star (zip_star M) = M.
Proof.
  intros Hh Hw HM. pose proof (zip_star_is_rect h w M Hh HM) as HZ.
  pose proof (zip_star_is_rect w h _ Hw HZ) as HZZ.
  destruct HM as [Hlen Hall]. destruct HZZ as [Hlen2 Hall2].
  apply (nth_ext _ _ [] []); [congruence|]. intros i Hi.
  rewrite Hlen2 in Hi. rewrite Forall_forall in Hall, Hall2.
  assert (L1 : length (nth i (zip_star (zip_star M)) []) = w)
    by (apply Hall2, nth_In; lia).
  assert (L2 : length (nth i M []) = w) by (apply Hall, nth_In; lia).
  apply (nth_ext _ _ false false); [congruence|]. intros j Hj.
  rewrite L1 in Hj.
  rewrite (zip_star_nth w h) by (assumption || lia).
  apply (zip_star_nth h w); try assumption. now split; [|apply Forall_forall].
Qed.

(** *** Rows as bit lists and back *)

Lemma matrix_rect (w : nat) (rows : list N) :
  (1 <= w)%nat -> Forall (fun x => x < 2 ^ N.of_nat w) rows ->
  rect (length rows) w (map (format_b w) rows).
Proof.
  intros Hw Hall. split; [apply length_map|].
  rewrite Forall_map. eapply Forall_impl; [|exact Hall].
  intros x Hx. now apply format_b_length.
Qed.

Lemma transposed_rows_length (w : nat) (rows : list N) :
  (1 <= w)%nat -> (1 <= length rows)%nat ->
  Forall (fun x => x < 2 ^ N.of_nat w) rows ->
  length (transposed_rows w rows) = w.
Proof.
  intros Hw Hr Hall. unfold transposed_rows. rewrite length_map.
  now destruct (zip_star_is_rect _ _ _ Hr (matrix_rect w rows Hw Hall)).
Qed.

Lemma transposed_rows_lt (w : nat) (rows : list N) :
  (1 <= w)%nat -> (1 <= length rows)%nat ->
  Forall (fun x => x < 2 ^ N.of_nat w) rows ->
  Forall (fun x => x < 2 ^ N.of_nat (length rows)) (transposed_rows w rows).
Proof.
  intros Hw Hr Hall. unfold transposed_rows. rewrite Forall_map.
  destruct (zip_star_is_rect _ _ _ Hr (matrix_rect w rows Hw Hall))
    as [_ Hcols].
  eapply Forall_impl; [|exact Hcols]. cbn beta. intros col Hcol.
  rewrite <- Hcol. apply bits_value_lt.
Qed.

Lemma transposed_rows_involutive (w : nat) (rows : list N) :
  (1 <= w)%nat -> (1 <= length rows)%nat ->
  Forall (fun x => x < 2 ^ N.of_nat w) rows ->
  transposed_rows (length rows) (transposed_rows w rows) = rows.
Proof.
  intros Hw Hr Hall. unfold transposed_rows.
  pose proof (matrix_rect w rows Hw Hall) as HM.
  pose proof (zip_star_is_rect _ _ _ Hr HM) as [_ Hcols].
  rewrite map_map.
  rewrite (map_ext_in _ (fun col => col)).
  2:{ intros col Hin. rewrite Forall_forall in Hcols.
      rewrite <- (Hcols col Hin). apply format_b_bits_value.
      specialize (Hcols col Hin). destruct col; [cbn in Hcols; lia|easy]. }
  rewrite map_id, (zip_star_involutive _ _ _ Hr Hw HM), map_map.
  rewrite (map_ext _ (fun x => x)); [apply map_id|].
  intro x. apply format_b_value.
Qed.

(** ** Reading and writing rows when the device does not fail *)

Lemma write_run (bs : list byte) (T : Torus) :
  quota T = None -> write bs T = (Ok tt, set_file (file T ++ bs) T).
Proof. unfold write, device. now intros ->. Qed.

Lemma set_file_twice (a b : list byte) (T : Torus) :
  set_file a (set_file b T) = set_file a T.
Proof. reflexivity. Qed.

Lemma write_from_array_run (k : nat) (lines : list (list bool)) (T : Torus) :
  quota T = None ->
  Forall (fun l => l <> [] /\ (length l <= 8 * k)%nat) lines ->
  _write_from_array k lines T =
  (Ok tt,
   set_file (file T ++ concat (map (fun l => be_bytes k (bits_value l)) lines))
     T).
Proof.
  intros Hq Hall. revert T Hq.
  induction Hall as [|l lines [Hne Hl] _ IH]; intros T Hq.
  - cbn. rewrite app_nil_r. now destruct T.
  - cbn [_write_from_array map concat].
    unfold bind at 1, lift. rewrite pack_ok by assumption.
    unfold bind at 1. rewrite write_run by assumption.
    rewrite IH by exact Hq. cbn [file set_file].
    now rewrite set_file_twice, <- app_assoc.
Qed.

Lemma write_from_num_run (k : nat) (lines : list N) (T : Torus) :
  quota T = None ->
  Forall (fun x => x < 256 ^ N.of_nat k) lines ->
  _write_from_num k lines T =
  (Ok tt, set_file (file T ++ concat (map (be_bytes k) lines)) T).
Proof.
  intros Hq Hall. revert T Hq.
  induction Hall as [|x lines Hx _ IH]; intros T Hq.
  - cbn. rewrite app_nil_r. now destruct T.
  - cbn [_write_from_num map concat].
    unfold bind at 1, lift. rewrite to_bytes_ok by assumption.
    unfold bind at 1. rewrite write_run by assumption.
    rewrite IH by exact Hq. cbn [file set_file].
    now rewrite set_file_twice, <- app_assoc.
Qed.

Lemma read_row (w : nat) (x : N) (c tail : list byte) :
  read (_bytes w) (mkReader c (be_bytes (_bytes w) x ++ tail)) =
  (be_bytes (_bytes w) x, mkReader c tail).
Proof.
  unfold read. cbn [rest whole].
  rewrite firstn_app, skipn_app, be_bytes_length, Nat.sub_diag.
  rewrite <- (be_bytes_length (_bytes w) x) at 1 3.
  rewrite firstn_all, skipn_all. cbn. now rewrite app_nil_r.
Qed.

Lemma read_to_array_run (x : N) (c tail : list byte) (T : Torus) :
  x < 2 ^ N.of_nat (s T) ->
  _read_to_array (mkReader c (be_bytes (_bytes (s T)) x ++ tail)) T =
  (Ok (format_b (s T) x, mkReader c tail), T).
Proof.
  intro Hx. unfold _read_to_array, bind, get. rewrite read_row.
  unfold ret. now rewrite from_be_bytes by now apply fits_in_bytes.
Qed.

Lemma read_to_num_run (x : N) (c tail : list byte) (T : Torus) :
  x < 2 ^ N.of_nat (s T) ->
  _read_to_num (mkReader c (be_bytes (_bytes (s T)) x ++ tail)) T =
  (Ok (x, mkReader c tail), T).
Proof.
  intro Hx. unfold _read_to_num, bind, get. rewrite read_row.
  unfold ret. now rewrite from_be_bytes by now apply fits_in_bytes.
Qed.

Lemma read_loop_run (rows : list N) (a : nat) (acc : list (list bool))
  (c tail : list byte) (T : Torus) :
  Forall (fun x => x < 2 ^ N.of_nat (s T)) rows ->
  for_each (seq a (length rows)) (fun _ acc =>
      let '(lines, old) := acc in
      lo <- _read_to_array old ;;
      ret (lines ++ [fst lo], snd lo))
    (acc, mkReader c (store_of (s T) rows ++ tail)) T =
  (Ok (acc ++ map (format_b (s T)) rows, mkReader c tail), T).
Proof.
  intro Hall. revert a acc.
  induction Hall as [|x rows Hx _ IH]; intros a acc.
  - cbn. now rewrite app_nil_r.
  - cbn [length seq for_each store_of map concat].
    unfold bind at 1. unfold bind at 1.
    rewrite <- app_assoc, read_to_array_run by assumption.
    cbn [ret fst snd]. fold (store_of (s T) rows). rewrite IH.
    now rewrite <- app_assoc.
Qed.

(** ** What [transpose] does *)

Lemma transpose_run (T : Torus) (rows : list N) :
  (1 <= r T)%nat -> (1 <= s T)%nat -> stored T rows -> quota T = None ->
  transpose T = (Ok tt, transposed T rows).
Proof.
  intros Hr Hs (Hlen & Hall & Hfile) Hq.
  rewrite transpose_start, Hq. unfold transpose_body.
  rewrite <- Hlen.
  pose proof (read_loop_run rows 0 [] (file T) [] (begin_rewrite T) Hall)
    as Hread.
  rewrite app_nil_r in Hread. cbn [s begin_rewrite set_file set_temp] in Hread.
  rewrite <- Hfile in Hread.
  rewrite (bind_run _ _ _ _ _ Hread). cbn [fst app].
  pose proof (matrix_rect (s T) rows Hs Hall) as HM.
  assert (Hr' : (1 <= length rows)%nat) by lia.
  pose proof (zip_star_is_rect _ _ _ Hr' HM) as [_ Hcols].
  erewrite bind_run.
  2:{ apply write_from_array_run; [exact Hq|].
      eapply Forall_impl; [|exact Hcols]. cbn beta. intros col Hcol.
      pose proof (bytes_bound (length rows)).
      split; [destruct col; [cbn in Hcol; lia|easy]|lia]. }
  erewrite bind_run by (apply close_write_run; exact Hq).
  erewrite bind_run by (eapply remove_temp_run; [reflexivity|exact Hq]).
  unfold bind, modify, transposed, store_of, transposed_rows.
  cbn. rewrite map_map, Hlen. reflexivity.
Qed.

Lemma transposed_stored (T : Torus) (rows : list N) :
  (1 <= r T)%nat -> (1 <= s T)%nat -> stored T rows ->
  stored (transposed T rows) (transposed_rows (s T) rows).
Proof.
  intros Hr Hs (Hlen & Hall & Hfile). unfold stored, transposed.
  cbn [r s file]. rewrite <- Hlen in *. split; [|split].
  - now apply transposed_rows_length.
  - now apply transposed_rows_lt.
  - reflexivity.
Qed.

Lemma dims_ok_pos (T : Torus) : dims_ok T -> (1 <= r T /\ 1 <= s T)%nat.
Proof.
  unfold dims_ok. intro H.
  assert (2 ^ (m T * n T) <> 0)%nat by (apply Nat.pow_nonzero; lia).
  destruct (r T), (s T); lia.
Qed.

Lemma transposed_wf (T : Torus) (rows : list N) :
  wf T -> stored T rows -> wf (transposed T rows).
Proof.
  intros (Hd & _ & Ht & Hq) Hst. destruct (dims_ok_pos T Hd) as [Hr Hs].
  split; [|split; [|split]].
  - unfold dims_ok, transposed in *. cbn [r s m n].
    now rewrite Nat.mul_comm, (Nat.mul_comm (n T)).
  - exists (transposed_rows (s T) rows). now apply transposed_stored.
  - reflexivity.
  - exact Hq.
Qed.

(** C3: on a torus in a consistent state, two transposes in succession
    succeed and give back the state they started from: the same packed
    bytes in the store and the same [(r, s, m, n)] (and the same parity
    summaries). *)
Theorem transpose_involutive (T : Torus) :
  wf T ->
  exists T1 T2,
    transpose T = (Ok tt, T1) /\ transpose T1 = (Ok tt, T2) /\
    file T2 = file T /\ get_size T2 = get_size T /\ T2 = T.
Proof.
  intros Hwf. pose proof Hwf as (Hd & (rows & Hst) & Ht & Hq).
  destruct (dims_ok_pos T Hd) as [Hr Hs].
  pose proof (transposed_stored T rows Hr Hs Hst) as Hst1.
  exists (transposed T rows), (transposed (transposed T rows)
                               (transposed_rows (s T) rows)).
  split; [now apply transpose_run|]. split.
  { apply transpose_run; try assumption; cbn; assumption. }
  assert (E : transposed (transposed T rows) (transposed_rows (s T) rows) = T).
  { destruct Hst as (Hlen & Hall & Hfile).
    unfold transposed. cbn [r s m n row_sums col_sums quota landed].
    rewrite <- Hlen, transposed_rows_involutive by (assumption || lia).
    rewrite <- Hfile, <- Ht, Hlen. now destruct T. }
  rewrite E. repeat split.
Qed.

(** ** The streaming loop of [make] *)

Lemma for_each_app {X A} (xs ys : list X) (body : X -> A -> M A) (acc : A)
  (T : Torus) :
  for_each (xs ++ ys) body acc T =
  (acc' <- for_each xs body acc ;; for_each ys body acc') T.
Proof.
  revert acc T. induction xs as [|x xs IH]; intros acc T; cbn [app for_each].
  - reflexivity.
  - unfold bind. destruct (body x acc T) as [[a|e] T1]; [|reflexivity].
    rewrite IH. reflexivity.
Qed.

(** *** The repeated bit pattern *)

Lemma repeat_pattern_S (o : N) (w c : nat) :
  repeat_pattern o w (S c) =
  repeat_pattern o w c + N.shiftl o (N.of_nat (w * c)).
Proof.
  unfold repeat_pattern. now rewrite seq_S, fold_left_app.
Qed.

Lemma repeat_pattern_lt (o : N) (w c : nat) :
  o < 2 ^ N.of_nat w -> (1 <= w)%nat ->
  repeat_pattern o w c < 2 ^ N.of_nat (w * c).
Proof.
  intros Ho Hw. induction c as [|c IH].
  - rewrite Nat.mul_0_r. cbn. lia.
  - rewrite repeat_pattern_S, N.shiftl_mul_pow2.
    replace (w * S c)%nat with (w + w * c)%nat by lia.
    rewrite Nat2N.inj_add, N.pow_add_r.
    assert (0 < 2 ^ N.of_nat (w * c)) by (apply N.neq_0_lt_0, N.pow_nonzero; lia).
    nia.
Qed.

Lemma lxor_lt (a b : N) (k : N) : a < 2 ^ k -> b < 2 ^ k -> N.lxor a b < 2 ^ k.
Proof.
  intros Ha Hb. destruct (N.eq_dec (N.lxor a b) 0) as [->|Hne].
  - apply N.neq_0_lt_0, N.pow_nonzero. lia.
  - apply N.log2_lt_pow2; [lia|].
    eapply N.le_lt_trans; [apply N.log2_lxor|].
    destruct (N.eq_dec a 0) as [->|Ha0], (N.eq_dec b 0) as [->|Hb0].
    + now rewrite N.lxor_0_l in Hne.
    + cbn [N.log2]. rewrite N.max_r by lia. apply N.log2_lt_pow2; lia.
    + cbn [N.log2]. rewrite N.max_l by lia. apply N.log2_lt_pow2; lia.
    + apply N.max_lub_lt; apply N.log2_lt_pow2; lia.
Qed.

Lemma new_rows_lt (w c : nat) (line : N) (olds : list N) :
  (1 <= w)%nat -> line < 2 ^ N.of_nat (w * c) ->
  Forall (fun x => x < 2 ^ N.of_nat w) olds ->
  Forall (fun x => x < 2 ^ N.of_nat (w * c)) (new_rows w c line olds).
Proof.
  intros Hw Hline Hall. revert line Hline.
  induction Hall as [|o olds Ho _ IH]; intros line Hline; cbn [new_rows].
  - constructor.
  - assert (N.lxor line (repeat_pattern o w c) < 2 ^ N.of_nat (w * c))
      by (apply lxor_lt; [assumption|now apply repeat_pattern_lt]).
    constructor; [assumption|]. now apply IH.
Qed.

Lemma new_rows_length (w c : nat) (line : N) (olds : list N) :
  length (new_rows w c line olds) = length olds.
Proof.
  revert line. induction olds as [|o olds IH]; intro line; cbn [new_rows length].
  - reflexivity.
  - now rewrite IH.
Qed.

Lemma last_cons {A} (l : list A) (x d : A) : last (x :: l) d = last l x.
Proof.
  revert x d. induction l as [|y l IH]; intros x d; [reflexivity|].
  change (last (x :: y :: l) d) with (last (y :: l) d).
  now rewrite !IH.
Qed.

Lemma new_rows_app (w c : nat) (line : N) (o1 o2 : list N) :
  new_rows w c line (o1 ++ o2) =
  new_rows w c line o1 ++
  new_rows w c (last (new_rows w c line o1) line) o2.
Proof.
  revert line. induction o1 as [|o o1 IH]; intro line; cbn [app new_rows].
  - reflexivity.
  - rewrite IH. f_equal. f_equal. now rewrite last_cons.
Qed.

(** *** Batches *)

Lemma batches_cons (b : nat) (p news : list N) (x : N) :
  batches b p (x :: news) =
  if (length (p ++ [x]) mod b =? 0)%nat then
    ((p ++ [x]) ++ fst (batches b [] news), snd (batches b [] news))
  else batches b (p ++ [x]) news.
Proof.
  cbn [batches]. destruct (_ =? 0)%nat; [|reflexivity].
  now destruct (batches b [] news).
Qed.

Lemma batches_app (b : nat) (p n1 n2 : list N) :
  batches b p (n1 ++ n2) =
  (fst (batches b p n1) ++ fst (batches b (snd (batches b p n1)) n2),
   snd (batches b (snd (batches b p n1)) n2)).
Proof.
  revert p. induction n1 as [|x n1 IH]; intro p.
  - cbn [app batches fst snd]. now destruct (batches b p n2).
  - cbn [app]. rewrite !batches_cons.
    destruct (_ =? 0)%nat; cbn [fst snd].
    + rewrite IH. cbn [fst snd]. now rewrite app_assoc.
    + apply IH.
Qed.

Lemma batches_spec (b : nat) (news p : list N) :
  (1 <= b)%nat -> (length p < b)%nat ->
  fst (batches b p news) ++ snd (batches b p news) = p ++ news /\
  (length (snd (batches b p news)) < b)%nat /\
  (length (fst (batches b p news)) mod b = 0)%nat.
Proof.
  intro Hb. revert p. induction news as [|x news IH]; intros p Hp.
  - cbn [batches fst snd app]. rewrite app_nil_r.
    repeat split; [assumption|]. now apply Nat.Div0.mod_0_l.
  - rewrite batches_cons.
    destruct (Nat.eqb_spec (length (p ++ [x]) mod b) 0) as [E|E];
      cbn [fst snd].
    + destruct (IH [] ltac:(cbn; lia)) as (H1 & H2 & H3).
      cbn [app] in H1. repeat split.
      * now rewrite <- !app_assoc, H1.
      * assumption.
      * rewrite length_app, <- Nat.Div0.add_mod_idemp_l, E, Nat.add_0_l.
        exact H3.
    + assert (Hlt : (length (p ++ [x]) < b)%nat).
      { rewrite length_app in *. cbn [length] in *.
        destruct (Nat.eq_dec (length p + 1) b) as [Eb|Eb]; [|lia].
        rewrite Eb, Nat.Div0.mod_same in E. contradiction. }
      destruct (IH (p ++ [x]) Hlt) as (H1 & H2 & H3).
      repeat split; try assumption. now rewrite H1, <- app_assoc.
Qed.

Lemma batches_all_flushed (b : nat) (news p : list N) :
  (1 <= b)%nat -> (length p < b)%nat ->
  (length (p ++ news) mod b = 0)%nat ->
  batches b p news = (p ++ news, []).
Proof.
  intros Hb Hp Hdiv. destruct (batches_spec b news p Hb Hp) as (H1 & H2 & H3).
  assert (Hs : snd (batches b p news) = []).
  { apply (f_equal (@length N)) in H1. rewrite length_app in H1.
    rewrite <- H1 in Hdiv.
    rewrite <- Nat.Div0.add_mod_idemp_l, H3, Nat.add_0_l in Hdiv.
    rewrite Nat.mod_small in Hdiv by assumption.
    now apply length_zero_iff_nil. }
  rewrite Hs, app_nil_r in H1. rewrite <- H1, <- Hs.
  now destruct (batches b p news).
Qed.

(** *** One pass and the whole loop *)

Lemma set_file_sums (f1 f2 : list byte) (a1 b1 a2 b2 : N) (T : Torus) :
  set_file f2 (set_sums a2 b2 (set_file f1 (set_sums a1 b1 T))) =
  set_file f2 (set_sums a2 b2 T).
Proof. reflexivity. Qed.

Lemma store_of_app (w : nat) (r1 r2 : list N) :
  store_of w (r1 ++ r2) = store_of w r1 ++ store_of w r2.
Proof. unfold store_of. now rewrite map_app, concat_app. Qed.

Lemma store_of_cons (w : nat) (x : N) (rows : list N) :
  store_of w (x :: rows) = be_bytes (_bytes w) x ++ store_of w rows.
Proof. reflexivity. Qed.

Section Loop.

Variables (num_rows copies : nat).

Let b := Nat.min num_rows (2 ^ 10).

Lemma make_loop_run (olds : list N) (tail : list byte) :
  forall (a : nat) (v : locals) (T : Torus),
    let W := (s T * copies)%nat in
    let rd := if (a =? r T)%nat then seek0 (old_file v) else old_file v in
    let news := new_rows (s T) copies (next_line v) olds in
    quota T = None -> (1 <= s T)%nat ->
    Forall (fun x => x < 2 ^ N.of_nat (s T)) olds ->
    olds = [] \/ rest rd = store_of (s T) olds ++ tail ->
    (r T <= a \/ a + length olds <= r T)%nat ->
    next_line v < 2 ^ N.of_nat W ->
    Forall (fun x => x < 2 ^ N.of_nat W) (result_buf v) ->
    exists v',
      for_each (seq a (length olds)) (make_row num_rows (Some copies)) v T =
      (Ok v',
       set_file (file T ++ store_of W (fst (batches b (result_buf v) news)))
         (set_sums (track_rows (row_sums T) news)
                   (track_cols (col_sums T) news) T)) /\
      whole (old_file v') = whole (old_file v) /\
      next_line v' = last news (next_line v) /\
      result_buf v' = snd (batches b (result_buf v) news).
Proof.
  induction olds as [|o olds' IH]; intros a v T W rd news Hq Hs Hall Hrd Hseek
    Hline Hbuf.
  - exists v. cbn [length seq for_each]. subst news. cbn [new_rows batches
      fst snd track_rows track_cols fold_left last store_of map concat].
    rewrite app_nil_r. unfold ret. repeat split. now destruct T.
  - destruct Hrd as [Hrd|Hrd]; [discriminate|].
    inversion Hall as [|? ? Ho Hall']; subst.
    rewrite store_of_cons, <- app_assoc in Hrd.
    set (next := N.lxor (next_line v) (repeat_pattern o (s T) copies)).
    assert (Hnext : next < 2 ^ N.of_nat W).
    { apply lxor_lt; [assumption|now apply repeat_pattern_lt]. }
    assert (Hres : Forall (fun x => x < 2 ^ N.of_nat W) (result_buf v ++ [next])).
    { apply Forall_app. split; [assumption|now constructor]. }
    cbn [length seq for_each]. unfold bind at 1.
    (* one pass *)
    assert (Hpass : exists v1,
      make_row num_rows (Some copies) a v T =
      (Ok v1,
       if (length (result_buf v ++ [next]) mod b =? 0)%nat then
         set_file (file T ++ store_of W (result_buf v ++ [next]))
           (set_sums (N.shiftl (row_sums T) 1 + parity next)
                     (N.lxor (col_sums T) next) T)
       else set_sums (N.shiftl (row_sums T) 1 + parity next)
                     (N.lxor (col_sums T) next) T) /\
      old_file v1 = mkReader (whole (old_file v)) (store_of (s T) olds' ++ tail) /\
      next_line v1 = next /\
      result_buf v1 =
        if (length (result_buf v ++ [next]) mod b =? 0)%nat then []
        else result_buf v ++ [next]).
    { unfold make_row. unfold bind at 1. unfold get at 1.
      fold rd. destruct rd as [wh rs] eqn:Erd. cbn [rest] in Hrd. subst rs.
      assert (Hwh : wh = whole (old_file v)).
      { subst rd. destruct (a =? r T)%nat; [unfold seek0 in Erd|];
          destruct (old_file v); cbn in *; congruence. }
      unfold bind at 1. rewrite read_to_num_run by assumption.
      unfold bind at 1. unfold ret at 1. fold next.
      unfold bind at 1. unfold modify at 1.
      fold b. destruct (length (result_buf v ++ [next]) mod b =? 0)%nat.
      - unfold bind. rewrite write_from_num_run.
        + eexists. split; [reflexivity|]. cbn. now rewrite Hwh.
        + exact Hq.
        + eapply Forall_impl; [|exact Hres]. intros x Hx.
          now apply fits_in_bytes.
      - eexists. split; [reflexivity|]. cbn. now rewrite Hwh. }
    destruct Hpass as (v1 & Hrun & Hold & Hnl & Hrb). rewrite Hrun.
    subst news. cbn [new_rows]. fold next. rewrite batches_cons. fold b.
    assert (Hrd1 : olds' = [] \/
      rest (if (S a =? r T)%nat then seek0 (old_file v1) else old_file v1) =
      store_of (s T) olds' ++ tail).
    { destruct olds' as [|o' olds'']; [now left|right].
      cbn [length] in Hseek.
      destruct (Nat.eqb_spec (S a) (r T)); [lia|]. now rewrite Hold. }
    assert (Hseek1 : (r T <= S a \/ S a + length olds' <= r T)%nat)
      by (cbn [length] in Hseek; lia).
    destruct (length (result_buf v ++ [next]) mod b =? 0)%nat.
    + edestruct (IH (S a) v1
        (set_file (file T ++ store_of W (result_buf v ++ [next]))
           (set_sums (N.shiftl (row_sums T) 1 + parity next)
                     (N.lxor (col_sums T) next) T)))
        as (v' & Hrun' & Hw' & Hn' & Hb'); try assumption.
      * rewrite Hnl. exact Hnext.
      * rewrite Hrb. constructor.
      * exists v'. cbn [s r file row_sums col_sums set_file set_sums] in Hrun'.
        rewrite Hnl, Hrb in *. rewrite Hrun'.
        rewrite set_file_sums, Hw', Hold. cbn [whole fst snd].
        rewrite <- app_assoc, <- store_of_app.
        repeat split; try assumption.
        rewrite Hn'. now rewrite last_cons.
    + edestruct (IH (S a) v1
        (set_sums (N.shiftl (row_sums T) 1 + parity next)
                  (N.lxor (col_sums T) next) T))
        as (v' & Hrun' & Hw' & Hn' & Hb'); try assumption.
      * rewrite Hnl. exact Hnext.
      * rewrite Hrb. exact Hres.
      * exists v'. cbn [s r file row_sums col_sums set_file set_sums] in Hrun'.
        rewrite Hnl, Hrb in *. rewrite Hrun'.
        rewrite Hw', Hold. cbn [whole].
        repeat split; try assumption.
        rewrite Hn'. now rewrite last_cons.
Qed.

End Loop.

(** ** What [make] does *)

Lemma pow2_divisor (e a c : nat) : (a * c = 2 ^ e)%nat -> exists k, a = (2 ^ k)%nat.
Proof.
  revert a c. induction e as [|e IH]; intros a c H.
  - exists 0%nat. cbn in *. apply Nat.eq_mul_1 in H. tauto.
  - rewrite Nat.pow_succ_r' in H.
    destruct (Nat.Even_or_Odd a) as [[a' ->]|[a' ->]].
    + destruct (IH a' c) as [k Hk]; [nia|].
      exists (S k). rewrite Nat.pow_succ_r'. lia.
    + destruct (Nat.Even_or_Odd c) as [[c' ->]|[c' ->]]; [|lia].
      destruct (IH (2 * a' + 1)%nat c') as [k Hk]; [nia|]. now exists k.
Qed.

Lemma pow2_mod_min (k : nat) : ((2 ^ k) mod Nat.min (2 ^ k) (2 ^ 10) = 0)%nat.
Proof.
  destruct (Nat.le_ge_cases k 10) as [H|H].
  - rewrite Nat.min_l by (apply Nat.pow_le_mono_r; lia).
    apply Nat.Div0.mod_same.
  - rewrite Nat.min_r by (apply Nat.pow_le_mono_r; lia).
    replace k with ((k - 10) + 10)%nat at 1 by lia.
    rewrite Nat.pow_add_r. apply Nat.Div0.mod_mul.
Qed.

Lemma num_rows_batches (MODE : mode) (T : Torus) :
  dims_ok T ->
  (num_rows_of MODE T mod Nat.min (num_rows_of MODE T) (2 ^ 10) = 0)%nat.
Proof.
  intro Hd. destruct (pow2_divisor _ _ _ Hd) as [k Hk].
  destruct MODE; cbn [num_rows_of]; rewrite Hk.
  - apply pow2_mod_min.
  - rewrite <- Nat.pow_succ_r'. apply pow2_mod_min.
Qed.

Lemma track_rows_first (next : N) (news : list N) :
  track_rows (parity next) news = track_rows 0 (next :: news).
Proof. reflexivity. Qed.

Lemma track_cols_first (next : N) (news : list N) :
  track_cols next news = track_cols 0 (next :: news).
Proof. reflexivity. Qed.

Lemma store_split (w : nat) (rows : list N) (k : nat) :
  store_of w rows = store_of w (firstn k rows) ++ store_of w (skipn k rows).
Proof. now rewrite <- store_of_app, firstn_skipn. Qed.

Lemma Forall_firstn {A} (P : A -> Prop) (k : nat) (l : list A) :
  Forall P l -> Forall P (firstn k l).
Proof.
  intro H. rewrite <- (firstn_skipn k l) in H. now apply Forall_app in H.
Qed.

Lemma make_loop_all (MODE : mode) (T0 : Torus) (copies : nat) (next : N)
  (rows : list N) :
  let num_rows := num_rows_of MODE T0 in
  let W := (s T0 * copies)%nat in
  let news := new_rows (s T0) copies next (rows_read MODE T0 rows) in
  (1 <= r T0)%nat -> (1 <= s T0)%nat -> quota T0 = None ->
  length rows = r T0 ->
  Forall (fun x => x < 2 ^ N.of_nat (s T0)) rows ->
  next < 2 ^ N.of_nat W ->
  forall T, same_dims T0 T -> quota T = None ->
  exists v',
    for_each (seq 0 (num_rows - 1)) (make_row num_rows (Some copies))
      (mkLocals (mkReader (store_of (s T0) rows) (store_of (s T0) rows))
                next [next]) T =
    (Ok v',
     set_file (file T ++
       store_of W (fst (batches (Nat.min num_rows (2 ^ 10)) [next] news)))
       (set_sums (track_rows (row_sums T) news)
                 (track_cols (col_sums T) news) T)) /\
    result_buf v' = snd (batches (Nat.min num_rows (2 ^ 10)) [next] news).
Proof.
  intros num_rows W news Hr Hs Hq0 Hlen Hall Hnext T (Er & Es & _ & _) Hq.
  subst W news. unfold rows_read. fold num_rows.
  set (v0 := mkLocals _ next [next]).
  destruct MODE; cbn [num_rows_of] in num_rows; subst num_rows.
  - (* even: the rows 0 .. r-2 *)
    rewrite firstn_app, Hlen.
    replace (r T0 - 1 - r T0)%nat with 0%nat by lia.
    cbn [firstn]. rewrite app_nil_r.
    pose proof (make_loop_run (r T0) copies (firstn (r T0 - 1) rows)
                  (store_of (s T0) (skipn (r T0 - 1) rows)) 0 v0 T) as L.
    cbv zeta in L. rewrite Es, Er, length_firstn, Hlen in L.
    replace (Nat.min (r T0 - 1) (r T0)) with (r T0 - 1)%nat in L by lia.
    destruct L as (v' & Hrun & _ & _ & Hb); try assumption.
    + now apply Forall_firstn.
    + right. destruct (Nat.eqb_spec 0 (r T0)); [lia|]. cbn [v0 old_file rest].
      apply store_split.
    + lia.
    + now constructor.
    + exists v'. now split.
  - (* odd: the rows 0 .. r-1, then again 0 .. r-2 *)
    replace (2 * r T0 - 1)%nat with (r T0 + (r T0 - 1))%nat by lia.
    rewrite seq_app, for_each_app, Nat.add_0_l.
    rewrite firstn_app, Hlen, firstn_all2 by lia.
    replace (r T0 + (r T0 - 1) - r T0)%nat with (r T0 - 1)%nat by lia.
    pose proof (make_loop_run (2 * r T0) copies rows [] 0 v0 T) as L1.
    cbv zeta in L1. rewrite Es, Er, Hlen in L1.
    destruct L1 as (v1 & Hrun1 & Hw1 & Hn1 & Hb1); try assumption.
    { right. destruct (Nat.eqb_spec 0 (r T0)); [lia|]. cbn [v0 old_file rest].
      now rewrite app_nil_r. }
    { lia. }
    { now constructor. }
    rewrite (bind_run _ _ _ _ _ Hrun1).
    set (T1 := set_file _ _) in *.
    pose proof (make_loop_run (2 * r T0) copies (firstn (r T0 - 1) rows)
                  (store_of (s T0) (skipn (r T0 - 1) rows)) (r T0) v1 T1) as L2.
    cbv zeta in L2.
    assert (Es1 : s T1 = s T0) by (subst T1; cbn; assumption).
    assert (Er1 : r T1 = r T0) by (subst T1; cbn; assumption).
    rewrite Es1, Er1, length_firstn, Hlen in L2.
    replace (Nat.min (r T0 - 1) (r T0)) with (r T0 - 1)%nat in L2 by lia.
    assert (Hnews1 : Forall (fun x => x < 2 ^ N.of_nat (s T0 * copies))
              (next :: new_rows (s T0) copies next rows)).
    { constructor; [assumption|]. now apply new_rows_lt. }
    destruct L2 as (v2 & Hrun2 & _ & _ & Hb2); try assumption.
    { now apply Forall_firstn. }
    { right. rewrite Nat.eqb_refl. unfold seek0. cbn [rest whole]. rewrite Hw1.
      cbn [v0 old_file whole]. apply store_split. }
    { lia. }
    { rewrite Hn1. cbn [v0 next_line]. rewrite <- last_cons with (d := 0).
      rewrite Forall_forall in Hnews1. apply Hnews1.
      destruct (@exists_last _ (next :: new_rows (s T0) copies next rows)
                  ltac:(discriminate)) as (l' & x & E).
      rewrite E, last_last. apply in_or_app. right. now left. }
    { rewrite Hb1. cbn [v0 result_buf next_line].
      pose proof (batches_spec (Nat.min (2 * r T0) (2 ^ 10))
                    (new_rows (s T0) copies next rows) [next]) as B.
      destruct B as (B1 & _ & _).
      - assert (1 <= 2 ^ 10)%nat by (apply Nat.neq_0_lt_0, Nat.pow_nonzero; lia).
        lia.
      - cbn [length].
        assert (2 <= 2 ^ 10)%nat by (change (2 ^ 1 <= 2 ^ 10)%nat;
                                     apply Nat.pow_le_mono_r; lia).
        lia.
      - rewrite Forall_forall in *. intros x Hx. apply Hnews1.
        change (next :: new_rows (s T0) copies next rows)
          with ([next] ++ new_rows (s T0) copies next rows).
        rewrite <- B1. apply in_or_app. now right. }
    exists v2. rewrite Hrun2, Hb2. subst T1.
    rewrite Hn1, Hb1. cbn [v0 next_line result_buf].
    rewrite new_rows_app, batches_app. cbn [fst snd].
    unfold track_rows, track_cols. rewrite !fold_left_app.
    cbn [file row_sums col_sums set_file set_sums].
    rewrite set_file_sums, <- app_assoc, <- store_of_app.
    now split.
Qed.

Lemma rows_read_length (MODE : mode) (T : Torus) (rows : list N) :
  (1 <= r T)%nat -> length rows = r T ->
  length (rows_read MODE T rows) = (num_rows_of MODE T - 1)%nat.
Proof.
  intros Hr Hlen. unfold rows_read.
  rewrite length_firstn, length_app, Hlen.
  destruct MODE; cbn [num_rows_of]; lia.
Qed.

Lemma rows_read_lt (MODE : mode) (T : Torus) (rows : list N) :
  Forall (fun x => x < 2 ^ N.of_nat (s T)) rows ->
  Forall (fun x => x < 2 ^ N.of_nat (s T)) (rows_read MODE T rows).
Proof.
  intro H. apply Forall_firstn, Forall_app. now split.
Qed.

Lemma all_rows_length (MODE : mode) (T : Torus) (copies : nat) (next : N)
  (rows : list N) :
  (1 <= r T)%nat -> length rows = r T ->
  length (all_rows MODE T copies next rows) = num_rows_of MODE T.
Proof.
  intros Hr Hlen. unfold all_rows. cbn [length].
  rewrite new_rows_length, rows_read_length by assumption.
  destruct MODE; cbn [num_rows_of]; lia.
Qed.

Lemma all_rows_lt (MODE : mode) (T : Torus) (copies : nat) (next : N)
  (rows : list N) :
  (1 <= s T)%nat -> next < 2 ^ N.of_nat (s T * copies) ->
  Forall (fun x => x < 2 ^ N.of_nat (s T)) rows ->
  Forall (fun x => x < 2 ^ N.of_nat (s T * copies))
         (all_rows MODE T copies next rows).
Proof.
  intros Hs Hnext Hall. constructor; [assumption|].
  apply new_rows_lt; try assumption. now apply rows_read_lt.
Qed.

Lemma make_body_run (MODE : mode) (T : Torus) (copies : nat) (next : N)
  (rows : list N) :
  dims_ok T -> stored T rows -> quota T = None ->
  num_copies_of MODE T = Some copies ->
  next < 2 ^ N.of_nat (s T * copies) ->
  make_body MODE T next (mkReader (file T) (file T))
    (begin_rewrite (set_sums (parity next) next T)) =
  (Ok tt, made MODE T copies next rows).
Proof.
  intros Hd (Hlen & Hall & Hfile) Hq Hc Hnext.
  destruct (dims_ok_pos T Hd) as [Hr Hs].
  unfold make_body. rewrite Hc, Hfile.
  destruct (make_loop_all MODE T copies next rows Hr Hs Hq Hlen Hall Hnext
              (begin_rewrite (set_sums (parity next) next T)))
    as (v' & Hrun & _); [now repeat split|exact Hq|].
  rewrite (bind_run _ _ _ _ _ Hrun).
  erewrite bind_run by (apply close_write_run; exact Hq).
  erewrite bind_run by (eapply remove_temp_run; [reflexivity|exact Hq]).
  unfold bind, ret, modify, made.
  cbn [r s m n row_sums col_sums file temp quota landed begin_rewrite
       set_file set_temp set_sums set_dims app].
  rewrite track_rows_first, track_cols_first. fold (rows_read MODE T rows).
  fold (all_rows MODE T copies next rows).
  f_equal. f_equal.
  destruct (Nat.eqb_spec (num_rows_of MODE T) 1) as [E1|E1].
  - assert (E : rows_read MODE T rows = []).
    { apply length_zero_iff_nil. rewrite rows_read_length by assumption. lia. }
    rewrite E. reflexivity.
  - rewrite batches_all_flushed; [reflexivity| | |].
    + assert (1 <= 2 ^ 10)%nat by (apply Nat.neq_0_lt_0, Nat.pow_nonzero; lia).
      destruct MODE; cbn [num_rows_of] in *; lia.
    + assert (2 <= 2 ^ 10)%nat by (change (2 ^ 1 <= 2 ^ 10)%nat;
                                   apply Nat.pow_le_mono_r; lia).
      cbn [length]. destruct MODE; cbn [num_rows_of] in *; lia.
    + change ([next] ++ new_rows (s T) copies next (rows_read MODE T rows))
        with (all_rows MODE T copies next rows).
      rewrite all_rows_length by assumption.
      now apply num_rows_batches.
Qed.

(** The state [make] leaves holds the new rows, unless there is only one. *)
Lemma made_stored (MODE : mode) (T : Torus) (copies : nat) (next : N)
  (rows : list N) :
  dims_ok T -> stored T rows -> next < 2 ^ N.of_nat (s T * copies) ->
  (2 <= num_rows_of MODE T)%nat ->
  stored (made MODE T copies next rows) (all_rows MODE T copies next rows).
Proof.
  intros Hd (Hlen & Hall & Hfile) Hnext H2.
  destruct (dims_ok_pos T Hd) as [Hr Hs].
  unfold stored, made. cbn [r s file]. split; [|split].
  - now apply all_rows_length.
  - now apply all_rows_lt.
  - destruct (Nat.eqb_spec (num_rows_of MODE T) 1); [lia|reflexivity].
Qed.

(** ** The sequence generator *)

Lemma all_words_complete (k : nat) (w : list bool) :
  length w = k -> In w (all_words k).
Proof.
  revert w. induction k as [|k IH]; intros w Hw.
  - destruct w; [now left|discriminate].
  - destruct w as [|b w]; [discriminate|]. cbn [all_words].
    apply in_or_app. injection Hw as Hw.
    destruct b; [right|left]; apply in_map, IH, Hw.
Qed.

Lemma is_debruijnb_sound (k : nat) (sd : list bool) :
  is_debruijnb k sd = true -> is_debruijn k sd.
Proof.
  unfold is_debruijnb. cbv zeta. intro H. apply andb_prop in H.
  destruct H as [Hlen Hall]. split; [now apply Nat.eqb_eq|].
  intros w Hw. rewrite forallb_forall in Hall.
  apply Nat.eqb_eq, Hall, all_words_complete, Hw.
Qed.

Lemma debruijn_checked (k : nat) :
  match debruijn k with
  | Ok sd => is_debruijnb k sd && negb (hd true sd) &&
             (count_occ bool_dec sd true =? 2 ^ (k - 1))%nat
  | Raise _ => false
  end = true ->
  exists sd,
    debruijn k = Ok sd /\ is_debruijn k sd /\ hd true sd = false /\
    count_occ bool_dec sd true = (2 ^ (k - 1))%nat.
Proof.
  destruct (debruijn k) as [sd|e]; [|discriminate]. intro H.
  apply andb_prop in H. destruct H as [H He].
  apply andb_prop in H. destruct H as [Hd Hh].
  exists sd. split; [reflexivity|]. split; [now apply is_debruijnb_sound|].
  split; [now destruct (hd true sd)|now apply Nat.eqb_eq].
Qed.

Lemma default_seeds_checked (k : nat) :
  (1 <= k <= 10)%nat ->
  match debruijn k with
  | Ok sd => is_debruijnb k sd && negb (hd true sd) &&
             (count_occ bool_dec sd true =? 2 ^ (k - 1))%nat
  | Raise _ => false
  end = true.
Proof.
  intros [H1 H10].
  destruct k as [|k]; [lia|].
  do 10 (destruct k as [|k]; [vm_compute; reflexivity|]).
  lia.
Qed.

(** For every order from 1 to 10, [debruijn] returns a binary de Bruijn
    sequence of that order: [2^order] bits in which every word of [order]
    bits is the cyclic window at exactly one position.  It starts with 0
    and half of its bits are ones. *)
Theorem debruijn_small_orders (k : nat) :
  (1 <= k <= 10)%nat ->
  exists sd,
    debruijn k = Ok sd /\ is_debruijn k sd /\ hd true sd = false /\
    count_occ bool_dec sd true = (2 ^ (k - 1))%nat.
Proof.
  intro H. apply debruijn_checked, default_seeds_checked, H.
Qed.

Lemma debruijn_small_orders_witness :
  exists sd,
    debruijn 3 = Ok sd /\ is_debruijn 3 sd /\ hd true sd = false /\
    count_occ bool_dec sd true = (2 ^ (3 - 1))%nat.
Proof. apply (debruijn_small_orders 3). lia. Defined.

(** *** The loop of [debruijn] ends, and never indexes out of range *)

Lemma get_item_ok {A} (l : list A) (k : nat) (d : A) :
  (k < length l)%nat -> get_item l k = Ok (nth k l d).
Proof.
  intro H. unfold get_item. destruct (nth_error l k) as [x|] eqn:E.
  - f_equal. symmetry. now apply nth_error_nth.
  - apply nth_error_None in E. lia.
Qed.

Lemma set_item_ok {A} (l : list A) (k : nat) (v : A) :
  (k < length l)%nat ->
  set_item l k v = Ok (firstn k l ++ v :: skipn (S k) l).
Proof.
  revert k. induction l as [|x l IH]; intros k H; [cbn in H; lia|].
  destruct k as [|k]; [reflexivity|].
  cbn [set_item]. rewrite IH by (cbn in H; lia). reflexivity.
Qed.

Lemma set_item_length {A} (l : list A) (k : nat) (v : A) :
  (k < length l)%nat ->
  length (firstn k l ++ v :: skipn (S k) l) = length l.
Proof.
  intro H. rewrite length_app, length_firstn. cbn [length].
  rewrite length_skipn. lia.
Qed.

Lemma copy_period_ok (i : nat) (js : list nat) :
  forall word,
    (forall j, In j js -> (i + j < length word)%nat) ->
    exists word1,
      copy_period word i js = Ok word1 /\
      length word1 = length word /\
      firstn i word1 = firstn i word /\
      (forall x, In x word1 -> In x word).
Proof.
  induction js as [|j js IH]; intros word H.
  - exists word. now repeat split.
  - assert (Hj : (i + j < length word)%nat) by (apply H; now left).
    cbn [copy_period].
    rewrite (get_item_ok word j false) by lia. cbn [rbind].
    rewrite set_item_ok by exact Hj. cbn [rbind].
    set (word' := firstn (i + j) word ++ nth j word false :: skipn (S (i + j)) word).
    assert (Hlen : length word' = length word) by now apply set_item_length.
    destruct (IH word') as (word1 & Hrun & Hl1 & Hf1 & Hin1).
    { intros j' Hj'. rewrite Hlen. apply H. now right. }
    exists word1. split; [exact Hrun|]. split; [congruence|]. split.
    + rewrite Hf1. unfold word'. rewrite firstn_app, firstn_firstn.
      rewrite Nat.min_l by lia. rewrite length_firstn.
      replace (i - Nat.min (i + j) (length word))%nat with 0%nat by lia.
      cbn [firstn]. apply app_nil_r.
    + intros x Hx. apply Hin1 in Hx. unfold word' in Hx.
      apply in_app_or in Hx. destruct Hx as [Hx|[Hx|Hx]].
      * rewrite <- (firstn_skipn (i + j) word). apply in_or_app. now left.
      * subst x. apply nth_In. lia.
      * rewrite <- (firstn_skipn (S (i + j)) word). apply in_or_app. now right.
Qed.

Lemma strip_ones_ok (word : list bool) (k : nat) :
  (k <= length word)%nat ->
  exists i1,
    strip_ones word k = Ok i1 /\ (i1 <= k)%nat /\
    ((1 <= i1)%nat -> nth (i1 - 1) word true = false).
Proof.
  induction k as [|k IH]; intro H.
  - exists 0%nat. repeat split; [lia|lia].
  - cbn [strip_ones]. rewrite (get_item_ok word k true) by lia. cbn [rbind].
    destruct (nth k word true) eqn:E.
    + destruct IH as (i1 & Hrun & Hle & Hz); [lia|].
      exists i1. split; [exact Hrun|]. split; [lia|exact Hz].
    + exists (S k). split; [reflexivity|]. split; [lia|]. intros _.
      now rewrite Nat.sub_1_r.
Qed.

Lemma progress_lt (word : list bool) (i : nat) :
  (i <= length word)%nat -> progress word i < 2 ^ N.of_nat (length word).
Proof.
  intro H. unfold progress.
  replace (length word)
    with (length (firstn i word ++ repeat false (length word - i))) at 2.
  - apply bits_value_lt.
  - rewrite length_app, length_firstn, repeat_length. lia.
Qed.

Lemma progress_grows (word word1 : list bool) (i i1 : nat) :
  length word1 = length word -> (i <= length word)%nat ->
  firstn i word1 = firstn i word ->
  (1 <= i1 <= length word)%nat -> nth (i1 - 1) word1 true = false ->
  progress word i <
  progress (firstn (i1 - 1) word1 ++ true :: skipn (S (i1 - 1)) word1) i1.
Proof.
  intros Hlen Hi Hf Hi1 Hz.
  (* the old value is at most the value of the extended word *)
  assert (HA : progress word i <= bits_value word1).
  { unfold progress. rewrite <- Hf, <- Hlen.
    rewrite <- (firstn_skipn i word1) at 3.
    rewrite !bits_value_app, repeat_length, length_skipn.
    replace (bits_value (repeat false (length word1 - i))) with 0.
    - lia.
    - rewrite <- (app_nil_r (repeat false _)). symmetry.
      apply bits_value_zeros. }
  (* which has a zero where the new word has a one *)
  eapply N.le_lt_trans; [exact HA|]. unfold progress.
  rewrite set_item_length by lia.
  replace (firstn i1 (firstn (i1 - 1) word1 ++ true :: skipn (S (i1 - 1)) word1))
    with (firstn (i1 - 1) word1 ++ [true]).
  2:{ rewrite firstn_app, length_firstn.
      replace (i1 - Nat.min (i1 - 1) (length word1))%nat with 1%nat by lia.
      rewrite firstn_firstn, Nat.min_r by lia. reflexivity. }
  rewrite <- (firstn_skipn (i1 - 1) word1) at 1.
  assert (Hsk : skipn (i1 - 1) word1 = false :: skipn (S (i1 - 1)) word1).
  { rewrite <- Hz.
    rewrite <- (firstn_skipn (i1 - 1) word1) at 2.
    rewrite app_nth2 by (rewrite length_firstn; lia).
    rewrite length_firstn.
    replace (i1 - 1 - Nat.min (i1 - 1) (length word1))%nat with 0%nat by lia.
    destruct (skipn (i1 - 1) word1) as [|b tl] eqn:E.
    - apply (f_equal (@length bool)) in E. rewrite length_skipn in E.
      cbn in E. lia.
    - cbn [nth]. f_equal.
      replace (S (i1 - 1)) with (1 + (i1 - 1))%nat by lia.
      now rewrite <- skipn_skipn, E. }
  rewrite Hsk.
  change (false :: skipn (S (i1 - 1)) word1)
    with ([false] ++ skipn (S (i1 - 1)) word1).
  rewrite !app_assoc, !bits_value_app, repeat_length.
  rewrite length_skipn.
  change (bits_value [false]) with 0. change (bits_value [true]) with 1.
  change (2 ^ N.of_nat (length [false])) with 2.
  change (2 ^ N.of_nat (length [true])) with 2.
  rewrite !Hlen.
  replace (bits_value (repeat false (length word - i1))) with 0.
  2:{ rewrite <- (app_nil_r (repeat false _)). symmetry.
      apply bits_value_zeros. }
  pose proof (bits_value_lt (skipn (S (i1 - 1)) word1)) as Hlt.
  rewrite length_skipn, Hlen in Hlt.
  replace (length word - S (i1 - 1))%nat with (length word - i1)%nat in *
    by lia.
  nia.
Qed.

Lemma debruijn_loop_ends (n fuel : nat) :
  forall seq word i,
    length word = n -> (1 <= i <= n)%nat ->
    2 ^ N.of_nat n - progress word i <= N.of_nat fuel ->
    exists out, debruijn_loop fuel n seq word i = Ok out.
Proof.
  induction fuel as [|fuel IH]; intros seq word i Hlen Hi Hfuel.
  - pose proof (progress_lt word i ltac:(lia)) as H. rewrite Hlen in H. lia.
  - destruct i as [|i']; [lia|]. cbn [debruijn_loop].
    destruct (copy_period_ok (S i') (List.seq 0 (n - S i')) word)
      as (word1 & Hcp & Hl1 & Hf1 & _).
    { intros j Hj. apply in_seq in Hj. lia. }
    rewrite Hcp. cbn [rbind].
    destruct (strip_ones_ok word1 n ltac:(lia)) as (i1 & Hso & Hle & Hz).
    rewrite Hso. cbn [rbind]. destruct i1 as [|k].
    + cbn [rbind]. destruct fuel; cbn [debruijn_loop]; now eexists.
    + rewrite set_item_ok by lia. cbn [rbind].
      apply IH.
      * rewrite set_item_length; lia.
      * lia.
      * pose proof (progress_grows word word1 (S i') (S k) Hl1 ltac:(lia) Hf1
                      ltac:(lia) (Hz ltac:(lia))) as Hg.
        replace (S k - 1)%nat with k in Hg by lia. lia.
Qed.

Lemma debruijn_loop_prefix (n fuel : nat) :
  forall seq word i out,
    debruijn_loop fuel n seq word i = Ok out -> exists rest, out = seq ++ rest.
Proof.
  induction fuel as [|fuel IH]; intros seq word i out H.
  - destruct i; [|discriminate]. inversion H. exists []. now rewrite app_nil_r.
  - destruct i as [|i'].
    + inversion H. exists []. now rewrite app_nil_r.
    + cbn [debruijn_loop] in H.
      destruct (copy_period _ _ _) as [word1|]; [|discriminate].
      cbn [rbind] in H.
      destruct (strip_ones _ _) as [i1|]; [|discriminate]. cbn [rbind] in H.
      destruct (match i1 with O => _ | S k => _ end) as [word2|];
        [|discriminate].
      cbn [rbind] in H. apply IH in H. destruct H as (rest & ->).
      destruct (n mod S i' =? 0)%nat.
      * exists (firstn (S i') word ++ rest). now rewrite app_assoc.
      * now exists rest.
Qed.

Lemma debruijn_loop_step_prefix (n fuel : nat) (seq word : list bool)
  (i' : nat) (out : list bool) :
  debruijn_loop (S fuel) n seq word (S i') = Ok out ->
  exists rest,
    out = (if (n mod S i' =? 0)%nat then seq ++ firstn (S i') word else seq)
          ++ rest.
Proof.
  cbn [debruijn_loop]. intro H.
  destruct (copy_period _ _ _) as [word1|]; [|discriminate]. cbn [rbind] in H.
  destruct (strip_ones _ _) as [i1|]; [|discriminate]. cbn [rbind] in H.
  destruct (match i1 with O => _ | S k => _ end) as [word2|]; [|discriminate].
  cbn [rbind] in H. now apply debruijn_loop_prefix in H.
Qed.

Lemma firstn_repeat_le {A} (a : A) (j n : nat) :
  (j <= n)%nat -> firstn j (repeat a n) = repeat a j.
Proof.
  revert n. induction j as [|j IH]; intros n H; [reflexivity|].
  destruct n as [|n]; [lia|]. cbn. f_equal. apply IH. lia.
Qed.

Lemma debruijn_first_pass (n fuel : nat) :
  (1 <= n)%nat ->
  debruijn_loop (S fuel) n [] (repeat false n) 1 =
  debruijn_loop fuel n [false] (repeat false (n - 1) ++ [true]) n.
Proof.
  intro Hn. cbn [debruijn_loop]. rewrite Nat.mod_1_r. cbn [Nat.eqb app].
  destruct (copy_period_ok 1 (List.seq 0 (n - 1)) (repeat false n))
    as (word1 & Hcp & Hl1 & _ & Hin).
  { intros j Hj. apply in_seq in Hj. rewrite repeat_length. lia. }
  rewrite repeat_length in Hl1.
  assert (E1 : word1 = repeat false n).
  { rewrite <- Hl1. apply Forall_eq_repeat, Forall_forall. intros x Hx.
    apply Hin, repeat_spec in Hx. now symmetry. }
  rewrite Hcp, E1. cbn [rbind].
  destruct n as [|k]; [lia|].
  assert (Hk : nth k (repeat false (S k)) true = false)
    by (apply nth_repeat_lt; lia).
  cbn [strip_ones].
  rewrite (get_item_ok _ k true) by (rewrite repeat_length; lia).
  rewrite Hk. cbn [rbind].
  rewrite set_item_ok by (rewrite repeat_length; lia). cbn [rbind].
  replace (firstn 1 (repeat false (S k))) with [false] by reflexivity.
  rewrite (firstn_repeat_le false k (S k)) by lia.
  rewrite skipn_all2 by (rewrite repeat_length; lia).
  now rewrite Nat.sub_1_r.
Qed.

Lemma debruijn_total (order : nat) : exists out, debruijn order = Ok out.
Proof.
  destruct order as [|k]; [now exists []|].
  apply debruijn_loop_ends.
  - apply repeat_length.
  - lia.
  - rewrite Nat2N.inj_pow. change (N.of_nat 2) with 2. lia.
Qed.

(** [debruijn] returns for every order: its loop ends within [2^order]
    passes and no index is out of range.  For order 0 it returns the
    empty sequence; for an order of at least 1 the sequence returned
    starts with [order] zeros followed by a one. *)
Theorem debruijn_returns (order : nat) :
  exists out,
    debruijn order = Ok out /\
    (order = 0%nat -> out = []) /\
    ((1 <= order)%nat ->
     exists rest, out = repeat false order ++ true :: rest).
Proof.
  destruct order as [|k].
  { exists []. split; [reflexivity|]. split; [reflexivity|lia]. }
  destruct (debruijn_loop_ends (S k) (2 ^ S k) [] (repeat false (S k)) 1)
    as (out & Hout).
  { apply repeat_length. }
  { lia. }
  { rewrite Nat2N.inj_pow. change (N.of_nat 2) with 2. lia. }
  exists out. split; [exact Hout|]. split; [discriminate|]. intros _.
  pose proof (Nat.pow_gt_lin_r 2 (S k) ltac:(lia)) as Hbig.
  destruct (2 ^ S k)%nat as [|[|fuel]] eqn:Ef; [lia|lia|].
  rewrite debruijn_first_pass in Hout by lia.
  apply debruijn_loop_step_prefix in Hout. destruct Hout as (rest & Hout).
  rewrite Nat.Div0.mod_same in Hout. cbn [Nat.eqb] in Hout.
  exists rest. rewrite Hout.
  rewrite firstn_all2
    by (rewrite length_app, repeat_length; cbn [length]; lia).
  replace (S k - 1)%nat with k by lia.
  cbn [repeat app]. rewrite <- !app_assoc. reflexivity.
Qed.

Lemma debruijn_returns_witness :
  exists out rest,
    debruijn 3 = Ok out /\ out = repeat false 3 ++ true :: rest.
Proof.
  destruct (debruijn_returns 3) as (out & Hout & _ & Hpre).
  destruct (Hpre ltac:(lia)) as [rest Hrest].
  exists out, rest. split; assumption.
Defined.


(** ** The length of the sequence [debruijn] returns *)

Lemma power_low (w : list bool) (k : nat) :
  (k < length w)%nat -> power w k = nth k w false.
Proof. intro H. unfold power. now rewrite Nat.mod_small. Qed.

Lemma power_period (w : list bool) (k : nat) :
  power w (length w + k) = power w k.
Proof.
  unfold power. f_equal.
  replace (length w + k)%nat with (k + 1 * length w)%nat by lia.
  apply Nat.Div0.mod_add.
Qed.

Lemma power_periods (w : list bool) (c k : nat) :
  power w (c * length w + k) = power w k.
Proof.
  unfold power. f_equal. rewrite Nat.add_comm. apply Nat.Div0.mod_add.
Qed.

Lemma power_mod (w : list bool) (k : nat) :
  power w (k mod length w) = power w k.
Proof. unfold power. now rewrite Nat.Div0.mod_mod. Qed.

(** The first difference between the repeated Lyndon word and a shift of
    it has [0] in the word and [1] in the shift. *)
Lemma lyndon_shift (w : list bool) (d t0 : nat) :
  lyndon w ->
  (forall t, (t < t0)%nat -> power w (d + t) = power w t) ->
  power w (d + t0) <> power w t0 ->
  power w t0 = false /\ power w (d + t0) = true.
Proof.
  intros HL Hagree Hdiff.
  destruct (Nat.eq_dec (length w) 0) as [E0|E0].
  { exfalso. apply Hdiff. destruct w; [|discriminate E0]. unfold power.
    now destruct (_ mod _)%nat, (_ mod _)%nat. }
  set (i := length w) in *.
  assert (Hshift : forall t, power w (d + t) = power w (d mod i + t)).
  { intro t. rewrite (Nat.div_mod_eq d i) at 1.
    rewrite (Nat.mul_comm i), <- Nat.add_assoc. apply power_periods. }
  destruct (Nat.eq_dec (d mod i) 0) as [Ed|Ed].
  { exfalso. apply Hdiff. rewrite Hshift, Ed. reflexivity. }
  pose proof (Nat.mod_upper_bound d i E0) as Hdi.
  destruct (HL (d mod i)%nat ltac:(fold i; lia)) as (p & Hp & Hag & H0 & H1).
  fold i in Hp.
  assert (Ep0 : power w p = false) by (rewrite power_low by (fold i; lia); exact H0).
  assert (Ep1 : power w (d + p) = true).
  { rewrite Hshift, power_low by (fold i; lia). exact H1. }
  assert (Hag' : forall t, (t < p)%nat -> power w (d + t) = power w t).
  { intros t Ht. rewrite Hshift, !power_low by (fold i; lia). now apply Hag. }
  destruct (Nat.lt_trichotomy t0 p) as [Hlt|[Heq|Hgt]].
  - exfalso. apply Hdiff. now apply Hag'.
  - subst t0. now split.
  - exfalso. specialize (Hagree p Hgt). rewrite Ep0, Ep1 in Hagree.
    discriminate.
Qed.

Lemma first_difference (f g : nat -> bool) (L : nat) :
  (forall t, (t <= L)%nat -> f t = g t) \/
  exists t0, (t0 <= L)%nat /\ (forall t, (t < t0)%nat -> f t = g t) /\
             f t0 <> g t0.
Proof.
  induction L as [|L IH].
  - destruct (bool_dec (f 0%nat) (g 0%nat)) as [E|E].
    + left. intros t Ht. now replace t with 0%nat by lia.
    + right. exists 0%nat. split; [lia|]. split; [intros; lia|exact E].
  - destruct IH as [IH|(t0 & Ht0 & Hag & Hd)].
    + destruct (bool_dec (f (S L)) (g (S L))) as [E|E].
      * left. intros t Ht. destruct (Nat.eq_dec t (S L)) as [->|];
          [exact E|apply IH; lia].
      * right. exists (S L). split; [lia|]. split; [|exact E].
        intros t Ht. apply IH. lia.
    + right. exists t0. split; [lia|]. now split.
Qed.

Lemma raised_length (w : list bool) (i1 : nat) :
  (1 <= i1)%nat -> length (raised w i1) = i1.
Proof.
  intro H. unfold raised. rewrite length_app, length_map, length_seq.
  cbn [length]. lia.
Qed.

Lemma raised_low (w : list bool) (i1 k : nat) :
  (k < i1 - 1)%nat -> nth k (raised w i1) false = power w k.
Proof.
  intro H. unfold raised.
  rewrite app_nth1 by now rewrite length_map, length_seq.
  rewrite (nth_indep _ false (power w 0))
    by now rewrite length_map, length_seq.
  rewrite map_nth, seq_nth by assumption. reflexivity.
Qed.

Lemma raised_last (w : list bool) (i1 : nat) :
  (1 <= i1)%nat -> nth (i1 - 1) (raised w i1) false = true.
Proof.
  intro H. unfold raised.
  rewrite app_nth2 by (rewrite length_map, length_seq; lia).
  rewrite length_map, length_seq, Nat.sub_diag. reflexivity.
Qed.

(** Duval's step: the prefix of a repeated Lyndon word that ends before a
    [0], followed by [1], is a Lyndon word. *)
Lemma lyndon_step (w : list bool) (i1 : nat) :
  lyndon w -> (1 <= i1)%nat -> power w (i1 - 1) = false ->
  lyndon (raised w i1).
Proof.
  intros HL Hi1 Hz d Hd. rewrite raised_length in Hd |- * by exact Hi1.
  set (L0 := (i1 - 1 - d)%nat).
  assert (HL0 : (d + L0 = i1 - 1)%nat) by (unfold L0; lia).
  destruct (first_difference (fun t => power w (d + t)) (power w) L0)
    as [Hall|(t0 & Ht0 & Hag & Hdiff)].
  - exists L0. split; [lia|]. split; [|split].
    + intros t Ht. rewrite !raised_low by lia. apply Hall. lia.
    + rewrite raised_low by lia. rewrite <- Hall by lia. now rewrite HL0.
    + rewrite HL0. now apply raised_last.
  - destruct (lyndon_shift w d t0 HL Hag Hdiff) as [E0 E1].
    assert (t0 <> L0) by (intros ->; rewrite HL0 in E1; congruence).
    exists t0. split; [lia|]. split; [|split].
    + intros t Ht. rewrite !raised_low by lia. now apply Hag.
    + rewrite raised_low by lia. exact E0.
    + rewrite raised_low by lia. exact E1.
Qed.

(** *** The turns of a repeated word *)

Lemma turn_length (w : list bool) (n j : nat) : length (turn w n j) = n.
Proof. unfold turn. now rewrite length_map, length_seq. Qed.

Lemma turn_nth (w : list bool) (n j t : nat) :
  (t < n)%nat -> nth t (turn w n j) false = power w (j + t).
Proof.
  intro H. unfold turn.
  rewrite (nth_indep _ false (power w (j + 0)))
    by now rewrite length_map, length_seq.
  rewrite (map_nth (fun t => power w (j + t))), seq_nth by assumption.
  reflexivity.
Qed.

Lemma power_congr (w : list bool) (a b : nat) :
  (a mod length w = b mod length w)%nat -> power w a = power w b.
Proof. unfold power. now intros ->. Qed.

Lemma turn_period (w : list bool) (n j : nat) :
  turn w n (length w + j) = turn w n j.
Proof.
  unfold turn. apply map_ext. intro t. rewrite <- Nat.add_assoc.
  apply power_period.
Qed.

Lemma mod_mod_multiple (a i c : nat) :
  ((a mod (c * i)) mod i = a mod i)%nat.
Proof.
  destruct (Nat.eq_dec (c * i) 0) as [E|E].
  { rewrite E. cbn. reflexivity. }
  rewrite (Nat.div_mod_eq a (c * i)) at 2.
  rewrite Nat.add_comm.
  replace (c * i * (a / (c * i)))%nat with (c * (a / (c * i)) * i)%nat by lia.
  now rewrite Nat.Div0.mod_add.
Qed.

(** The cyclic windows of a turn are the turns, when the length is a
    multiple of the period. *)
Lemma window_turn (w : list bool) (c j k : nat) :
  window (turn w (c * length w) j) (c * length w) k =
  turn w (c * length w) (j + k).
Proof.
  set (n := (c * length w)%nat). unfold window. rewrite turn_length.
  unfold turn at 2. apply map_ext_in. intros t Ht. apply in_seq in Ht.
  destruct (Nat.eq_dec n 0) as [E|E]; [lia|].
  rewrite turn_nth by (apply Nat.mod_upper_bound; exact E).
  apply power_congr.
  rewrite <- Nat.Div0.add_mod_idemp_r. unfold n at 1.
  rewrite mod_mod_multiple. rewrite Nat.Div0.add_mod_idemp_r.
  f_equal. lia.
Qed.

Lemma bits_value_first_diff (f g : nat -> bool) (n t0 : nat) :
  (t0 < n)%nat -> (forall t, (t < t0)%nat -> f t = g t) ->
  f t0 = false -> g t0 = true ->
  bits_value (map f (seq 0 n)) < bits_value (map g (seq 0 n)).
Proof.
  intros Ht0 Hag Hf Hg.
  replace n with (t0 + (1 + (n - t0 - 1)))%nat by lia.
  rewrite !seq_app, !map_app. cbn [seq map Nat.add]. rewrite Hf, Hg.
  rewrite !bits_value_app.
  replace (map f (seq 0 t0)) with (map g (seq 0 t0)).
  2:{ apply map_ext_in. intros t Ht. apply in_seq in Ht. symmetry.
      apply Hag. lia. }
  rewrite !length_app, !length_map, !length_seq. cbn [length].
  change (bits_value [false]) with 0. change (bits_value [true]) with 1.
  pose proof (bits_value_lt (map f (seq (t0 + 1) (n - t0 - 1)))) as Hlt.
  rewrite length_map, length_seq in Hlt.
  set (X := bits_value (map f _)) in *. set (Y := bits_value (map g (seq (t0 + 1) _))).
  set (A := bits_value (map g (seq 0 t0))).
  set (E := 2 ^ N.of_nat (n - t0 - 1)) in *.
  set (E1 := 2 ^ N.of_nat (1 + (n - t0 - 1))).
  lia.
Qed.

(** A repeated Lyndon word is at most each of its turns. *)
Lemma lyndon_least_turn (w : list bool) (n j : nat) :
  lyndon w -> bits_value (turn w n 0) <= bits_value (turn w n j).
Proof.
  intro HL. destruct n as [|n]; [reflexivity|].
  destruct (first_difference (fun t => power w (j + t)) (power w) n)
    as [Hall|(t0 & Ht0 & Hag & Hdiff)].
  - replace (turn w (S n) j) with (turn w (S n) 0); [lia|].
    unfold turn. apply map_ext_in. intros t Ht. apply in_seq in Ht.
    symmetry. apply Hall. lia.
  - destruct (lyndon_shift w j t0 HL Hag Hdiff) as [E0 E1].
    apply N.lt_le_incl. unfold turn.
    apply (bits_value_first_diff _ _ _ t0); [lia| |exact E0|exact E1].
    intros t Ht. symmetry. now apply Hag.
Qed.

(** The turns of a repeated Lyndon word from the positions of one period
    are all different. *)
Lemma lyndon_turns_differ (w : list bool) (n j1 j2 : nat) :
  lyndon w -> (length w <= n)%nat -> (j1 < j2 < length w)%nat ->
  turn w n j1 <> turn w n j2.
Proof.
  intros HL Hn Hj E. set (i := length w) in *.
  assert (Hi : i <> 0%nat) by lia.
  assert (Heq : forall t, (t < n)%nat -> power w (j1 + t) = power w (j2 + t)).
  { intros t Ht. rewrite <- !(turn_nth w n) by exact Ht. now rewrite E. }
  destruct (HL (j2 - j1)%nat ltac:(fold i; lia)) as (p & Hp & _ & H0 & H1).
  fold i in Hp.
  set (t' := ((p + i - j1) mod i)%nat).
  assert (Ht' : (t' < i)%nat) by (apply Nat.mod_upper_bound; exact Hi).
  assert (C1 : ((j1 + t') mod i = p mod i)%nat).
  { unfold t'. rewrite Nat.Div0.add_mod_idemp_r.
    replace (j1 + (p + i - j1))%nat with (p + 1 * i)%nat by lia.
    apply Nat.Div0.mod_add. }
  assert (C2 : ((j2 + t') mod i = (j2 - j1 + p) mod i)%nat).
  { unfold t'. rewrite Nat.Div0.add_mod_idemp_r.
    replace (j2 + (p + i - j1))%nat with (j2 - j1 + p + 1 * i)%nat by lia.
    apply Nat.Div0.mod_add. }
  specialize (Heq t' ltac:(lia)).
  rewrite (power_congr w _ _ C1), (power_congr w _ _ C2) in Heq.
  rewrite !power_low in Heq by (fold i; lia). congruence.
Qed.

(** *** The passes of the loop *)

Lemma nth_set (l : list bool) (j k : nat) (v : bool) :
  (j < length l)%nat ->
  nth k (firstn j l ++ v :: skipn (S j) l) false =
  if (k =? j)%nat then v else nth k l false.
Proof.
  intro Hj. destruct (Nat.eqb_spec k j) as [->|Hne].
  - rewrite app_nth2 by (rewrite length_firstn; lia).
    rewrite length_firstn, Nat.min_l, Nat.sub_diag by lia. reflexivity.
  - rewrite <- (firstn_skipn j l) at 3.
    destruct (Nat.lt_ge_cases k j) as [H|H].
    + rewrite !app_nth1 by (rewrite length_firstn; lia). reflexivity.
    + rewrite !app_nth2 by (rewrite length_firstn; lia).
      rewrite length_firstn, Nat.min_l by lia.
      destruct (k - j)%nat as [|u] eqn:Eu; [lia|]. cbn [nth].
      replace (skipn j l) with (firstn 1 (skipn j l) ++ skipn 1 (skipn j l))
        by apply firstn_skipn.
      rewrite skipn_skipn. replace (1 + j)%nat with (S j) by lia.
      rewrite app_nth2; rewrite length_firstn, length_skipn.
      * replace (S u - Nat.min 1 (length l - j))%nat with u by lia.
        reflexivity.
      * lia.
Qed.

(** The copy loop extends the first [i] letters periodically. *)
Lemma copy_period_power (w0 : list bool) (len : nat) :
  forall a word,
    (1 <= length w0)%nat ->
    (length w0 + a + len <= length word)%nat ->
    (forall k, (k < length w0 + a)%nat -> nth k word false = power w0 k) ->
    exists word1,
      copy_period word (length w0) (seq a len) = Ok word1 /\
      length word1 = length word /\
      (forall k, (k < length w0 + a + len)%nat ->
                 nth k word1 false = power w0 k).
Proof.
  induction len as [|len IH]; intros a word Hw Hlen Hpre.
  - exists word. split; [reflexivity|]. split; [reflexivity|].
    intros k Hk. apply Hpre. lia.
  - cbn [seq copy_period].
    rewrite (get_item_ok word a false) by lia. cbn [rbind].
    rewrite set_item_ok by lia. cbn [rbind].
    set (word' := firstn (length w0 + a) word ++
                  nth a word false :: skipn (S (length w0 + a)) word).
    destruct (IH (S a) word' Hw) as (word1 & Hrun & Hl1 & Hk1).
    + unfold word'. rewrite set_item_length by lia. lia.
    + intros k Hk. unfold word'. rewrite nth_set by lia.
      destruct (Nat.eqb_spec k (length w0 + a)) as [->|Hne].
      * rewrite power_period. apply Hpre. lia.
      * apply Hpre. lia.
    + exists word1. split; [exact Hrun|]. split.
      * rewrite Hl1. unfold word'. apply set_item_length. lia.
      * intros k Hk. apply Hk1. lia.
Qed.

Lemma firstn_length_le' (l : list bool) (i : nat) :
  (i <= length l)%nat -> length (firstn i l) = i.
Proof. intro H. rewrite length_firstn. lia. Qed.

Lemma copy_period_turn (word : list bool) (i : nat) :
  (1 <= i <= length word)%nat ->
  copy_period word i (seq 0 (length word - i)) =
  Ok (turn (firstn i word) (length word) 0).
Proof.
  intro Hi. set (w := firstn i word).
  assert (Hw : length w = i) by (apply firstn_length_le'; lia).
  destruct (copy_period_power w (length word - i) 0 word) as
    (word1 & Hrun & Hl1 & Hk1).
  - lia.
  - lia.
  - intros k Hk. rewrite power_low by lia. unfold w.
    rewrite nth_firstn. destruct (Nat.ltb_spec k i); [reflexivity|lia].
  - rewrite Hw in Hrun. rewrite Hrun. f_equal.
    apply (nth_ext _ _ false false).
    + now rewrite turn_length.
    + intros k Hk. rewrite turn_nth by lia. apply Hk1. lia.
Qed.

Lemma all_words_length (k : nat) : length (all_words k) = (2 ^ k)%nat.
Proof.
  induction k as [|k IH]; [reflexivity|].
  cbn [all_words]. rewrite length_app, !length_map, IH.
  rewrite Nat.pow_succ_r'. lia.
Qed.

Lemma NoDup_map_seq {A} (f : nat -> A) (i : nat) :
  (forall j1 j2, (j1 < j2 < i)%nat -> f j1 <> f j2) ->
  NoDup (map f (seq 0 i)).
Proof.
  intro H. induction i as [|i IH]; [constructor|].
  rewrite seq_S, map_app. cbn [map Nat.add].
  apply NoDup_app; [apply IH; intros; apply H; lia|repeat constructor; easy|].
  intros x Hx [E|[]]. apply in_map_iff in Hx. destruct Hx as (j & Ej & Hj).
  apply in_seq in Hj. apply (H j i); [lia|]. congruence.
Qed.

Lemma window_turn_divides (w : list bool) (n j k : nat) :
  (n mod length w = 0)%nat ->
  window (turn w n j) n k = turn w n (j + k).
Proof.
  intro H. apply Nat.Div0.div_exact in H.
  rewrite (Nat.mul_comm (length w)) in H. rewrite H. apply window_turn.
Qed.

Lemma progress_le (word word1 : list bool) (i : nat) :
  length word1 = length word -> firstn i word1 = firstn i word ->
  progress word i <= bits_value word1.
Proof.
  intros Hlen Hf. unfold progress. rewrite <- Hf, <- Hlen.
  rewrite <- (firstn_skipn i word1) at 3.
  rewrite !bits_value_app, repeat_length, length_skipn.
  replace (bits_value (repeat false (length word1 - i))) with 0.
  - lia.
  - rewrite <- (app_nil_r (repeat false _)). symmetry.
    apply bits_value_zeros.
Qed.

Lemma firstn_turn (word : list bool) (i : nat) :
  (1 <= i <= length word)%nat ->
  firstn i (turn (firstn i word) (length word) 0) = firstn i word.
Proof.
  intro Hi. apply (nth_ext _ _ false false).
  - rewrite !length_firstn, turn_length. reflexivity.
  - intros k Hk. rewrite length_firstn, turn_length in Hk.
    rewrite !nth_firstn. destruct (Nat.ltb_spec k i) as [Hki|]; [|lia].
    rewrite turn_nth by lia. cbn [Nat.add]. rewrite power_low.
    + rewrite nth_firstn. destruct (Nat.ltb_spec k i); [reflexivity|lia].
    + rewrite length_firstn. lia.
Qed.

(** The turns the passes have put out so far are all different, and each
    has a turn below the word of the current pass. *)
Lemma turns_step (n : nat) (word : list bool) (i : nat)
  (R : list (list bool)) :
  length word = n -> (1 <= i <= n)%nat -> lyndon (firstn i word) ->
  NoDup R ->
  (forall r, In r R ->
     length r = n /\ exists k, bits_value (window r n k) < progress word i) ->
  let w := firstn i word in
  let R1 := if (n mod i =? 0)%nat then R ++ map (turn w n) (seq 0 i) else R in
  NoDup R1 /\
  (forall r, In r R1 ->
     length r = n /\
     exists k, bits_value (window r n k) <= bits_value (turn w n 0)).
Proof.
  intros Hlen Hi HL HR Hbelow w R1.
  assert (Hw : length w = i) by (apply firstn_length_le'; lia).
  assert (Hle : progress word i <= bits_value (turn w n 0)).
  { apply progress_le; [rewrite turn_length; lia|].
    unfold w. rewrite <- Hlen. apply firstn_turn. lia. }
  assert (Hold : forall r, In r R ->
            length r = n /\
            exists k, bits_value (window r n k) <= bits_value (turn w n 0)).
  { intros r Hr. destruct (Hbelow r Hr) as (Hl & k & Hk).
    split; [exact Hl|]. exists k. lia. }
  unfold R1. destruct (Nat.eqb_spec (n mod i) 0) as [Hdiv|Hdiv];
    [|now split].
  rewrite <- Hw in Hdiv. split.
  - apply NoDup_app; [exact HR| |].
    + apply NoDup_map_seq. intros j1 j2 Hj.
      apply lyndon_turns_differ; [exact HL|lia|lia].
    + intros r Hr Hin. apply in_map_iff in Hin.
      destruct Hin as (j & <- & Hj).
      destruct (Hbelow _ Hr) as (_ & k & Hk).
      rewrite window_turn_divides in Hk by exact Hdiv.
      pose proof (lyndon_least_turn w n (j + k) HL). lia.
  - intros r Hr. apply in_app_or in Hr. destruct Hr as [Hr|Hr];
      [now apply Hold|].
    apply in_map_iff in Hr. destruct Hr as (j & <- & Hj).
    apply in_seq in Hj. split; [apply turn_length|].
    exists (i - j)%nat. rewrite window_turn_divides by exact Hdiv.
    replace (j + (i - j))%nat with (length w + 0)%nat by lia.
    rewrite turn_period. lia.
Qed.

(** *** The windows of a cyclic word *)

Lemma window_length (sd : list bool) (k i : nat) : length (window sd k i) = k.
Proof. unfold window. now rewrite length_map, length_seq. Qed.

Lemma window_nth (sd : list bool) (k i t : nat) :
  (t < k)%nat ->
  nth t (window sd k i) false = nth ((i + t) mod length sd) sd false.
Proof.
  intro H. unfold window.
  rewrite (nth_indep _ false (nth ((i + 0) mod length sd) sd false))
    by now rewrite length_map, length_seq.
  rewrite (map_nth (fun j => nth ((i + j) mod length sd) sd false)).
  now rewrite seq_nth by assumption.
Qed.

(** A window of a window of the whole cyclic word is a window of it. *)
Lemma window_window (r : list bool) (k1 k2 : nat) :
  window (window r (length r) k1) (length r) k2 =
  window r (length r) (k1 + k2).
Proof.
  set (n := length r). unfold window at 1. rewrite window_length.
  unfold window at 2. apply map_ext_in. intros t Ht. apply in_seq in Ht.
  destruct (Nat.eq_dec n 0) as [E|E]; [lia|].
  rewrite window_nth by (apply Nat.mod_upper_bound; exact E).
  fold n. f_equal. rewrite Nat.Div0.add_mod_idemp_r. f_equal. lia.
Qed.

Lemma window_whole (r : list bool) (c : nat) :
  window r (length r) (c * length r) = r.
Proof.
  apply (nth_ext _ _ false false); [apply window_length|].
  intros t Ht. rewrite window_length in Ht. rewrite window_nth by exact Ht.
  f_equal. rewrite Nat.add_comm, Nat.Div0.mod_add. now apply Nat.mod_small.
Qed.

(** Every word is a window of each of its windows. *)
Lemma window_back (r : list bool) (k : nat) :
  exists k', window (window r (length r) k) (length r) k' = r.
Proof.
  destruct (Nat.eq_dec (length r) 0) as [E|E].
  { exists 0%nat. destruct r; [reflexivity|discriminate E]. }
  exists (length r - k mod length r)%nat.
  rewrite window_window.
  pose proof (Nat.mod_upper_bound k (length r) E) as Hk.
  replace (k + (length r - k mod length r))%nat
    with ((k / length r + 1) * length r)%nat.
  - apply window_whole.
  - rewrite (Nat.div_mod_eq k (length r)) at 2. lia.
Qed.

Lemma window_window_n (r : list bool) (n k1 k2 : nat) :
  length r = n -> window (window r n k1) n k2 = window r n (k1 + k2).
Proof. intros <-. apply window_window. Qed.

Lemma window_back_n (r : list bool) (n k : nat) :
  length r = n -> exists k', window (window r n k) n k' = r.
Proof. intros <-. apply window_back. Qed.

Lemma list_as_map (u : list bool) :
  u = map (fun t => nth t u false) (seq 0 (length u)).
Proof.
  apply (nth_ext _ _ false false).
  - now rewrite length_map, length_seq.
  - intros t Ht. set (f := fun t => nth t u false).
    change (nth t u false) with (f t).
    rewrite (nth_indep (map f _) false (f 0%nat))
      by now rewrite length_map, length_seq.
    rewrite (map_nth f). now rewrite seq_nth.
Qed.

Lemma bits_value_lt_lists (a b : list bool) (t0 : nat) :
  length a = length b -> (t0 < length a)%nat ->
  (forall t, (t < t0)%nat -> nth t a false = nth t b false) ->
  nth t0 a false = false -> nth t0 b false = true ->
  bits_value a < bits_value b.
Proof.
  intros Hl Ht0 Hag Ha Hb.
  rewrite (list_as_map a), (list_as_map b), <- Hl.
  now apply (bits_value_first_diff _ _ _ t0).
Qed.

Lemma lists_differ (a b : list bool) :
  length a = length b -> a <> b ->
  exists t0, (t0 < length a)%nat /\
    (forall t, (t < t0)%nat -> nth t a false = nth t b false) /\
    nth t0 a false <> nth t0 b false.
Proof.
  intros Hl Hne. destruct (length a) as [|n] eqn:En.
  { exfalso. apply Hne. destruct a, b; try discriminate. reflexivity. }
  destruct (first_difference (fun t => nth t a false)
              (fun t => nth t b false) n)
    as [Hall|(t0 & Ht0 & Hag & Hd)].
  - exfalso. apply Hne. apply (nth_ext _ _ false false); [congruence|].
    intros t Ht. apply Hall. lia.
  - exists t0. split; [lia|]. now split.
Qed.

Lemma padded_nth (w : list bool) (m t : nat) :
  nth t (w ++ repeat false m) false = nth t w false.
Proof.
  destruct (Nat.lt_ge_cases t (length w)) as [H|H].
  - now rewrite app_nth1.
  - rewrite app_nth2 by exact H. rewrite (nth_overflow w) by exact H.
    destruct (Nat.lt_ge_cases (t - length w) m) as [H'|H'].
    + now rewrite nth_repeat_lt.
    + apply nth_overflow. now rewrite repeat_length.
Qed.

(** A word between a Lyndon word followed by zeros and the repeated
    Lyndon word is the latter, or has a window below the former. *)
Lemma between_turns (w u : list bool) (n : nat) :
  length u = n -> (1 <= length w <= n)%nat ->
  bits_value (w ++ repeat false (n - length w)) <= bits_value u ->
  bits_value u <= bits_value (turn w n 0) ->
  u = turn w n 0 \/
  exists k, bits_value (window u n k) <
            bits_value (w ++ repeat false (n - length w)).
Proof.
  intros Hu Hw Hlo Hhi. set (i := length w) in *.
  destruct (list_eq_dec bool_dec u (turn w n 0)) as [E|E]; [now left|right].
  destruct (lists_differ u (turn w n 0)) as (p & Hp & Hag & Hd);
    [now rewrite turn_length|exact E|].
  rewrite Hu in Hp.
  assert (Hturn : forall t, (t < n)%nat -> nth t (turn w n 0) false = power w t).
  { intros t Ht. now rewrite turn_nth. }
  rewrite Hturn in Hd by exact Hp.
  assert (H01 : nth p u false = false /\ power w p = true).
  { destruct (nth p u false) eqn:Eu, (power w p) eqn:Ex;
      try (now split); try (exfalso; now apply Hd).
    exfalso.
    assert (bits_value (turn w n 0) < bits_value u); [|lia].
    apply (bits_value_lt_lists _ _ p).
    - now rewrite turn_length.
    - now rewrite turn_length.
    - intros t Ht. symmetry. now apply Hag.
    - now rewrite Hturn.
    - exact Eu. }
  destruct H01 as [Eu Ex]. clear Hd.
  assert (Hlenpad : length (w ++ repeat false (n - i)) = n).
  { rewrite length_app, repeat_length. fold i. lia. }
  assert (Hpi : (i <= p)%nat).
  { destruct (Nat.lt_ge_cases p i) as [Hlt|]; [exfalso|assumption].
    assert (bits_value u < bits_value (w ++ repeat false (n - i))); [|lia].
    apply (bits_value_lt_lists _ _ p).
    - congruence.
    - lia.
    - intros t Ht. rewrite Hag by exact Ht. rewrite Hturn by lia.
      rewrite padded_nth. apply power_low. fold i. lia.
    - exact Eu.
    - rewrite padded_nth, <- power_low by (fold i; lia). exact Ex. }
  assert (Hi0 : i <> 0%nat) by lia.
  pose proof (Nat.div_mod_eq p i) as Edm.
  pose proof (Nat.mod_upper_bound p i Hi0) as Hq.
  set (c := (p / i)%nat) in *. set (q := (p mod i)%nat) in *.
  exists (i * c)%nat.
  apply (bits_value_lt_lists _ _ q).
  - now rewrite window_length.
  - rewrite window_length. lia.
  - intros t Ht. rewrite window_nth by lia. rewrite Hu.
    rewrite Nat.mod_small by lia. rewrite Hag by lia.
    rewrite Hturn by lia. rewrite padded_nth.
    rewrite <- power_low by (fold i; lia).
    rewrite (Nat.mul_comm i c). apply power_periods.
  - rewrite window_nth by lia. rewrite Hu, Nat.mod_small by lia.
    now rewrite <- Edm.
  - rewrite padded_nth, <- power_low by (fold i; lia).
    rewrite <- Ex. symmetry. rewrite Edm at 1.
    rewrite (Nat.mul_comm i c). apply power_periods.
Qed.

(** When the period does not divide the length, the repeated Lyndon word
    has a window below the Lyndon word followed by zeros. *)
Lemma broken_turn (w : list bool) (n : nat) :
  lyndon w -> (1 <= length w <= n)%nat -> (n mod length w <> 0)%nat ->
  exists k, bits_value (window (turn w n 0) n k) <
            bits_value (w ++ repeat false (n - length w)).
Proof.
  intros HL Hw Hdiv. set (i := length w) in *.
  assert (Hi0 : i <> 0%nat) by lia.
  pose proof (Nat.div_mod_eq n i) as Edm.
  pose proof (Nat.mod_upper_bound n i Hi0) as Hd.
  set (c := (n / i)%nat) in *. set (d := (n mod i)%nat) in *.
  destruct (HL d ltac:(fold i; lia)) as (p & Hp & Hag & H0 & H1).
  fold i in Hp.
  assert (Hturn : forall t, (t < n)%nat -> nth t (turn w n 0) false = power w t).
  { intros t Ht. now rewrite turn_nth. }
  exists (i * c)%nat.
  assert (Hwin : forall t, (t < n)%nat ->
            nth t (window (turn w n 0) n (i * c)) false =
            if (t <? d)%nat then power w t else power w (t - d)).
  { intros t Ht. rewrite window_nth by exact Ht. rewrite turn_length.
    destruct (Nat.ltb_spec t d) as [Htd|Htd].
    - rewrite Nat.mod_small by lia. rewrite Hturn by lia.
      rewrite (Nat.mul_comm i c). apply power_periods.
    - replace (i * c + t)%nat with (t - d + 1 * n)%nat by lia.
      rewrite Nat.Div0.mod_add, Nat.mod_small by lia. apply Hturn. lia. }
  apply (bits_value_lt_lists _ _ (d + p)).
  - rewrite window_length, length_app, repeat_length. fold i. lia.
  - rewrite window_length. lia.
  - intros t Ht. rewrite Hwin by lia. rewrite padded_nth.
    destruct (Nat.ltb_spec t d) as [Htd|Htd].
    + apply power_low. fold i. lia.
    + rewrite power_low by (fold i; lia).
      replace t with (d + (t - d))%nat at 2 by lia.
      symmetry. apply Hag. lia.
  - rewrite Hwin by lia. destruct (Nat.ltb_spec (d + p) d); [lia|].
    replace (d + p - d)%nat with p by lia.
    rewrite power_low by (fold i; lia). exact H0.
  - rewrite padded_nth. exact H1.
Qed.

(** *** The end of a pass *)

Lemma strip_ones_tail (word : list bool) (k : nat) :
  (k <= length word)%nat ->
  forall i1, strip_ones word k = Ok i1 ->
    forall t, (i1 <= t < k)%nat -> nth t word false = true.
Proof.
  induction k as [|k IH]; intros Hk i1 H t Ht; [lia|].
  cbn [strip_ones] in H. rewrite (get_item_ok word k false) in H by lia.
  cbn [rbind] in H. destruct (nth k word false) eqn:E.
  - destruct (Nat.eq_dec t k) as [->|Hne]; [exact E|].
    apply (IH ltac:(lia) i1 H). lia.
  - inversion H; subst i1. lia.
Qed.

Lemma bits_value_ones (m : nat) :
  bits_value (repeat true m) = 2 ^ N.of_nat m - 1.
Proof.
  induction m as [|m IH]; [reflexivity|].
  replace (repeat true (S m)) with (repeat true m ++ [true])
    by (rewrite <- repeat_cons; reflexivity).
  rewrite bits_value_snoc, IH, Nat2N.inj_succ, N.pow_succ_r'.
  cbn [N.b2n]. assert (0 < 2 ^ N.of_nat m) by (apply N.neq_0_lt_0, N.pow_nonzero; lia).
  lia.
Qed.

Lemma all_true_repeat (l : list bool) :
  (forall t, (t < length l)%nat -> nth t l false = true) ->
  l = repeat true (length l).
Proof.
  intro H. apply (nth_ext _ _ false false); [now rewrite repeat_length|].
  intros t Ht. rewrite H by exact Ht. symmetry.
  rewrite (nth_indep _ false true) by now rewrite repeat_length.
  apply nth_repeat.
Qed.

Lemma bar_next (word1 : list bool) (i1 : nat) :
  strip_ones word1 (length word1) = Ok i1 ->
  bar (match i1 with
       | O => word1
       | S k => firstn k word1 ++ true :: skipn (S k) word1
       end) i1 = bits_value word1 + 1.
Proof.
  intro H.
  pose proof (strip_ones_tail word1 (length word1) (Nat.le_refl _) i1 H)
    as Htail.
  destruct (strip_ones_ok word1 (length word1) (Nat.le_refl _))
    as (i1' & H' & Hle & Hz).
  rewrite H in H'. inversion H'; subst i1'. clear H'.
  destruct i1 as [|k]; cbn [bar].
  - rewrite (all_true_repeat word1) at 2 by (intros; apply Htail; lia).
    rewrite bits_value_ones.
    assert (0 < 2 ^ N.of_nat (length word1))
      by (apply N.neq_0_lt_0, N.pow_nonzero; lia).
    lia.
  - specialize (Hz ltac:(lia)). replace (S k - 1)%nat with k in Hz by lia.
    set (m := (length word1 - S k)%nat).
    assert (Hsk : skipn (S k) word1 = repeat true m).
    { rewrite (all_true_repeat (skipn (S k) word1)).
      - now rewrite length_skipn.
      - intros t Ht. rewrite length_skipn in Ht. rewrite nth_skipn.
        apply Htail. lia. }
    assert (Hw1 : word1 = firstn k word1 ++ false :: repeat true m).
    { rewrite <- Hsk. rewrite <- (firstn_skipn k word1) at 1. f_equal.
      rewrite <- (firstn_skipn 1 (skipn k word1)). rewrite skipn_skipn.
      replace (1 + k)%nat with (S k) by lia. f_equal.
      destruct (skipn k word1) as [|b tl] eqn:E.
      - apply (f_equal (@length bool)) in E. rewrite length_skipn in E.
        cbn in E. lia.
      - pose proof (nth_skipn k word1 0 true) as Hn.
        rewrite E, Nat.add_0_r, Hz in Hn. cbn [nth] in Hn. subst b.
        reflexivity. }
    unfold progress. rewrite set_item_length by lia.
    replace (firstn (S k) (firstn k word1 ++ true :: skipn (S k) word1))
      with (firstn k word1 ++ [true]).
    2:{ rewrite firstn_app, firstn_firstn, length_firstn.
        rewrite (Nat.min_l k) by lia. rewrite Nat.min_r by lia.
        replace (S k - k)%nat with 1%nat by lia. reflexivity. }
    fold m. rewrite Hw1 at 2.
    change (false :: repeat true m) with ([false] ++ repeat true m).
    rewrite !app_assoc, !bits_value_app, !repeat_length.
    rewrite bits_value_ones.
    change (bits_value [false]) with 0. change (bits_value [true]) with 1.
    change (2 ^ N.of_nat (length [false])) with 2.
    change (2 ^ N.of_nat (length [true])) with 2.
    replace (bits_value (repeat false m)) with 0.
    2:{ rewrite <- (app_nil_r (repeat false _)). symmetry.
        apply bits_value_zeros. }
    cbn [N.b2n].
    assert (0 < 2 ^ N.of_nat m) by (apply N.neq_0_lt_0, N.pow_nonzero; lia).
    lia.
Qed.

Lemma turn_mod (w : list bool) (n j : nat) :
  turn w n (j mod length w) = turn w n j.
Proof.
  unfold turn. apply map_ext. intro t. apply power_congr.
  now rewrite Nat.Div0.add_mod_idemp_l.
Qed.

Lemma turn_heads (w : list bool) (n : nat) :
  (1 <= n)%nat ->
  map (hd false) (map (turn w n) (seq 0 (length w))) = w.
Proof.
  intro Hn. rewrite map_map. apply (nth_ext _ _ false false).
  - now rewrite length_map, length_seq.
  - intros j Hj. rewrite length_map, length_seq in Hj.
    set (f := fun x => hd false (turn w n x)).
    rewrite (nth_indep (map f _) false (f 0%nat))
      by now rewrite length_map, length_seq.
    rewrite (map_nth f), seq_nth by exact Hj. unfold f. cbn [Nat.add].
    destruct n as [|n]; [lia|]. unfold turn. cbn [seq map hd].
    rewrite Nat.add_0_r. now apply power_low.
Qed.

(** After a pass, the turns put out are exactly the words that have a
    window up to the repeated word of the pass. *)
Lemma all_turns_step (n : nat) (word : list bool) (i : nat)
  (R : list (list bool)) :
  length word = n -> (1 <= i <= n)%nat -> lyndon (firstn i word) ->
  NoDup R ->
  (forall r, In r R ->
     length r = n /\ exists k, bits_value (window r n k) < progress word i) ->
  (forall r, length r = n ->
     (exists k, bits_value (window r n k) < progress word i) -> In r R) ->
  let w := firstn i word in
  let R1 := if (n mod i =? 0)%nat then R ++ map (turn w n) (seq 0 i) else R in
  NoDup R1 /\
  (forall r, In r R1 ->
     length r = n /\
     exists k, bits_value (window r n k) <= bits_value (turn w n 0)) /\
  (forall r, length r = n ->
     (exists k, bits_value (window r n k) <= bits_value (turn w n 0)) ->
     In r R1) /\
  map (hd false) R1 =
  map (hd false) R ++ (if (n mod i =? 0)%nat then w else []).
Proof.
  intros Hlen Hi HL HR Hbelow Hcov w R1.
  destruct (turns_step n word i R Hlen Hi HL HR Hbelow) as [HN HB].
  fold w in HN, HB. fold R1 in HN, HB.
  assert (Hw : length w = i) by (apply firstn_length_le'; lia).
  split; [exact HN|]. split; [exact HB|]. split.
  - intros r Hr (k & Hk).
    assert (Hin : In r R -> In r R1).
    { unfold R1. destruct (n mod i =? 0)%nat; [|easy].
      intro H. apply in_or_app. now left. }
    assert (Hpr : progress word i =
                  bits_value (w ++ repeat false (n - length w))).
    { unfold progress. now rewrite Hlen, Hw. }
    destruct (N.lt_ge_cases (bits_value (window r n k)) (progress word i))
      as [Hlt|Hge].
    { apply Hin, Hcov; [exact Hr|]. now exists k. }
    destruct (between_turns w (window r n k) n) as [E|(k2 & Hk2)].
    + apply window_length.
    + lia.
    + now rewrite <- Hpr.
    + exact Hk.
    + destruct (Nat.eqb_spec (n mod i) 0) as [Hdiv|Hdiv].
      * unfold R1. destruct (Nat.eqb_spec (n mod i) 0); [|contradiction].
        apply in_or_app. right.
        destruct (window_back_n r n k Hr) as [k' Hk'].
        rewrite E in Hk'. rewrite window_turn_divides in Hk'
          by now rewrite Hw.
        rewrite <- Hk'. rewrite <- turn_mod. apply in_map, in_seq.
        rewrite Hw. pose proof (Nat.mod_upper_bound (0 + k') i). lia.
      * apply Hin, Hcov; [exact Hr|].
        destruct (broken_turn w n HL ltac:(lia) ltac:(now rewrite Hw))
          as (k2 & Hk2).
        rewrite <- E, <- Hpr in Hk2.
        exists (k + k2)%nat. rewrite <- window_window_n by exact Hr.
        exact Hk2.
    + apply Hin, Hcov; [exact Hr|]. rewrite <- Hpr in Hk2.
      exists (k + k2)%nat. rewrite <- window_window_n by exact Hr.
      exact Hk2.
  - unfold R1. destruct (n mod i =? 0)%nat; [|now rewrite app_nil_r].
    rewrite map_app. f_equal. rewrite <- Hw. apply turn_heads. lia.
Qed.

Lemma loop_all_turns (n : nat) :
  (1 <= n)%nat ->
  forall fuel sq word i out (R : list (list bool)),
    length word = n -> (i <= n)%nat ->
    ((1 <= i)%nat -> lyndon (firstn i word)) ->
    NoDup R ->
    (forall r, In r R ->
       length r = n /\ exists k, bits_value (window r n k) < bar word i) ->
    (forall r, length r = n ->
       (exists k, bits_value (window r n k) < bar word i) -> In r R) ->
    sq = map (hd false) R ->
    debruijn_loop fuel n sq word i = Ok out ->
    exists R' : list (list bool),
      NoDup R' /\ (forall r, In r R' <-> length r = n) /\
      out = map (hd false) R'.
Proof.
  intros Hn.
  assert (Hend : forall sq word out (R : list (list bool)),
            length word = n -> NoDup R ->
            (forall r, In r R ->
               length r = n /\
               exists k, bits_value (window r n k) < bar word 0) ->
            (forall r, length r = n ->
               (exists k, bits_value (window r n k) < bar word 0) ->
               In r R) ->
            sq = map (hd false) R -> Ok sq = Ok out ->
            exists R' : list (list bool),
              NoDup R' /\ (forall r, In r R' <-> length r = n) /\
              out = map (hd false) R').
  { intros sq word out R Hlen HR Hbelow Hcov Hsq H. inversion H; subst out.
    exists R. split; [exact HR|]. split; [|exact Hsq].
    intro r. split; [intro Hr; now apply Hbelow|]. intro Hr.
    apply Hcov; [exact Hr|]. exists 0%nat. cbn [bar]. rewrite Hlen.
    rewrite <- (window_length r n 0) at 2. apply bits_value_lt. }
  induction fuel as [|fuel IH];
    intros sq word i out R Hlen Hi HL HR Hbelow Hcov Hsq H.
  - destruct i; [|discriminate H]. now apply (Hend sq word out R).
  - destruct i as [|i']; [now apply (Hend sq word out R)|].
    cbn [debruijn_loop] in H. cbn [bar] in Hbelow, Hcov.
    set (i := S i') in *. set (w := firstn i word).
    assert (Hw : length w = i) by (apply firstn_length_le'; lia).
    replace (n - i)%nat with (length word - i)%nat in H by lia.
    rewrite copy_period_turn in H by lia. cbn [rbind] in H.
    fold w in H. rewrite Hlen in H.
    set (word1 := turn w n 0) in *.
    assert (Hl1 : length word1 = n) by apply turn_length.
    destruct (all_turns_step n word i R Hlen ltac:(lia) (HL ltac:(lia)) HR
                Hbelow Hcov) as (HR1 & Hbelow1 & Hcov1 & Hheads).
    fold w in HR1, Hbelow1, Hcov1, Hheads.
    fold word1 in Hbelow1, Hcov1.
    set (R1 := if (n mod i =? 0)%nat then R ++ map (turn w n) (seq 0 i)
               else R) in *.
    set (seq1 := if (n mod i =? 0)%nat then sq ++ firstn i word else sq)
      in *.
    assert (Hseq1 : seq1 = map (hd false) R1).
    { rewrite Hheads. unfold seq1. fold w. rewrite Hsq.
      destruct (n mod i =? 0)%nat; [reflexivity|now rewrite app_nil_r]. }
    destruct (strip_ones_ok word1 n ltac:(lia)) as (i1 & Hso & Hle & Hz).
    rewrite Hso in H. cbn [rbind] in H.
    pose proof (bar_next word1 i1) as Hbar. rewrite Hl1 in Hbar.
    specialize (Hbar Hso).
    assert (Hstep : exists word2,
              match i1 with
              | O => Ok word1
              | S k => set_item word1 k true
              end = Ok word2 /\ length word2 = n /\
              bar word2 i1 = bits_value word1 + 1 /\
              ((1 <= i1)%nat -> lyndon (firstn i1 word2))).
    { destruct i1 as [|k].
      - exists word1. split; [reflexivity|]. split; [exact Hl1|].
        split; [exact Hbar|]. lia.
      - rewrite set_item_ok by lia. eexists. split; [reflexivity|].
        split; [rewrite set_item_length; lia|]. split; [exact Hbar|].
        intros _. specialize (Hz ltac:(lia)).
        replace (S k - 1)%nat with k in Hz by lia.
        replace (firstn (S k) (firstn k word1 ++ true :: skipn (S k) word1))
          with (raised w (S k)).
        { apply lyndon_step; [apply HL; lia|lia|].
          replace (S k - 1)%nat with k by lia.
          change (power w k) with (power w (0 + k)).
          rewrite <- (turn_nth w n 0 k) by lia. fold word1.
          rewrite (nth_indep _ false true) by lia. exact Hz. }
        unfold raised. replace (S k - 1)%nat with k by lia.
        rewrite firstn_app, firstn_firstn, length_firstn.
        rewrite (Nat.min_l k) by lia. rewrite Nat.min_r by lia.
        replace (S k - k)%nat with 1%nat by lia.
        change (firstn 1 (true :: skipn (S k) word1)) with [true]. f_equal.
        apply (nth_ext _ _ false false).
        + rewrite length_map, length_seq, length_firstn. lia.
        + intros t Ht. rewrite length_map, length_seq in Ht.
          rewrite nth_firstn. destruct (Nat.ltb_spec t k); [|lia].
          rewrite (nth_indep _ false (power w 0))
            by now rewrite length_map, length_seq.
          rewrite map_nth, seq_nth by lia. unfold word1.
          rewrite turn_nth by lia. reflexivity. }
    destruct Hstep as (word2 & Hw2 & Hl2 & Hbar2 & HL2).
    rewrite Hw2 in H. cbn [rbind] in H.
    apply (IH _ _ _ _ R1) in H; [exact H|exact Hl2|lia|exact HL2|exact HR1| |
                                 |exact Hseq1].
    + intros r Hr. destruct (Hbelow1 r Hr) as (Hlr & k0 & Hk0).
      split; [exact Hlr|]. exists k0. rewrite Hbar2. lia.
    + intros r Hr (k0 & Hk0). apply Hcov1; [exact Hr|]. exists k0.
      rewrite Hbar2 in Hk0. lia.
Qed.

Lemma all_words_in (k : nat) (w : list bool) :
  In w (all_words k) -> length w = k.
Proof.
  revert w. induction k as [|k IH]; intros w H.
  - destruct H as [<-|[]]. reflexivity.
  - cbn [all_words] in H. apply in_app_or in H.
    destruct H as [H|H]; apply in_map_iff in H;
      destruct H as (x & <- & Hx); cbn [length]; f_equal; now apply IH.
Qed.

Lemma NoDup_map_cons (b : bool) (l : list (list bool)) :
  NoDup l -> NoDup (map (cons b) l).
Proof.
  induction 1 as [|x l Hx _ IH]; cbn [map]; constructor; [|exact IH].
  intro H. apply in_map_iff in H. destruct H as (y & E & Hy).
  inversion E; subst y. contradiction.
Qed.

Lemma all_words_nodup (k : nat) : NoDup (all_words k).
Proof.
  induction k as [|k IH]; [repeat constructor; easy|].
  cbn [all_words]. apply NoDup_app.
  - now apply NoDup_map_cons.
  - now apply NoDup_map_cons.
  - intros w H1 H2. apply in_map_iff in H1, H2.
    destruct H1 as (x & <- & _), H2 as (y & E & _). discriminate E.
Qed.

Lemma all_words_heads (k : nat) :
  count_occ bool_dec (map (hd false) (all_words (S k))) true = (2 ^ k)%nat.
Proof.
  cbn [all_words]. rewrite map_app, !map_map. cbn [hd].
  rewrite count_occ_app.
  replace (count_occ bool_dec (map (fun _ => false) (all_words k)) true)
    with 0%nat.
  - replace (count_occ bool_dec (map (fun _ => true) (all_words k)) true)
      with (length (all_words k)).
    + now rewrite all_words_length.
    + induction (all_words k) as [|x l IH]; [reflexivity|].
      cbn [map length count_occ]. destruct (bool_dec true true); [|easy].
      now rewrite IH.
  - induction (all_words k) as [|x l IH]; [reflexivity|].
    cbn [map count_occ]. destruct (bool_dec false true); [discriminate|].
    exact IH.
Qed.

(** The sequence [debruijn] returns consists of the first letters of all
    the words of [order] letters, each taken once. *)
Lemma debruijn_turns (order : nat) (out : list bool) :
  (1 <= order)%nat -> debruijn order = Ok out ->
  exists R' : list (list bool),
    Permutation R' (all_words order) /\ out = map (hd false) R'.
Proof.
  intros Hn H. unfold debruijn in H.
  apply (loop_all_turns order Hn _ _ _ _ _ []) in H.
  - destruct H as (R' & HN & Hin & ->). exists R'. split; [|reflexivity].
    apply NoDup_Permutation; [exact HN|apply all_words_nodup|].
    intro r. rewrite Hin. split; [apply all_words_complete|apply all_words_in].
  - apply repeat_length.
  - lia.
  - intros _ d Hd. destruct order; cbn [repeat firstn length] in Hd; lia.
  - constructor.
  - intros r [].
  - intros r Hr (k & Hk). exfalso. cbn [bar] in Hk. unfold progress in Hk.
    rewrite repeat_length in Hk.
    replace (firstn 1 (repeat false order) ++ repeat false (order - 1))
      with (repeat false order ++ []) in Hk.
    + rewrite bits_value_zeros in Hk. cbn in Hk. lia.
    + rewrite app_nil_r. destruct order; [lia|].
      replace (S order - 1)%nat with order by lia. reflexivity.
  - reflexivity.
Qed.

Lemma debruijn_balanced (order : nat) (out : list bool) :
  (1 <= order)%nat -> debruijn order = Ok out ->
  length out = (2 ^ order)%nat /\
  count_occ bool_dec out true = (2 ^ (order - 1))%nat.
Proof.
  intros Hn H. destruct (debruijn_turns order out Hn H) as (R' & HP & ->).
  split.
  - rewrite length_map, (Permutation_length HP). apply all_words_length.
  - apply (Permutation_map (hd false)) in HP.
    rewrite (proj1 (Permutation_count_occ bool_dec _ _) HP).
    destruct order as [|k]; [lia|]. rewrite all_words_heads.
    f_equal. lia.
Qed.

(** The sequence [debruijn] returns has at most [2^order] bits. *)
Lemma debruijn_length (order : nat) (out : list bool) :
  debruijn order = Ok out -> (length out <= 2 ^ order)%nat.
Proof.
  intro H. destruct order as [|k].
  { inversion H. cbn. lia. }
  destruct (debruijn_balanced (S k) out ltac:(lia) H) as [-> _]. lia.
Qed.

(** *** The default seeds of [make] *)

Lemma default_seed_fits (k : nat) : seed_fits None k.
Proof.
  destruct (debruijn_total k) as [sd Hsd]. exists sd.
  split; [exact Hsd|]. now apply debruijn_length.
Qed.

Lemma seed_short_fits (seed : option (list bool)) (k : nat) :
  seed_short seed k -> seed_fits seed k.
Proof.
  destruct seed as [sd|]; intro H; [|apply default_seed_fits].
  exists sd. now split.
Qed.

Lemma default_seed_even (k w : nat) :
  (2 <= k <= 10)%nat -> seed_even None k w.
Proof.
  intro H. destruct (debruijn_checked k (default_seeds_checked k ltac:(lia)))
    as (sd & Hsd & [Hlen _] & Hhd & Hcnt).
  exists sd. split; [exact Hsd|]. split; [lia|].
  rewrite Nat.even_mul. apply orb_true_iff. right.
  destruct sd as [|b sd]; [cbn in Hlen; pose proof (Nat.pow_nonzero 2 k); lia|].
  cbn [hd] in Hhd. subst b. cbn [tl]. cbn [count_occ] in Hcnt.
  destruct (bool_dec false true) as [E|_]; [discriminate|].
  rewrite Hcnt. destruct k as [|[|k]]; [lia|lia|].
  replace (S (S k) - 1)%nat with (S k) by lia.
  rewrite Nat.pow_succ_r', Nat.even_mul. reflexivity.
Qed.


(** ** The first line *)

Lemma list_mul_length {A} (l : list A) (k : nat) :
  length (list_mul l k) = (k * length l)%nat.
Proof.
  unfold list_mul. induction k as [|k IH]; cbn [repeat concat]; [reflexivity|].
  rewrite length_app, IH. lia.
Qed.

Lemma accumulate_from_length (acc : bool) (l : list bool) :
  length (accumulate_from acc l) = length l.
Proof.
  revert acc. induction l as [|x l IH]; intro acc; cbn; [reflexivity|].
  now rewrite IH.
Qed.

Lemma accumulate_xor_length (l : list bool) :
  length (accumulate_xor l) = length l.
Proof. destruct l; cbn; [reflexivity|]. now rewrite accumulate_from_length. Qed.

Lemma removelast_length {A} (l : list A) :
  length (removelast l) = (length l - 1)%nat.
Proof.
  induction l as [|x l IH]; [reflexivity|].
  destruct l as [|y l]; [reflexivity|].
  change (removelast (x :: y :: l)) with (x :: removelast (y :: l)).
  cbn [length] in *. lia.
Qed.

Lemma zeros_then_value (k : nat) (l : list bool) (W : nat) :
  (length l <= W)%nat -> bits_value (repeat false k ++ l) < 2 ^ N.of_nat W.
Proof.
  intro H. rewrite bits_value_zeros.
  eapply N.lt_le_trans; [apply bits_value_lt|].
  apply N.pow_le_mono_r; lia.
Qed.

Lemma first_line_fits (MODE : mode) (seed : option (list bool)) (T : Torus)
  (copies : nat) :
  (1 <= s T)%nat -> num_copies_of MODE T = Some copies ->
  match MODE with
  | EVEN => seed_fits seed (n T)
  | ODD => (3 <= n T)%nat -> seed_fits seed (n T - 1)
  end ->
  exists next,
    rbind (first_line MODE seed T) _list_to_num = Ok next /\
    next < 2 ^ N.of_nat (s T * copies).
Proof.
  intros Hs Hc Hseed.
  assert (Hz : forall l, _list_to_num (repeat false (s T) ++ l) =
                         Ok (bits_value (repeat false (s T) ++ l))).
  { intro l. destruct (s T); [lia|reflexivity]. }
  destruct MODE; cbn [num_copies_of first_line] in *.
  - destruct Hseed as (sd & -> & Hlen). cbn [rbind]. rewrite Hz.
    eexists. split; [reflexivity|]. apply zeros_then_value.
    inversion Hc; subst copies. rewrite list_mul_length.
    apply Nat.mul_le_mono_l. destruct sd; cbn [tl length] in *; lia.
  - destruct (n T) as [|k] eqn:En; [discriminate Hc|].
    inversion Hc; subst copies.
    destruct (Nat.eqb_spec (S k) 2) as [E2|E2].
    + cbn [rbind]. rewrite Hz. eexists. split; [reflexivity|].
      apply zeros_then_value. rewrite list_mul_length. cbn [length].
      assert (k = 1)%nat by lia. subst k.
      pose proof (Nat.Div0.mul_div_le (s T) 2).
      change (2 ^ 1)%nat with 2%nat. lia.
    + destruct (Nat.leb_spec 3 (S k)) as [E3|E3].
      * destruct (Hseed E3) as (sd & Hsd & Hlen).
        replace (S k - 1)%nat with k in * by lia. rewrite Hsd.
        cbn [rbind]. rewrite Hz. eexists. split; [reflexivity|].
        apply zeros_then_value.
        rewrite list_mul_length, accumulate_xor_length, removelast_length.
        apply Nat.mul_le_mono_l. lia.
      * cbn [rbind]. assert (Hz0 := Hz []). rewrite app_nil_r in Hz0.
        rewrite Hz0. eexists. split; [reflexivity|].
        rewrite <- (app_nil_r (repeat false (s T))).
        apply zeros_then_value. cbn. lia.
Qed.

Lemma all_ones_pos (w : nat) : (1 <= w)%nat -> all_ones w <> 0.
Proof.
  intro H. unfold all_ones. rewrite N.shiftl_1_l.
  assert (2 ^ 1 <= 2 ^ N.of_nat w) by (apply N.pow_le_mono_r; lia).
  change (2 ^ 1) with 2 in *. lia.
Qed.

Lemma choose_mode_even (T : Torus) : col_sums T = 0 -> choose_mode T = Ok EVEN.
Proof. unfold choose_mode. now intros ->. Qed.

Lemma choose_mode_odd (T : Torus) :
  (1 <= s T)%nat -> col_sums T = all_ones (s T) -> choose_mode T = Ok ODD.
Proof.
  intros Hs H. unfold choose_mode. rewrite H.
  destruct (N.eqb_spec (all_ones (s T)) 0) as [E|_].
  - now apply all_ones_pos in E.
  - unfold all_ones. now rewrite N.eqb_refl.
Qed.

Lemma choose_mode_other (T : Torus) :
  col_sums T <> 0 -> col_sums T <> all_ones (s T) ->
  choose_mode T =
  Raise (ValueError "Column sums must be all even or all odd").
Proof.
  intros H0 H1. unfold choose_mode.
  destruct (N.eqb_spec (col_sums T) 0); [contradiction|].
  fold (all_ones (s T)).
  destruct (N.eqb_spec (col_sums T) (all_ones (s T))); [contradiction|].
  reflexivity.
Qed.

(** What a successful step does, for either construction. *)
Lemma make_run (MODE : mode) (seed : option (list bool)) (T : Torus)
  (copies : nat) (rows : list N) :
  dims_ok T -> stored T rows -> quota T = None ->
  choose_mode T = Ok MODE -> num_copies_of MODE T = Some copies ->
  match MODE with
  | EVEN => seed_fits seed (n T)
  | ODD => (3 <= n T)%nat -> seed_fits seed (n T - 1)
  end ->
  exists next,
    rbind (first_line MODE seed T) _list_to_num = Ok next /\
    next < 2 ^ N.of_nat (s T * copies) /\
    make seed T = (Ok tt, made MODE T copies next rows).
Proof.
  intros Hd Hst Hq Hm Hc Hseed. destruct (dims_ok_pos T Hd) as [Hr Hs].
  destruct (first_line_fits MODE seed T copies Hs Hc Hseed) as (next & Hfl & Hn).
  exists next. split; [assumption|]. split; [assumption|].
  rewrite make_start, Hm, Hfl. cbv zeta. rewrite Hq. now apply make_body_run.
Qed.

(** C1, as the code has it: on a torus in a consistent state, with the
    default seed or a seed of at most [2^order] bits, [make] succeeds with
    dimensions
    [(r, s*2^n; m+1, n)] when the column summary is 0, succeeds with
    dimensions [(2r, s*2^(n-1); m+1, n)] when it is all-ones over [s] bits
    and [n >= 1], and otherwise raises the column-sum [ValueError] and
    leaves the object and its files as they were. *)
Theorem make_by_parity (seed : option (list bool)) (T : Torus) :
  wf T ->
  (col_sums T = 0 -> seed_short seed (n T) ->
   exists T', make seed T = (Ok tt, T') /\
     get_size T' = (r T, s T * 2 ^ n T, m T + 1, n T)%nat) /\
  (col_sums T = all_ones (s T) -> (1 <= n T)%nat ->
   ((3 <= n T)%nat -> seed_short seed (n T - 1)) ->
   exists T', make seed T = (Ok tt, T') /\
     get_size T' = (2 * r T, s T * 2 ^ (n T - 1), m T + 1, n T)%nat) /\
  (col_sums T <> 0 -> col_sums T <> all_ones (s T) ->
   make seed T =
   (Raise (ValueError "Column sums must be all even or all odd"), T)).
Proof.
  intros (Hd & (rows & Hst) & _ & Hq). destruct (dims_ok_pos T Hd) as [Hr Hs].
  split; [|split].
  - intros H0 Hseed.
    destruct (make_run EVEN seed T (2 ^ n T) rows Hd Hst Hq
                (choose_mode_even T H0) eq_refl (seed_short_fits _ _ Hseed))
      as (next & _ & _ & Hrun).
    eexists. split; [exact Hrun|reflexivity].
  - intros H1 Hn Hseed.
    assert (Hc : num_copies_of ODD T = Some (2 ^ (n T - 1))%nat).
    { cbn. destruct (n T) as [|k]; [lia|]. do 2 f_equal. lia. }
    destruct (make_run ODD seed T _ rows Hd Hst Hq
                (choose_mode_odd T Hs H1) Hc
                (fun H3 => seed_short_fits _ _ (Hseed H3)))
      as (next & _ & _ & Hrun).
    eexists. split; [exact Hrun|reflexivity].
  - intros H0 H1. rewrite make_start. now rewrite choose_mode_other.
Qed.

(** ** What [__init__] does *)

Lemma init_sums_run (values : list (list bool)) (T : Torus) :
  Forall (fun row => row <> []) values ->
  for_each values (fun row _ =>
      row_num <- lift (_list_to_num row) ;;
      modify (fun T => set_sums (N.shiftl (row_sums T) 1 + parity row_num)
                                (N.lxor (col_sums T) row_num) T)) tt T =
  (Ok tt,
   set_sums (track_rows (row_sums T) (map bits_value values))
            (track_cols (col_sums T) (map bits_value values)) T).
Proof.
  intro Hall. revert T. induction Hall as [|row values Hne _ IH]; intro T.
  - cbn. now destruct T.
  - cbn [for_each map]. unfold bind at 1. unfold bind at 1.
    destruct row as [|b row]; [contradiction|].
    cbn [lift _list_to_num modify]. rewrite IH. reflexivity.
Qed.

Lemma init_rows_run (row0 : list bool) (rows : list (list bool))
  (m0 n0 : nat) (T0 : Torus) :
  quota T0 = None ->
  (length (row0 :: rows) * length row0 = 2 ^ (m0 * n0))%nat ->
  Forall (fun l => l <> [] /\ (length l <= 8 * _bytes (length row0))%nat)
         (row0 :: rows) ->
  __init__ (row0 :: rows) m0 n0 T0 =
  (Ok tt, initialised (row0 :: rows) (length row0) m0 n0 T0).
Proof.
  intros Hq Hd Hall.
  unfold __init__. unfold bind at 1. unfold modify at 1.
  unfold bind at 1. cbn [lift get_item nth_error].
  unfold bind at 1. unfold modify at 1.
  unfold bind at 1. unfold get at 1.
  cbn [r s m n set_dims].
  unfold bind at 1.
  destruct (Nat.eqb_spec (length (row0 :: rows) * length row0)
              (2 ^ (m0 * n0))); [|contradiction].
  unfold ret at 1. unfold bind at 1. unfold modify at 1.
  unfold bind at 1. rewrite init_sums_run.
  2:{ eapply Forall_impl; [|exact Hall]. cbn beta. now intros row [Hne _]. }
  unfold bind at 1. unfold open_write, device.
  cbn [quota set_sums set_dims]. rewrite Hq.
  unfold bind at 1. unfold get.
  cbn [r s m n set_dims set_sums set_file row_sums col_sums].
  unfold bind. rewrite write_from_array_run; [|exact Hq|exact Hall].
  rewrite close_write_run by exact Hq.
  unfold initialised, store_of. cbn [file set_file app].
  rewrite map_map. reflexivity.
Qed.

Lemma init_run (h w : nat) (values : list (list bool)) (m0 n0 : nat)
  (T0 : Torus) :
  rect h w values -> (h * w = 2 ^ (m0 * n0))%nat -> quota T0 = None ->
  __init__ values m0 n0 T0 = (Ok tt, initialised values w m0 n0 T0).
Proof.
  intros [Hlen Hall] Hd Hq.
  assert (2 ^ (m0 * n0) <> 0)%nat by (apply Nat.pow_nonzero; lia).
  assert (Hh : (1 <= h)%nat) by (destruct h; lia).
  assert (Hw : (1 <= w)%nat) by (destruct w; lia).
  destruct values as [|row0 rows]; [cbn in Hlen; lia|].
  assert (Hw0 : length row0 = w) by now inversion Hall.
  subst w. apply init_rows_run; [exact Hq|now rewrite Hlen|].
  eapply Forall_impl; [|exact Hall]. cbn beta. intros row Hrow.
  pose proof (bytes_bound (length row0)).
  split; [destruct row; [cbn in Hrow; lia|easy]|lia].
Qed.

Lemma initialised_stored (h w : nat) (values : list (list bool))
  (m0 n0 : nat) (T0 : Torus) :
  rect h w values ->
  stored (initialised values w m0 n0 T0) (map bits_value values).
Proof.
  intros [Hlen Hall]. unfold stored, initialised. cbn [r s file].
  split; [apply length_map|]. split; [|reflexivity].
  rewrite Forall_map. eapply Forall_impl; [|exact Hall]. cbn beta.
  intros row <-. apply bits_value_lt.
Qed.

(** A torus built from an [r]-by-[s] matrix with [r * s = 2^(m*n)] is in a
    consistent state, and its store holds exactly [r] packed rows. *)
Lemma init_wf (h w : nat) (values : list (list bool)) (m0 n0 : nat) :
  rect h w values -> (h * w = 2 ^ (m0 * n0))%nat ->
  __init__ values m0 n0 (blank None) = (Ok tt, new_torus values m0 n0 None) /\
  wf (new_torus values m0 n0 None) /\
  length (file (new_torus values m0 n0 None)) = (h * _bytes w)%nat.
Proof.
  intros Hrect Hd. unfold new_torus.
  rewrite (init_run h w values m0 n0 (blank None) Hrect Hd eq_refl).
  cbn [snd]. split; [reflexivity|]. split.
  - split; [|split; [|split]].
    + unfold dims_ok, initialised. cbn [r s m n]. now destruct Hrect as [-> _].
    + eexists. eapply initialised_stored. exact Hrect.
    + reflexivity.
    + reflexivity.
  - unfold initialised, store_of. cbn [file]. destruct Hrect as [<- _].
    rewrite map_map. clear. induction values as [|row values IH];
      [reflexivity|].
    cbn [map concat length]. rewrite length_app, be_bytes_length, IH. lia.
Qed.

Lemma sample_small_wf : wf (new_torus sample_small 2 2 None).
Proof.
  apply (init_wf 4 4); [|reflexivity].
  split; [reflexivity|]. repeat constructor.
Qed.

Lemma sample_large_wf : wf (new_torus sample_large 3 2 None).
Proof.
  apply (init_wf 4 16); [|reflexivity].
  split; [reflexivity|]. repeat constructor.
Qed.

(** ** The constructions at their edge cases *)

Lemma one_row_wf : wf (new_torus one_row 1 1 None).
Proof.
  apply (init_wf 1 2); [|reflexivity]. split; [reflexivity|].
  repeat constructor.
Qed.

Lemma one_column_wf : wf (new_torus one_column 1 1 None).
Proof.
  apply (init_wf 2 1); [|reflexivity]. split; [reflexivity|].
  repeat constructor.
Qed.

Lemma one_bit_wf : wf (new_torus one_bit 1 0 None).
Proof.
  apply (init_wf 1 1); [|reflexivity]. split; [reflexivity|].
  repeat constructor.
Qed.

Lemma make_by_parity_witness :
  let T := new_torus sample_small 2 2 None in
  wf T /\ col_sums T = all_ones (s T) /\
  exists T', make None T = (Ok tt, T') /\
    get_size T' = (2 * r T, s T * 2 ^ (n T - 1), m T + 1, n T)%nat.
Proof.
  intro T. split; [exact sample_small_wf|].
  split; [vm_compute; reflexivity|].
  apply (proj1 (proj2 (make_by_parity None T sample_small_wf))).
  - vm_compute. reflexivity.
  - vm_compute. lia.
  - vm_compute. lia.
Defined.

(** C1 as stated fails: the 1-by-1 torus holding the bit 1, with [n = 0],
    has its single column odd, and the step raises [TypeError]. *)
Lemma make_by_parity_counterexample :
  let T := new_torus one_bit 1 0 None in
  wf T /\ col_sums T = all_ones (s T) /\
  fst (make None T) = Raise TypeError.
Proof. split; [exact one_bit_wf|]. split; vm_compute; reflexivity. Qed.

Lemma transpose_involutive_witness :
  let T := new_torus sample_small 2 2 None in
  exists T1 T2,
    transpose T = (Ok tt, T1) /\ transpose T1 = (Ok tt, T2) /\
    file T2 = file T /\ get_size T2 = get_size T /\ T2 = T.
Proof. apply (transpose_involutive _ sample_small_wf). Defined.

Lemma dimension_invariant_witness :
  dims_ok (snd (make None (new_torus sample_small 2 2 None))).
Proof.
  apply (proj2 (proj2 (proj2 dimension_invariant)) None
           (new_torus sample_small 2 2 None)).
  - vm_compute. reflexivity.
  - vm_compute. reflexivity.
Defined.

(** *** The odd construction with [n < 2] *)

Lemma first_line_odd_small (seed : option (list bool)) (T : Torus) :
  (1 <= s T)%nat -> (n T < 2)%nat ->
  rbind (first_line ODD seed T) _list_to_num = Ok 0.
Proof.
  intros Hs Hn. unfold first_line.
  destruct (Nat.eqb_spec (n T) 2); [lia|].
  destruct (Nat.leb_spec 3 (n T)); [lia|]. cbn [rbind].
  destruct (s T) as [|k]; [lia|]. cbn [repeat _list_to_num]. f_equal.
  change (false :: repeat false k) with (repeat false (S k)).
  rewrite <- (app_nil_r (repeat false (S k))). apply bits_value_zeros.
Qed.

Lemma make_row_float (num_rows row : nat) (v : locals) (T : Torus) :
  make_row num_rows None row v T = (Raise TypeError, T).
Proof.
  unfold make_row, bind, get, _read_to_num, bind, get.
  destruct (read _ _). reflexivity.
Qed.

(** C9, as the code has it: on a torus whose columns are all odd, the
    step with [n = 1] raises no error and succeeds with dimensions
    [(2r, s; m+1, 1)], its first new row being all zeros; with [n = 0] it
    fails with the [TypeError] that [range] raises for the copy count
    [2 ** (n - 1)], which is then not an integer. *)
Theorem make_odd_small_order (seed : option (list bool)) (T : Torus) :
  wf T -> col_sums T = all_ones (s T) ->
  (n T = 1%nat ->
   exists T' rows,
     make seed T = (Ok tt, T') /\
     get_size T' = (2 * r T, s T, m T + 1, 1)%nat /\
     stored T' (0 :: rows)) /\
  (n T = 0%nat -> exists T', make seed T = (Raise TypeError, T')).
Proof.
  intros (Hd & (rows & Hst) & _ & Hq) Hodd.
  destruct (dims_ok_pos T Hd) as [Hr Hs].
  pose proof (choose_mode_odd T Hs Hodd) as Hm. split; intro Hn.
  - assert (Hc : num_copies_of ODD T = Some 1%nat)
      by (cbn; now rewrite Hn).
    destruct (make_run ODD seed T 1 rows Hd Hst Hq Hm Hc) as
      (next & Hfl & Hlt & Hrun); [lia|].
    rewrite first_line_odd_small in Hfl by lia. inversion Hfl; subst next.
    exists (made ODD T 1 0 rows). eexists. split; [exact Hrun|]. split.
    + unfold get_size, made. cbn [r s m n num_rows_of]. rewrite Hn.
      now rewrite Nat.mul_1_r.
    + apply made_stored; try assumption. cbn [num_rows_of]. lia.
  - rewrite make_start, Hm, first_line_odd_small by lia.
    cbv zeta. rewrite Hq. unfold make_body. cbn [num_rows_of num_copies_of]. rewrite Hn.
    replace (2 * r T - 1)%nat with (S (2 * r T - 2)) by lia.
    cbn [seq for_each]. eexists.
    erewrite bind_raise; [reflexivity|].
    erewrite bind_raise; [reflexivity|]. apply make_row_float.
Qed.

Lemma make_odd_small_order_witness :
  let T := new_torus one_column 1 1 None in
  exists T' rows,
    make None T = (Ok tt, T') /\
    get_size T' = (2 * r T, s T, m T + 1, 1)%nat /\
    stored T' (0 :: rows).
Proof.
  intro T.
  apply (proj1 (make_odd_small_order None T one_column_wf
                  ltac:(vm_compute; reflexivity))).
  vm_compute. reflexivity.
Defined.

(** C9 as stated fails: the 2-by-1 torus with the column 1, 0 has its
    column odd and [n = 1 < 2], and the step succeeds, giving the 4-by-1
    torus with the column 0, 1, 1, 0. *)
Lemma make_odd_small_order_counterexample :
  let T := new_torus one_column 1 1 None in
  col_sums T = all_ones (s T) /\ (n T < 2)%nat /\
  fst (make None T) = Ok tt /\
  get_size (snd (make None T)) = (4, 1, 2, 1)%nat /\
  file (snd (make None T)) = [x00; x01; x01; x00].
Proof. vm_compute. repeat split. lia. Qed.

(** *** A torus with a single row *)

(** C10 on the 1-by-2 torus of zeros with [m = n = 1]: the step succeeds
    with dimensions [(1, 4; 2, 1)], the loop has no pass, the buffered
    first row is never written, and the store is left empty instead of
    holding one row of one byte. *)
Theorem make_single_row_store :
  let T := new_torus one_row 1 1 None in
  wf T /\
  exists T',
    make None T = (Ok tt, T') /\
    get_size T' = (1, 4, 2, 1)%nat /\
    file T' = [] /\ ~ store_complete T'.
Proof.
  intro T. split; [exact one_row_wf|]. exists (snd (make None T)).
  split; [vm_compute; reflexivity|]. split; [vm_compute; reflexivity|].
  split; [vm_compute; reflexivity|].
  unfold store_complete. vm_compute. discriminate.
Qed.

(** C6 on the same torus: after the step the object carries the column
    summary 3 (the first row 0011), while the rows read back from the
    empty store recompute to 0. *)
Theorem make_single_row_sums :
  let T := new_torus one_row 1 1 None in
  wf T /\ sums_consistent T /\
  exists T',
    make None T = (Ok tt, T') /\
    col_sums T' = 3 /\ track_cols 0 (stored_rows T') = 0 /\
    ~ sums_consistent T'.
Proof.
  intro T. split; [exact one_row_wf|].
  split; [split; vm_compute; reflexivity|]. exists (snd (make None T)).
  split; [vm_compute; reflexivity|]. split; [vm_compute; reflexivity|].
  split; [vm_compute; reflexivity|].
  intros [_ H]. vm_compute in H. discriminate H.
Qed.

(** ** Counting ones *)

Lemma mod2_odd (k : nat) : (k mod 2 = Nat.b2n (Nat.odd k))%nat.
Proof.
  destruct (Nat.Even_or_Odd k) as [[j ->]|[j ->]].
  - rewrite Nat.mul_comm, Nat.Div0.mod_mul, Nat.odd_mul. cbn.
    now rewrite andb_false_r.
  - rewrite Nat.add_comm, Nat.mul_comm, Nat.Div0.mod_add.
    rewrite Nat.mul_comm, Nat.odd_add_mul_2. reflexivity.
Qed.

Lemma parity_odd (x : N) : parity x = N.b2n (Nat.odd (_popcount x)).
Proof.
  unfold parity. rewrite mod2_odd. now destruct (Nat.odd _).
Qed.

Lemma popcount_bit (x : N) (b : bool) :
  _popcount (2 * x + N.b2n b) = (_popcount x + Nat.b2n b)%nat.
Proof.
  destruct x as [|p].
  - now destruct b.
  - destruct b.
    + change (2 * N.pos p + N.b2n true) with (N.pos p~1).
      unfold _popcount. cbn [bin pos_bin]. now rewrite count_occ_snoc.
    + change (2 * N.pos p + N.b2n false) with (N.pos p~0).
      unfold _popcount. cbn [bin pos_bin]. now rewrite count_occ_snoc.
Qed.

(** The number of ones of the value of a bit string is the number of ones
    of the string. *)
Lemma popcount_bits_value (l : list bool) :
  _popcount (bits_value l) = count_occ bool_dec l true.
Proof.
  induction l as [|b l IH] using rev_ind; [reflexivity|].
  rewrite bits_value_snoc, popcount_bit, IH, count_occ_snoc.
  now destruct b.
Qed.

Lemma popcount_join (k : nat) (a c : N) :
  a < 2 ^ N.of_nat k ->
  _popcount (a + 2 ^ N.of_nat k * c) = (_popcount a + _popcount c)%nat.
Proof.
  revert a. induction k as [|k IH]; intros a Ha.
  - cbn in Ha. assert (a = 0) by lia. subst a.
    cbn [N.of_nat]. rewrite N.pow_0_r, N.mul_1_l. reflexivity.
  - rewrite Nat2N.inj_succ, N.pow_succ_r' in *.
    rewrite (N.div2_odd a) at 1.
    replace (2 * N.div2 a + N.b2n (N.odd a) + 2 * 2 ^ N.of_nat k * c)
      with (2 * (N.div2 a + 2 ^ N.of_nat k * c) + N.b2n (N.odd a)) by lia.
    rewrite popcount_bit, IH.
    + rewrite (N.div2_odd a) at 3. rewrite popcount_bit. lia.
    + pose proof (N.div2_odd a). destruct (N.odd a); cbn [N.b2n] in *; lia.
Qed.

Lemma popcount_shiftl (x : N) (k : nat) :
  _popcount (N.shiftl x (N.of_nat k)) = _popcount x.
Proof.
  rewrite N.shiftl_mul_pow2, N.mul_comm.
  rewrite <- (N.add_0_l (2 ^ N.of_nat k * x)), popcount_join; [reflexivity|].
  apply N.neq_0_lt_0, N.pow_nonzero. lia.
Qed.

Lemma popcount_repeat_pattern (o : N) (w c : nat) :
  o < 2 ^ N.of_nat w -> (1 <= w)%nat ->
  _popcount (repeat_pattern o w c) = (c * _popcount o)%nat.
Proof.
  intros Ho Hw. induction c as [|c IH]; [reflexivity|].
  rewrite repeat_pattern_S, N.shiftl_mul_pow2, N.mul_comm, popcount_join, IH.
  - lia.
  - now apply repeat_pattern_lt.
Qed.

Lemma pos_count_xO (p : positive) :
  _popcount (N.pos p~0) = _popcount (N.pos p).
Proof.
  unfold _popcount. cbn [bin pos_bin]. rewrite count_occ_snoc. lia.
Qed.

Lemma pos_count_xI (p : positive) :
  _popcount (N.pos p~1) = S (_popcount (N.pos p)).
Proof.
  unfold _popcount. cbn [bin pos_bin]. rewrite count_occ_snoc. lia.
Qed.

Lemma popcount_double (x : N) : _popcount (N.double x) = _popcount x.
Proof. destruct x; [reflexivity|apply pos_count_xO]. Qed.

Lemma popcount_succ_double (x : N) :
  _popcount (N.succ_double x) = S (_popcount x).
Proof. destruct x; [reflexivity|apply pos_count_xI]. Qed.

Lemma odd_S (k : nat) : Nat.odd (S k) = negb (Nat.odd k).
Proof. now rewrite Nat.odd_succ, <- Nat.negb_odd. Qed.

Lemma pos_lxor_odd (p q : positive) :
  Nat.odd (_popcount (Pos.lxor p q)) =
  xorb (Nat.odd (_popcount (N.pos p))) (Nat.odd (_popcount (N.pos q))).
Proof.
  revert q. induction p as [p IH|p IH|]; intros [q|q|]; cbn [Pos.lxor];
    rewrite ?popcount_double, ?popcount_succ_double, ?pos_count_xO,
      ?pos_count_xI, ?odd_S, ?IH;
    try (change (_popcount 1) with 1%nat); try (change (_popcount 0) with 0%nat);
    cbn [Nat.odd Nat.even negb];
    repeat match goal with
           | |- context [Nat.odd ?x] => destruct (Nat.odd x)
           end; reflexivity.
Qed.

(** The parity of the ones of an XOR is the XOR of the parities. *)
Lemma popcount_lxor_odd (a c : N) :
  Nat.odd (_popcount (N.lxor a c)) =
  xorb (Nat.odd (_popcount a)) (Nat.odd (_popcount c)).
Proof.
  destruct a as [|p], c as [|q]; cbn [N.lxor].
  - reflexivity.
  - change (_popcount 0) with 0%nat. now destruct (Nat.odd _).
  - change (_popcount 0) with 0%nat. now destruct (Nat.odd _).
  - apply pos_lxor_odd.
Qed.

Lemma parity_lxor (a c : N) :
  parity (N.lxor a c) = N.lxor (parity a) (parity c).
Proof.
  rewrite !parity_odd, popcount_lxor_odd.
  now destruct (Nat.odd (_popcount a)), (Nat.odd (_popcount c)).
Qed.

Lemma parity_bits_value (l : list bool) :
  parity (bits_value l) = N.b2n (xor_all l).
Proof.
  rewrite parity_odd, popcount_bits_value. f_equal. unfold xor_all.
  induction l as [|b l IH] using rev_ind; [reflexivity|].
  rewrite count_occ_snoc, fold_left_app, Nat.odd_add, IH. cbn [fold_left].
  now destruct b.
Qed.

(** ** Reading the rows back *)

Lemma firstn_exact {A} (a c : list A) (k : nat) :
  length a = k -> firstn k (a ++ c) = a.
Proof.
  intros <-. rewrite firstn_app, Nat.sub_diag, firstn_all. cbn.
  apply app_nil_r.
Qed.

Lemma skipn_exact {A} (a c : list A) (k : nat) :
  length a = k -> skipn k (a ++ c) = c.
Proof.
  intros <-. rewrite skipn_app, Nat.sub_diag, skipn_all. reflexivity.
Qed.

Lemma read_rows_store_of (w : nat) (rows : list N) (tail : list byte) :
  Forall (fun x => x < 2 ^ N.of_nat w) rows ->
  read_rows (_bytes w) (length rows) (store_of w rows ++ tail) = rows.
Proof.
  induction 1 as [|x rows Hx _ IH]; [reflexivity|].
  cbn [length read_rows]. rewrite store_of_cons, <- app_assoc.
  rewrite firstn_exact, skipn_exact by apply be_bytes_length.
  rewrite from_be_bytes by now apply fits_in_bytes.
  now rewrite IH.
Qed.

Lemma stored_rows_of (T : Torus) (rows : list N) :
  stored T rows -> stored_rows T = rows.
Proof.
  intros (Hlen & Hall & Hfile). unfold stored_rows.
  rewrite Hfile, <- Hlen, <- (app_nil_r (store_of (s T) rows)).
  now apply read_rows_store_of.
Qed.

Lemma store_of_length (w : nat) (rows : list N) :
  length (store_of w rows) = (length rows * _bytes w)%nat.
Proof.
  unfold store_of. induction rows as [|x rows IH]; [reflexivity|].
  cbn [map concat length]. rewrite length_app, be_bytes_length, IH. lia.
Qed.

Lemma stored_complete (T : Torus) (rows : list N) :
  stored T rows -> store_complete T.
Proof.
  intros (Hlen & _ & Hfile). unfold store_complete.
  now rewrite Hfile, store_of_length, Hlen.
Qed.

(** ** The summaries as bit strings *)

Lemma track_rows_bits (a : N) (nums : list N) :
  track_rows a nums =
  fold_left (fun acc b => 2 * acc + N.b2n b)
            (map (fun x => Nat.odd (_popcount x)) nums) a.
Proof.
  unfold track_rows. revert a.
  induction nums as [|x nums IH]; intro a; [reflexivity|].
  cbn [fold_left map]. rewrite IH. f_equal.
  rewrite N.shiftl_mul_pow2, parity_odd. change (2 ^ 1) with 2. lia.
Qed.

Lemma odd_popcount_bits_value (l : list bool) :
  Nat.odd (_popcount (bits_value l)) = xor_all l.
Proof.
  pose proof (parity_bits_value l) as H. rewrite parity_odd in H.
  now destruct (Nat.odd _), (xor_all l).
Qed.

(** The row summary is the bit string of the row parities. *)
Lemma track_rows_matrix (M : list (list bool)) :
  track_rows 0 (map bits_value M) = bits_value (map xor_all M).
Proof.
  rewrite track_rows_bits, map_map. unfold bits_value. f_equal.
  apply map_ext. intro l. apply odd_popcount_bits_value.
Qed.

Lemma track_cols_testbit (nums : list N) (c k : N) :
  N.testbit (track_cols c nums) k =
  fold_left xorb (map (fun x => N.testbit x k) nums) (N.testbit c k).
Proof.
  unfold track_cols. revert c.
  induction nums as [|x nums IH]; intro c; [reflexivity|].
  cbn [fold_left map]. now rewrite IH, N.lxor_spec.
Qed.

Lemma zip_star_column (h w : nat) (M : list (list bool)) (j : nat) :
  (1 <= h)%nat -> rect h w M -> (j < w)%nat ->
  nth j (zip_star M) [] = map (fun line => nth j line false) M.
Proof.
  intros Hh HM Hj. rewrite (zip_star_rect h w M Hh HM).
  rewrite (nth_indep _ [] (map (fun line => nth 0 line false) M))
    by now rewrite length_map, length_seq.
  rewrite (map_nth (fun j => map (fun line => nth j line false) M)
             (seq 0 w) 0%nat j).
  now rewrite seq_nth.
Qed.

(** The column summary is the bit string of the column parities. *)
Lemma track_cols_matrix (h w : nat) (M : list (list bool)) :
  (1 <= h)%nat -> rect h w M ->
  track_cols 0 (map bits_value M) = bits_value (map xor_all (zip_star M)).
Proof.
  intros Hh HM. pose proof (zip_star_is_rect h w M Hh HM) as [HZlen _].
  apply N.bits_inj. intro k. rewrite <- (N2Nat.id k).
  rewrite track_cols_testbit, bits_value_testbit, length_map, HZlen.
  rewrite map_map. cbn [N.testbit]. unfold xor_all.
  destruct HM as [Hlen Hall].
  destruct (Nat.ltb_spec (N.to_nat k) w) as [Hk|Hk].
  - rewrite (nth_indep _ false (fold_left xorb [] false))
      by (rewrite length_map; lia).
    rewrite (map_nth (fun l => fold_left xorb l false)).
    rewrite (zip_star_column h w) by (lia || now split).
    f_equal. apply map_ext_in. intros line Hin.
    rewrite Forall_forall in Hall. rewrite bits_value_testbit, (Hall _ Hin).
    destruct (Nat.ltb_spec (N.to_nat k) w); [reflexivity|lia].
  - rewrite (map_ext_in _ (fun _ => false)).
    + clear. induction M as [|l M IH]; [reflexivity|]. exact IH.
    + intros line Hin. rewrite Forall_forall in Hall.
      rewrite bits_value_testbit, (Hall _ Hin).
      destruct (Nat.ltb_spec (N.to_nat k) w); [lia|reflexivity].
Qed.

(** ** The summaries after each operation *)

Lemma initialised_consistent (h w : nat) (values : list (list bool))
  (m0 n0 : nat) (T0 : Torus) :
  rect h w values -> sums_consistent (initialised values w m0 n0 T0).
Proof.
  intro Hrect. unfold sums_consistent.
  rewrite (stored_rows_of _ _ (initialised_stored h w values m0 n0 T0 Hrect)).
  now split.
Qed.

Lemma made_consistent (MODE : mode) (T : Torus) (copies : nat) (next : N)
  (rows : list N) :
  dims_ok T -> stored T rows -> next < 2 ^ N.of_nat (s T * copies) ->
  (2 <= num_rows_of MODE T)%nat ->
  sums_consistent (made MODE T copies next rows).
Proof.
  intros Hd Hst Hnext H2. unfold sums_consistent.
  rewrite (stored_rows_of _ _ (made_stored MODE T copies next rows Hd Hst
                                 Hnext H2)).
  now split.
Qed.

Lemma transposed_consistent (T : Torus) (rows : list N) :
  dims_ok T -> stored T rows -> sums_consistent T ->
  sums_consistent (transposed T rows).
Proof.
  intros Hd Hst [Hrs Hcs]. destruct (dims_ok_pos T Hd) as [Hr Hs].
  unfold sums_consistent.
  rewrite (stored_rows_of _ _ (transposed_stored T rows Hr Hs Hst)).
  rewrite (stored_rows_of _ _ Hst) in Hrs, Hcs.
  destruct Hst as (Hlen & Hall & _).
  pose proof (matrix_rect (s T) rows Hs Hall) as HM.
  assert (Hr' : (1 <= length rows)%nat) by lia.
  assert (Hrows : map bits_value (map (format_b (s T)) rows) = rows).
  { rewrite map_map, (map_ext _ (fun x => x)); [apply map_id|].
    intro x. apply format_b_value. }
  unfold transposed. cbn [row_sums col_sums]. unfold transposed_rows. split.
  - rewrite Hcs, track_rows_matrix, <- Hrows at 1.
    now apply (track_cols_matrix (length rows) (s T)).
  - rewrite Hrs, <- Hrows at 1. rewrite track_rows_matrix.
    rewrite (track_cols_matrix (s T) (length rows));
      [|assumption|now apply zip_star_is_rect].
    now rewrite (zip_star_involutive (length rows) (s T)).
Qed.

(** ** Rows with an even number of ones *)

Lemma track_rows_even (rows : list N) : all_even rows -> track_rows 0 rows = 0.
Proof.
  unfold track_rows. induction 1 as [|x rows Hx _ IH]; [reflexivity|].
  cbn [fold_left]. now rewrite Hx.
Qed.

Lemma parity_repeat_pattern (o : N) (w c : nat) :
  o < 2 ^ N.of_nat w -> (1 <= w)%nat -> Nat.even c = true ->
  parity (repeat_pattern o w c) = 0.
Proof.
  intros Ho Hw Hc. rewrite parity_odd, popcount_repeat_pattern by assumption.
  rewrite Nat.odd_mul, <- (Nat.negb_even c), Hc. reflexivity.
Qed.

Lemma new_rows_even (w c : nat) (line : N) (olds : list N) :
  (1 <= w)%nat -> Nat.even c = true -> parity line = 0 ->
  Forall (fun x => x < 2 ^ N.of_nat w) olds ->
  all_even (new_rows w c line olds).
Proof.
  intros Hw Hc Hline Hall. revert line Hline.
  induction Hall as [|o olds Ho _ IH]; intros line Hline; cbn [new_rows].
  - constructor.
  - assert (E : parity (N.lxor line (repeat_pattern o w c)) = 0)
      by now rewrite parity_lxor, Hline, parity_repeat_pattern.
    constructor; [exact E|]. now apply IH.
Qed.

Lemma count_occ_list_mul (l : list bool) (k : nat) :
  count_occ bool_dec (list_mul l k) true =
  (k * count_occ bool_dec l true)%nat.
Proof.
  unfold list_mul. induction k as [|k IH]; [reflexivity|].
  cbn [repeat concat]. rewrite count_occ_app, IH. lia.
Qed.

Lemma count_occ_zeros (k : nat) : count_occ bool_dec (repeat false k) true = 0%nat.
Proof. induction k as [|k IH]; [reflexivity|]. cbn. exact IH. Qed.

(** ** The summaries are only touched where the code assigns them *)

Lemma same_sums_refl (T : Torus) : same_sums T T.
Proof. now split. Qed.

Lemma same_sums_trans (T1 T2 T3 : Torus) :
  same_sums T1 T2 -> same_sums T2 T3 -> same_sums T1 T3.
Proof. unfold same_sums. intuition congruence. Qed.

Ltac keeps_sums_step :=
  first
    [ apply (keeps_bind same_sums same_sums_trans)
    | apply (keeps_ret same_sums same_sums_refl)
    | apply (keeps_raise same_sums same_sums_refl)
    | apply (keeps_lift same_sums same_sums_refl)
    | apply (keeps_get same_sums same_sums_refl) ].

Lemma sums_write (bs : list byte) : keeps same_sums (write bs).
Proof.
  intro T. unfold write, device. destruct (quota T) as [[|k]|]; now split.
Qed.

Lemma sums_close_write : keeps same_sums close_write.
Proof.
  intro T. unfold close_write, device. destruct (quota T) as [[|k]|];
    now split.
Qed.

Lemma sums_remove_temp : keeps same_sums remove_temp.
Proof.
  intro T. unfold remove_temp, device. destruct (temp T); [|now split].
  destruct (quota T) as [[|k]|]; now split.
Qed.

Lemma sums_write_from_array (k : nat) (lines : list (list bool)) :
  keeps same_sums (_write_from_array k lines).
Proof.
  induction lines as [|x lines IH]; cbn [_write_from_array].
  - keeps_sums_step.
  - keeps_sums_step; [keeps_sums_step|]. intros bs.
    keeps_sums_step; [apply sums_write|]. intros _. exact IH.
Qed.

Lemma sums_read_loop (rows : list nat) (acc : list (list bool) * reader) :
  keeps same_sums
    (for_each rows (fun _ acc =>
       let '(lines, old) := acc in
       lo <- _read_to_array old ;;
       ret (lines ++ [fst lo], snd lo)) acc).
Proof.
  apply (keeps_for_each same_sums same_sums_refl same_sums_trans).
  intros _ [lines old]. keeps_sums_step.
  - unfold _read_to_array. keeps_sums_step; [keeps_sums_step|]. intro self.
    destruct (read _ old). keeps_sums_step.
  - intro lo. keeps_sums_step.
Qed.

(** A transpose that succeeds has exchanged the two summaries, whatever
    the state of the store. *)
Lemma transpose_swaps_sums (T T' : Torus) :
  transpose T = (Ok tt, T') ->
  row_sums T' = col_sums T /\ col_sums T' = row_sums T.
Proof.
  intro H. apply transpose_start_ok in H. destruct H as [q H].
  unfold transpose_body in H.
  inv_bind H as ls T1 R1. apply (keeps_run _ _ _ _ (sums_read_loop _ _)) in R1.
  inv_bind H as u2 T2 R2.
  apply (keeps_run _ _ _ _ (sums_write_from_array _ _)) in R2.
  inv_bind H as uc Tc Rc. apply (keeps_run _ _ _ _ sums_close_write) in Rc.
  inv_bind H as u3 T3 R3. apply (keeps_run _ _ _ _ sums_remove_temp) in R3.
  inv_bind H as u4 T4 R4. inversion R4; subst T4; clear R4.
  inversion H; subst T'; clear H.
  cbn [row_sums col_sums set_dims set_sums].
  unfold same_sums, begin_rewrite in *.
  cbn [row_sums col_sums set_file set_temp set_quota] in *.
  intuition congruence.
Qed.

(** ** Consistent states are kept *)

(** A torus built from an [r]-by-[s] matrix of bits with [r * s = 2^(m*n)]:
    the constructor succeeds, the store holds exactly [r] rows of
    [ceil(s/8)] bytes, and the two summaries are those a recomputation from
    the stored bytes gives. *)
Theorem init_consistent (h w : nat) (values : list (list bool))
  (m0 n0 : nat) :
  rect h w values -> (h * w = 2 ^ (m0 * n0))%nat ->
  exists T,
    __init__ values m0 n0 (blank None) = (Ok tt, T) /\
    get_size T = (h, w, m0, n0) /\
    wf T /\ store_complete T /\ sums_consistent T.
Proof.
  intros Hrect Hd.
  destruct (init_wf h w values m0 n0 Hrect Hd) as (Hrun & Hwf & Hlen).
  exists (new_torus values m0 n0 None). split; [exact Hrun|].
  unfold new_torus in *.
  rewrite (init_run h w values m0 n0 (blank None) Hrect Hd eq_refl) in *.
  cbn [snd] in *. split; [|split; [exact Hwf|split]].
  - unfold get_size, initialised. cbn [r s m n]. now destruct Hrect as [-> _].
  - eapply stored_complete, initialised_stored. exact Hrect.
  - eapply initialised_consistent. exact Hrect.
Qed.

Lemma init_consistent_witness :
  exists T,
    __init__ sample_large 3 2 (blank None) = (Ok tt, T) /\
    get_size T = (4, 16, 3, 2)%nat /\
    wf T /\ store_complete T /\ sums_consistent T.
Proof.
  apply (init_consistent 4 16 sample_large 3 2).
  - split; [reflexivity|]. repeat constructor.
  - reflexivity.
Defined.

(** On a consistent torus whose summaries agree with the store,
    [transpose] succeeds and leaves a consistent torus whose summaries
    agree with the new store. *)
Theorem transpose_keeps_consistent (T : Torus) :
  wf T -> sums_consistent T ->
  exists T',
    transpose T = (Ok tt, T') /\
    wf T' /\ store_complete T' /\ sums_consistent T'.
Proof.
  intros Hwf Hsc. pose proof Hwf as (Hd & (rows & Hst) & Ht & Hq).
  destruct (dims_ok_pos T Hd) as [Hr Hs].
  exists (transposed T rows). split; [now apply transpose_run|].
  split; [now apply transposed_wf|]. split.
  - eapply stored_complete, transposed_stored; eassumption.
  - now apply transposed_consistent.
Qed.

Lemma sample_small_consistent :
  sums_consistent (new_torus sample_small 2 2 None).
Proof. split; vm_compute; reflexivity. Qed.

Lemma transpose_keeps_consistent_witness :
  exists T',
    transpose (new_torus sample_small 2 2 None) = (Ok tt, T') /\
    wf T' /\ store_complete T' /\ sums_consistent T'.
Proof.
  apply (transpose_keeps_consistent _ sample_small_wf sample_small_consistent).
Defined.

Lemma make_dims_ok (seed : option (list bool)) (T T' : Torus) :
  dims_ok T -> make seed T = (Ok tt, T') -> dims_ok T'.
Proof.
  intros Hd H. apply make_dims in H. unfold dims_ok, get_size in *.
  destruct H as [(_ & E)|(_ & Hn & E)]; inversion E as [[Hr Hs Hm Hn']];
    rewrite Hr, Hs, Hm, Hn'.
  - rewrite Nat.mul_assoc, Hd, <- Nat.pow_add_r. f_equal. lia.
  - replace ((r T + (r T + 0)) * (s T * 2 ^ (n T - 1)))%nat
      with (r T * s T * 2 ^ S (n T - 1))%nat
      by (rewrite Nat.pow_succ_r'; lia).
    rewrite Hd, <- Nat.pow_add_r. f_equal. lia.
Qed.

Lemma made_wf (MODE : mode) (seed : option (list bool)) (T : Torus)
  (copies : nat) (next : N) (rows : list N) :
  wf T -> stored T rows -> next < 2 ^ N.of_nat (s T * copies) ->
  (2 <= num_rows_of MODE T)%nat ->
  make seed T = (Ok tt, made MODE T copies next rows) ->
  wf (made MODE T copies next rows).
Proof.
  intros (Hd & _ & _ & Hq) Hst Hnext H2 Hrun.
  split; [|split; [|split]].
  - exact (make_dims_ok seed T _ Hd Hrun).
  - eexists. now apply made_stored.
  - reflexivity.
  - exact Hq.
Qed.

(** On a consistent torus a construction step that produces at least two
    rows, with the default seed or a seed of at most [2^order] bits,
    succeeds and leaves a
    consistent torus: the store holds exactly the new number of rows, each
    of [ceil(new s / 8)] bytes, and the summaries agree with it. *)
Theorem make_keeps_consistent (MODE : mode) (seed : option (list bool))
  (T : Torus) :
  wf T -> choose_mode T = Ok MODE -> (2 <= num_rows_of MODE T)%nat ->
  match MODE with
  | EVEN => seed_short seed (n T)
  | ODD => (1 <= n T)%nat /\ ((3 <= n T)%nat -> seed_short seed (n T - 1))
  end ->
  exists T',
    make seed T = (Ok tt, T') /\
    r T' = num_rows_of MODE T /\
    wf T' /\ store_complete T' /\ sums_consistent T'.
Proof.
  intros Hwf Hm H2 Hseed. pose proof Hwf as (Hd & (rows & Hst) & Ht & Hq).
  assert (Hc : exists copies, num_copies_of MODE T = Some copies).
  { destruct MODE; cbn [num_copies_of]; [now eexists|].
    destruct Hseed as [Hn _]. destruct (n T); [lia|now eexists]. }
  destruct Hc as (copies & Hc).
  destruct (make_run MODE seed T copies rows Hd Hst Hq Hm Hc)
    as (next & _ & Hnext & Hrun).
  { destruct MODE; [now apply seed_short_fits|].
    intro H3. apply seed_short_fits. now apply (proj2 Hseed). }
  exists (made MODE T copies next rows). split; [exact Hrun|].
  split; [reflexivity|]. split; [|split].
  - now apply (made_wf MODE seed).
  - eapply stored_complete, made_stored; eassumption.
  - now apply made_consistent.
Qed.

Lemma make_keeps_consistent_witness :
  exists T',
    make None (new_torus sample_small 2 2 None) = (Ok tt, T') /\
    r T' = num_rows_of ODD (new_torus sample_small 2 2 None) /\
    wf T' /\ store_complete T' /\ sums_consistent T'.
Proof.
  apply (make_keeps_consistent ODD None _ sample_small_wf).
  - vm_compute. reflexivity.
  - vm_compute. lia.
  - split; [vm_compute; lia|]. intro H. vm_compute in H. lia.
Defined.

(** ** Even rows after the even construction *)

Lemma first_line_even (seed : option (list bool)) (T : Torus)
  (sd : list bool) :
  (1 <= s T)%nat -> seed_or_default seed (n T) = Ok sd ->
  rbind (first_line EVEN seed T) _list_to_num =
  Ok (bits_value (repeat false (s T) ++ list_mul (tl sd) (s T))).
Proof.
  intros Hs Hsd. cbn [first_line]. rewrite Hsd. cbn [rbind].
  destruct (s T); [lia|reflexivity].
Qed.

Lemma even_step_made (seed : option (list bool)) (T : Torus)
  (rows : list N) :
  wf T -> stored T rows -> col_sums T = 0 -> (1 <= n T)%nat ->
  seed_even seed (n T) (s T) ->
  exists next,
    make seed T = (Ok tt, made EVEN T (2 ^ n T) next rows) /\
    row_sums (made EVEN T (2 ^ n T) next rows) = 0 /\
    length (all_rows EVEN T (2 ^ n T) next rows) = r T /\
    all_even (all_rows EVEN T (2 ^ n T) next rows) /\
    ((2 <= r T)%nat ->
     stored (made EVEN T (2 ^ n T) next rows)
            (all_rows EVEN T (2 ^ n T) next rows)) /\
    (forall T'',
        transpose (made EVEN T (2 ^ n T) next rows) = (Ok tt, T'') ->
        choose_mode T'' = Ok EVEN).
Proof.
  intros Hwf Hst H0 Hn (sd & Hsd & Hlen & Hev).
  pose proof Hwf as (Hd & _ & Ht & Hq).
  destruct (dims_ok_pos T Hd) as [Hr Hs].
  destruct (make_run EVEN seed T (2 ^ n T) rows Hd Hst Hq
              (choose_mode_even T H0) eq_refl) as (next & Hfl & Hnext & Hrun).
  { now exists sd. }
  rewrite (first_line_even seed T sd Hs Hsd) in Hfl.
  inversion Hfl as [Hnx]. clear Hfl.
  assert (Hpar : parity next = 0).
  { rewrite <- Hnx, parity_odd, popcount_bits_value, count_occ_app.
    rewrite count_occ_zeros, count_occ_list_mul, Nat.add_0_l.
    now rewrite <- Nat.negb_even, Hev. }
  assert (Hc : Nat.even (2 ^ n T) = true).
  { destruct (n T) as [|k]; [lia|].
    rewrite Nat.pow_succ_r', Nat.even_mul. reflexivity. }
  assert (Hall : all_even (all_rows EVEN T (2 ^ n T) next rows)).
  { constructor; [exact Hpar|].
    apply new_rows_even; try assumption.
    apply rows_read_lt. now destruct Hst as (_ & ? & _). }
  exists next.
  split; [exact Hrun|]. split.
  { unfold made. cbn [row_sums]. now apply track_rows_even. }
  split.
  { rewrite all_rows_length; [reflexivity|assumption|].
    now destruct Hst as (? & _). }
  split; [exact Hall|]. split.
  { intro H2. now apply made_stored. }
  intros T'' Htr. apply transpose_swaps_sums in Htr. destruct Htr as [_ Hcs].
  apply choose_mode_even. rewrite Hcs. unfold made. cbn [row_sums].
  now apply track_rows_even.
Qed.

(** The even construction on a consistent torus with [n >= 1], with a
    seed whose first line has an even number of ones (any seed when [s] is
    even): the step succeeds, every row it produces has an even number of
    ones, the row summary is 0, and so a transpose of the result is again
    in the even case. *)
Theorem even_step_even_rows (seed : option (list bool)) (T : Torus) :
  wf T -> col_sums T = 0 -> (1 <= n T)%nat ->
  seed_even seed (n T) (s T) ->
  exists T' rows',
    make seed T = (Ok tt, T') /\
    get_size T' = (r T, s T * 2 ^ n T, m T + 1, n T)%nat /\
    row_sums T' = 0 /\
    length rows' = r T /\ all_even rows' /\
    ((2 <= r T)%nat -> stored T' rows') /\
    (forall T'', transpose T' = (Ok tt, T'') -> choose_mode T'' = Ok EVEN).
Proof.
  intros Hwf H0 Hn Hseed.
  pose proof Hwf as (_ & (rows & Hst) & _).
  destruct (even_step_made seed T rows Hwf Hst H0 Hn Hseed)
    as (next & Hrun & Hrs & Hlen & Hall & Hsto & Htr).
  exists (made EVEN T (2 ^ n T) next rows),
         (all_rows EVEN T (2 ^ n T) next rows).
  split; [exact Hrun|]. split; [reflexivity|].
  split; [exact Hrs|]. split; [exact Hlen|]. split; [exact Hall|].
  split; [exact Hsto|exact Htr].
Qed.

Lemma sample_large_t_wf : wf sample_large_t.
Proof.
  pose proof sample_large_wf as Hwf.
  pose proof Hwf as (Hd & (rows & Hst) & _ & Hq).
  destruct (dims_ok_pos _ Hd) as [Hr Hs].
  unfold sample_large_t. rewrite (transpose_run _ rows Hr Hs Hst Hq).
  now apply transposed_wf.
Qed.

Lemma even_step_even_rows_witness :
  exists T' rows',
    make None sample_large_t = (Ok tt, T') /\
    get_size T' =
      (r sample_large_t, s sample_large_t * 2 ^ n sample_large_t,
       m sample_large_t + 1, n sample_large_t)%nat /\
    row_sums T' = 0 /\
    length rows' = r sample_large_t /\ all_even rows' /\
    ((2 <= r sample_large_t)%nat -> stored T' rows') /\
    (forall T'', transpose T' = (Ok tt, T'') -> choose_mode T'' = Ok EVEN).
Proof.
  apply (even_step_even_rows None sample_large_t sample_large_t_wf).
  - vm_compute. reflexivity.
  - vm_compute. lia.
  - exists (bits_of [0; 0; 0; 1; 0; 1; 1; 1]%nat).
    split; [vm_compute; reflexivity|]. split; [vm_compute; lia|].
    vm_compute. reflexivity.
Defined.

(** ** A row through the store and back *)

(** A row of [s] bits written by [_write_from_array] is read back as the
    same bits by [_read_to_array] and as their value by [_read_to_num], and
    the read leaves the position after its [ceil(s/8)] bytes. *)
Theorem row_round_trip (line : list bool) (T : Torus) (c tail : list byte) :
  line <> [] -> length line = s T ->
  exists bs,
    pack line (_bytes (s T)) = Ok bs /\
    length bs = _bytes (s T) /\
    _read_to_array (mkReader c (bs ++ tail)) T =
      (Ok (line, mkReader c tail), T) /\
    _read_to_num (mkReader c (bs ++ tail)) T =
      (Ok (bits_value line, mkReader c tail), T).
Proof.
  intros Hne Hlen. pose proof (bytes_bound (s T)).
  exists (be_bytes (_bytes (s T)) (bits_value line)).
  assert (Hlt : bits_value line < 2 ^ N.of_nat (s T))
    by (rewrite <- Hlen; apply bits_value_lt).
  split; [apply pack_ok; [assumption|lia]|].
  split; [apply be_bytes_length|]. split.
  - rewrite read_to_array_run by assumption.
    now rewrite <- Hlen, format_b_bits_value.
  - now apply read_to_num_run.
Qed.

Lemma row_round_trip_witness :
  let T := new_torus sample_small 2 2 None in
  exists bs,
    pack [true; false; true; true] (_bytes (s T)) = Ok bs /\
    length bs = _bytes (s T) /\
    _read_to_array (mkReader [] (bs ++ [x07])) T =
      (Ok ([true; false; true; true], mkReader [] [x07]), T) /\
    _read_to_num (mkReader [] (bs ++ [x07])) T =
      (Ok (bits_value [true; false; true; true], mkReader [] [x07]), T).
Proof.
  intro T.
  apply (row_round_trip [true; false; true; true] T [] [x07]).
  - discriminate.
  - vm_compute. reflexivity.
Defined.

(** [_popcount] counts the ones of a bit string, and the parity the
    summaries record is additive over XOR: the parity of [a ^ b] is the
    XOR of the parities, so XORing in a repeated old row changes the
    parity of a line by the parity of [copies * popcount(old row)]. *)
Theorem popcount_counts_ones :
  (forall l, _popcount (bits_value l) = count_occ bool_dec l true) /\
  (forall a c, parity (N.lxor a c) = N.lxor (parity a) (parity c)) /\
  (forall o w c, o < 2 ^ N.of_nat w -> (1 <= w)%nat ->
     _popcount (repeat_pattern o w c) = (c * _popcount o)%nat).
Proof.
  split; [exact popcount_bits_value|]. split; [exact parity_lxor|].
  exact popcount_repeat_pattern.
Qed.

Lemma popcount_counts_ones_witness :
  _popcount (repeat_pattern 5 3 4) = (4 * _popcount 5)%nat.
Proof.
  apply (proj2 (proj2 popcount_counts_ones) 5 3%nat 4%nat).
  - vm_compute. reflexivity.
  - lia.
Defined.


(** ** Bits of byte strings *)

Lemma bit_at_skipn (l : list byte) (k i : nat) :
  bit_at (skipn k l) i = bit_at l (8 * k + i).
Proof.
  unfold bit_at. rewrite nth_skipn.
  replace ((8 * k + i) / 8)%nat with (k + i / 8)%nat.
  2:{ rewrite Nat.mul_comm, Nat.div_add_l; lia. }
  replace ((8 * k + i) mod 8)%nat with (i mod 8)%nat.
  2:{ rewrite Nat.add_comm, Nat.mul_comm, Nat.Div0.mod_add. reflexivity. }
  reflexivity.
Qed.

Lemma bit_at_firstn (l : list byte) (k i : nat) :
  (i < 8 * k)%nat -> bit_at (firstn k l) i = bit_at l i.
Proof.
  intro H. unfold bit_at. rewrite nth_firstn.
  assert (i / 8 < k)%nat by (apply Nat.Div0.div_lt_upper_bound; lia).
  destruct (Nat.ltb_spec (i / 8) k); [reflexivity|lia].
Qed.

Lemma bit_at_app_l (a c : list byte) (i : nat) :
  (i < 8 * length a)%nat -> bit_at (a ++ c) i = bit_at a i.
Proof.
  intro H. unfold bit_at. rewrite app_nth1; [reflexivity|].
  apply Nat.Div0.div_lt_upper_bound. lia.
Qed.

Lemma bit_at_app_r (a c : list byte) (i : nat) :
  bit_at (a ++ c) (8 * length a + i) = bit_at c i.
Proof.
  rewrite <- bit_at_skipn, skipn_app, skipn_all, Nat.sub_diag. reflexivity.
Qed.

Lemma bit_at_concat (k : nat) (chunks : list (list byte)) (i j : nat) :
  Forall (fun c => length c = k) chunks ->
  (i < length chunks)%nat -> (j < 8 * k)%nat ->
  bit_at (concat chunks) (i * (8 * k) + j) = bit_at (nth i chunks []) j.
Proof.
  intros Hall. revert i. induction Hall as [|c chunks Hc _ IH]; intros i Hi Hj.
  - cbn in Hi. lia.
  - cbn [concat]. destruct i as [|i].
    + cbn [nth Nat.mul Nat.add]. apply bit_at_app_l. lia.
    + cbn [nth length] in *.
      replace (S i * (8 * k) + j)%nat
        with (8 * length c + (i * (8 * k) + j))%nat by (rewrite Hc; lia).
      rewrite bit_at_app_r. apply IH; lia.
Qed.

Lemma be_bytes_testbit (k : nat) (x : N) (j : nat) :
  x < 256 ^ N.of_nat k -> (j < 8 * k)%nat ->
  bit_at (be_bytes k x) j = N.testbit x (N.of_nat (8 * k - 1 - j)).
Proof.
  intros Hx Hj.
  pose proof (from_bytes_testbit (be_bytes k x) (8 * k - 1 - j)) as H.
  rewrite be_bytes_length, from_be_bytes in H by assumption.
  rewrite H by lia. f_equal. lia.
Qed.

Lemma concat_length_const {A} (k : nat) (chunks : list (list A)) :
  Forall (fun c => length c = k) chunks ->
  length (concat chunks) = (length chunks * k)%nat.
Proof.
  induction 1 as [|c chunks Hc _ IH]; [reflexivity|].
  cbn [concat length]. rewrite length_app, IH, Hc. lia.
Qed.

(** The bit of the store at row [i], column [j], when the width is a
    multiple of 8. *)
Lemma store_bit (w : nat) (rows : list N) (i j : nat) :
  (w mod 8 = 0)%nat -> Forall (fun x => x < 2 ^ N.of_nat w) rows ->
  (i < length rows)%nat -> (j < w)%nat ->
  bit_at (store_of w rows) (i * w + j) = torus_bit w rows i j.
Proof.
  intros Hw Hall Hi Hj.
  assert (E : (w = 8 * _bytes w)%nat).
  { unfold _bytes. pose proof (Nat.div_mod_eq w 8).
    pose proof (Nat.div_mod_eq (w + 7) 8).
    pose proof (Nat.mod_upper_bound (w + 7) 8). lia. }
  unfold store_of, torus_bit.
  rewrite E at 2. rewrite bit_at_concat with (k := _bytes w).
  - rewrite (nth_indep _ [] (be_bytes (_bytes w) 0))
      by now rewrite length_map.
    rewrite (map_nth (be_bytes (_bytes w))).
    rewrite be_bytes_testbit.
    + f_equal. lia.
    + apply fits_in_bytes. rewrite Forall_forall in Hall.
      apply Hall, nth_In. exact Hi.
    + lia.
  - rewrite Forall_map, Forall_forall. intros x _. apply be_bytes_length.
  - now rewrite length_map.
  - lia.
Qed.

(** ** The data of one image row *)

Lemma flat_map_repeat_length {A} (sq : nat) (l : list A) :
  length (flat_map (fun b => repeat b sq) l) = (length l * sq)%nat.
Proof.
  induction l as [|b l IH]; [reflexivity|].
  cbn [flat_map length]. rewrite length_app, repeat_length, IH. lia.
Qed.

Lemma nth_repeat_lt {A} (b d : A) (k i : nat) :
  (i < k)%nat -> nth i (repeat b k) d = b.
Proof.
  revert i. induction k as [|k IH]; intros i H; [lia|].
  destruct i; [reflexivity|]. cbn. apply IH. lia.
Qed.

Lemma flat_map_repeat_nth {A} (sq : nat) (l : list A) (d : A) (x : nat) :
  (x < length l * sq)%nat ->
  nth x (flat_map (fun b => repeat b sq) l) d = nth (x / sq) l d.
Proof.
  revert x. induction l as [|b l IH]; intros x Hx; [cbn in Hx; lia|].
  assert (Hsq : (sq <> 0)%nat) by (destruct sq; cbn in Hx; lia).
  cbn [flat_map length] in *. destruct (Nat.lt_ge_cases x sq) as [H|H].
  - rewrite app_nth1 by now rewrite repeat_length.
    rewrite Nat.div_small by assumption. now apply nth_repeat_lt.
  - rewrite app_nth2 by now rewrite repeat_length.
    rewrite repeat_length, IH by lia.
    assert (E : (x / sq = S ((x - sq) / sq))%nat).
    { replace (x / sq)%nat with (((x - sq) + 1 * sq) / sq)%nat
        by (f_equal; lia).
      rewrite Nat.div_add by assumption. lia. }
    now rewrite E.
Qed.

Lemma list_mul_length_aux {A} (l : list A) (k : nat) :
  length (concat (repeat l k)) = (k * length l)%nat.
Proof. apply (list_mul_length l k). Qed.

Lemma bytes_of_multiple (w : nat) : (w mod 8 = 0)%nat -> (w = 8 * _bytes w)%nat.
Proof.
  intro Hw. unfold _bytes. pose proof (Nat.div_mod_eq w 8).
  pose proof (Nat.div_mod_eq (w + 7) 8).
  pose proof (Nat.mod_upper_bound (w + 7) 8). lia.
Qed.

Lemma format_b_from_bytes (bs : list byte) (j : nat) :
  (1 <= length bs)%nat -> (j < 8 * length bs)%nat ->
  nth j (format_b (8 * length bs) (from_bytes bs)) false = bit_at bs j.
Proof.
  intros Hne Hj.
  assert (Hlt : from_bytes bs < 2 ^ N.of_nat (8 * length bs))
    by (rewrite <- pow256; apply from_bytes_lt).
  pose proof (format_b_length (8 * length bs) (from_bytes bs) ltac:(lia) Hlt)
    as Hlen.
  pose proof (bits_value_testbit (format_b (8 * length bs) (from_bytes bs))
                (8 * length bs - 1 - j)) as H.
  rewrite format_b_value, Hlen in H.
  destruct (Nat.ltb_spec (8 * length bs - 1 - j) (8 * length bs)); [|lia].
  replace (8 * length bs - 1 - (8 * length bs - 1 - j))%nat with j in H by lia.
  rewrite <- H, from_bytes_testbit by lia. f_equal. lia.
Qed.

Lemma list_to_num_ok (l : list bool) :
  l <> [] -> _list_to_num l = Ok (bits_value l).
Proof. destruct l; [contradiction|reflexivity]. Qed.

Lemma cell_spec (T : Torus) (iw sq : nat) (data : list byte) (i w : nat) :
  let start := (i * _bytes (s T) + w * _bytes iw)%nat in
  (iw mod 8 = 0)%nat -> (1 <= iw)%nat -> (1 <= sq)%nat ->
  (start + _bytes iw <= length data)%nat ->
  get_next_data T iw sq data i w = Ok (cell T iw sq data i w) /\
  length (cell T iw sq data i w) = (sq * (sq * _bytes iw))%nat /\
  forall y x, (y < sq)%nat -> (x < iw * sq)%nat ->
    bit_at (cell T iw sq data i w) (y * (iw * sq) + x) =
    bit_at data (8 * start + x / sq).
Proof.
  intros start Hiw H1 Hsq Hlen.
  pose proof (bytes_of_multiple iw Hiw) as Eiw.
  set (slice := firstn (_bytes iw) (skipn start data)).
  assert (Hsl : length slice = _bytes iw).
  { unfold slice. rewrite length_firstn, length_skipn. lia. }
  assert (Hbit : forall j, (j < iw)%nat ->
            bit_at slice j = bit_at data (8 * start + j)).
  { intros j Hj. unfold slice. rewrite bit_at_firstn by lia.
    apply bit_at_skipn. }
  unfold cell, get_next_data. fold start. fold slice.
  destruct (Nat.ltb_spec 1 sq) as [H2|H2].
  - (* each bit and each row repeated *)
    set (bits := format_b iw (from_bytes slice)).
    set (stretched := flat_map (fun b => repeat b sq) bits).
    assert (Hbl : length bits = iw).
    { unfold bits. apply format_b_length; [assumption|].
      replace (2 ^ N.of_nat iw) with (256 ^ N.of_nat (length slice))
        by (rewrite pow256; do 2 f_equal; lia).
      apply from_bytes_lt. }
    assert (Hstl : length stretched = (8 * (sq * _bytes iw))%nat).
    { unfold stretched. rewrite flat_map_repeat_length, Hbl. lia. }
    assert (Hne : stretched <> []).
    { intro E. rewrite E in Hstl. cbn [length] in Hstl.
      assert (1 <= _bytes iw)%nat by lia. nia. }
    rewrite (list_to_num_ok stretched Hne). cbn [rbind].
    rewrite to_bytes_ok.
    2:{ rewrite pow256, <- Hstl. apply bits_value_lt. }
    cbn [rbind]. split; [reflexivity|]. split.
    + unfold list_mul. rewrite list_mul_length_aux, be_bytes_length. lia.
    + intros y x Hy Hx. unfold list_mul.
      replace (iw * sq)%nat with (8 * (sq * _bytes iw))%nat by lia.
      rewrite bit_at_concat with (k := (sq * _bytes iw)%nat).
      * rewrite nth_repeat_lt by assumption.
        rewrite be_bytes_bit_at by lia. rewrite Hstl, Nat.sub_diag.
        cbn [Nat.ltb Nat.leb]. rewrite Nat.sub_0_r.
        unfold stretched.
        rewrite flat_map_repeat_nth by (rewrite Hbl; lia).
        assert (Hq : (x / sq < iw)%nat)
          by (apply Nat.Div0.div_lt_upper_bound; lia).
        rewrite <- Hbit by assumption. unfold bits.
        replace (format_b iw) with (format_b (8 * length slice))
          by (f_equal; lia).
        apply format_b_from_bytes; lia.
      * apply Forall_forall. intros c Hc. apply repeat_spec in Hc. subst c.
        apply be_bytes_length.
      * now rewrite repeat_length.
      * lia.
  - assert (sq = 1)%nat by lia. subst sq. split; [reflexivity|]. split.
    + rewrite Hsl. lia.
    + intros y x Hy Hx. assert (y = 0)%nat by lia. subst y.
      rewrite Nat.div_1_r. cbn [Nat.mul Nat.add]. apply Hbit. lia.
Qed.

(** ** The loops of [save] *)

Lemma tile_data_ok (T : Torus) (iw sq : nat) (data : list byte) (w : nat)
  (rows : list nat) :
  (forall i, In i rows ->
     get_next_data T iw sq data i w = Ok (cell T iw sq data i w)) ->
  tile_data T iw sq data w rows =
  Ok (concat (map (fun i => cell T iw sq data i w) rows)).
Proof.
  induction rows as [|i rows IH]; intro H; [reflexivity|].
  cbn [tile_data map concat]. rewrite (H i (or_introl eq_refl)).
  cbn [rbind]. rewrite IH; [reflexivity|].
  intros j Hj. apply H. now right.
Qed.

Lemma save_row_ok (T : Torus) (tw th sq h : nat) (cols : list nat) :
  (forall w i, In w cols -> (i < r T / th)%nat ->
     get_next_data T (s T / tw) sq (band T th h) i w =
     Ok (cell T (s T / tw) sq (band T th h) i w)) ->
  save_row T tw th sq (band T th h) h cols =
  (map (tile_image T tw th sq h) cols, None).
Proof.
  induction cols as [|w cols IH]; intro H; [reflexivity|].
  cbn [save_row map]. rewrite tile_data_ok.
  - rewrite IH; [reflexivity|]. intros w' i Hw' Hi. apply H; [now right|exact Hi].
  - intros i Hi. apply in_seq in Hi. apply H; [now left|lia].
Qed.

Lemma save_bands_ok (T : Torus) (tw th sq : nat) (cnt : nat) :
  forall (h0 : nat) (f : reader),
    rest f = skipn (h0 * (r T / th * _bytes (s T))) (file T) ->
    (forall h w i, (h0 <= h < h0 + cnt)%nat -> (w < tw)%nat ->
       (i < r T / th)%nat ->
       get_next_data T (s T / tw) sq (band T th h) i w =
       Ok (cell T (s T / tw) sq (band T th h) i w)) ->
    save_bands T tw th sq f (seq h0 cnt) =
    (flat_map (fun h => map (tile_image T tw th sq h) (seq 0 tw)) (seq h0 cnt),
     None).
Proof.
  induction cnt as [|cnt IH]; intros h0 f Hf H; [reflexivity|].
  cbn [seq save_bands flat_map]. unfold read. rewrite Hf.
  fold (band T th h0). rewrite save_row_ok.
  - rewrite (IH (S h0)).
    + reflexivity.
    + cbn [rest]. rewrite skipn_skipn. f_equal; lia.
    + intros h w i Hh Hw Hi. apply H; lia.
  - intros w i Hw Hi. apply in_seq in Hw. apply H; lia.
Qed.

Lemma firstn_add {A} (a c : nat) (l : list A) :
  firstn (a + c) l = firstn a l ++ firstn c (skipn a l).
Proof.
  revert l. induction a as [|a IH]; intro l; [reflexivity|].
  destruct l as [|x l]; [now rewrite !firstn_nil|].
  cbn [Nat.add firstn skipn app]. now rewrite IH.
Qed.

Lemma concat_chunks {A} (k cnt : nat) (l : list A) :
  forall a,
    concat (map (fun i => firstn k (skipn (i * k) l)) (seq a cnt)) =
    firstn (cnt * k) (skipn (a * k) l).
Proof.
  induction cnt as [|cnt IH]; intro a; [reflexivity|].
  cbn [seq map concat]. rewrite IH.
  replace (S cnt * k)%nat with (k + cnt * k)%nat by lia.
  rewrite firstn_add, skipn_skipn. do 3 f_equal; lia.
Qed.

Lemma band_length (T : Torus) (rows : list N) (th h : nat) :
  stored T rows -> (1 <= th)%nat -> (r T mod th = 0)%nat -> (h < th)%nat ->
  length (band T th h) = (r T / th * _bytes (s T))%nat.
Proof.
  intros Hst Hth Hr Hh. pose proof (stored_complete T rows Hst) as Hc.
  unfold store_complete in Hc. unfold band. cbv zeta.
  rewrite length_firstn, length_skipn, Hc.
  pose proof (Nat.div_mod_eq (r T) th) as E. rewrite Hr, Nat.add_0_r in E.
  rewrite E at 2. nia.
Qed.

Lemma bytes_mul8 (k : nat) : _bytes (8 * k) = k.
Proof.
  unfold _bytes. symmetry. apply Nat.div_unique with (r := 7%nat); lia.
Qed.

Lemma nth_concat {A} (k : nat) (chunks : list (list A)) (i j : nat) (d : A) :
  Forall (fun c => length c = k) chunks ->
  (i < length chunks)%nat -> (j < k)%nat ->
  nth (i * k + j) (concat chunks) d = nth j (nth i chunks []) d.
Proof.
  intros Hall. revert i. induction Hall as [|c chunks Hc _ IH]; intros i Hi Hj.
  - cbn in Hi. lia.
  - cbn [concat]. destruct i as [|i].
    + cbn [nth Nat.mul Nat.add]. apply app_nth1. lia.
    + cbn [nth length] in *. rewrite app_nth2 by (rewrite Hc; lia).
      replace (S i * k + j - length c)%nat with (i * k + j)%nat
        by (rewrite Hc; lia).
      apply IH; lia.
Qed.

(** The facts [save] checks before it builds any image, and what follows
    from them. *)
Lemma save_geometry (T : Torus) (tw th : nat) :
  dims_ok T -> (1 <= tw)%nat -> (1 <= th)%nat ->
  (s T mod tw = 0)%nat -> (r T mod th = 0)%nat ->
  ((s T / tw) mod 8 = 0)%nat ->
  let iw := (s T / tw)%nat in
  let ih := (r T / th)%nat in
  let q := _bytes iw in
  (iw = 8 * q /\ s T = tw * iw /\ r T = th * ih /\ _bytes (s T) = tw * q /\
   1 <= q /\ 1 <= ih /\ s T mod 8 = 0)%nat.
Proof.
  intros Hd Htw Hth Hs Hr H8 iw ih q. destruct (dims_ok_pos T Hd) as [Hr1 Hs1].
  assert (Eiw : (iw = 8 * q)%nat) by now apply bytes_of_multiple.
  assert (Es : (s T = tw * iw)%nat).
  { pose proof (Nat.div_mod_eq (s T) tw) as E. now rewrite Hs, Nat.add_0_r in E. }
  assert (Er : (r T = th * ih)%nat).
  { pose proof (Nat.div_mod_eq (r T) th) as E. now rewrite Hr, Nat.add_0_r in E. }
  assert (Eb : (_bytes (s T) = tw * q)%nat).
  { rewrite Es, Eiw. replace (tw * (8 * q))%nat with (8 * (tw * q))%nat by lia.
    apply bytes_mul8. }
  assert (Hq : (1 <= q)%nat) by (destruct q; [nia|lia]).
  assert (Hih : (1 <= ih)%nat) by (destruct ih; [nia|lia]).
  repeat split; try assumption.
  rewrite Es, Eiw. replace (tw * (8 * q))%nat with ((tw * q) * 8)%nat by lia.
  apply Nat.Div0.mod_mul.
Qed.

Lemma save_cells_ok (T : Torus) (rows : list N) (tw th sq h w i : nat) :
  dims_ok T -> stored T rows ->
  (1 <= tw)%nat -> (1 <= th)%nat -> (1 <= sq)%nat ->
  (s T mod tw = 0)%nat -> (r T mod th = 0)%nat ->
  ((s T / tw) mod 8 = 0)%nat ->
  (h < th)%nat -> (w < tw)%nat -> (i < r T / th)%nat ->
  let iw := (s T / tw)%nat in
  let c := cell T iw sq (band T th h) i w in
  get_next_data T iw sq (band T th h) i w = Ok c /\
  length c = (sq * (sq * _bytes iw))%nat /\
  forall y x, (y < sq)%nat -> (x < iw * sq)%nat ->
    bit_at c (y * (iw * sq) + x) =
    torus_bit (s T) rows (h * (r T / th) + i) (w * iw + x / sq).
Proof.
  intros Hd Hst Htw Hth Hsq Hs Hr H8 Hh Hw Hi iw c. subst c.
  destruct (save_geometry T tw th Hd Htw Hth Hs Hr H8)
    as (Eiw & Es & Er & Eb & Hq & Hih & Hs8).
  fold iw in Eiw, Es, Eb, H8, Hq.
  set (ih := (r T / th)%nat) in *. set (q := _bytes iw) in *.
  pose proof (band_length T rows th h Hst Hth Hr Hh) as Hbl.
  assert (Hiw : (1 <= iw)%nat) by lia.
  assert (Hfit : (i * _bytes (s T) + w * _bytes iw + _bytes iw <=
                  length (band T th h))%nat).
  { rewrite Hbl, Eb. nia. }
  destruct (cell_spec T iw sq (band T th h) i w H8 Hiw Hsq Hfit)
    as (Hok & Hlen & Hbits).
  split; [exact Hok|]. split; [exact Hlen|].
  intros y x Hy Hx. rewrite (Hbits y x Hy Hx).
  assert (Hxq : (x / sq < iw)%nat) by (apply Nat.Div0.div_lt_upper_bound; lia).
  unfold band. cbv zeta. rewrite bit_at_firstn.
  2:{ rewrite Eb. nia. }
  rewrite bit_at_skipn. destruct Hst as (Hrows & Hall & Hfile).
  rewrite Hfile.
  replace (8 * (h * (r T / th * _bytes (s T))) +
           (8 * (i * _bytes (s T) + w * _bytes iw) + x / sq))%nat
    with ((h * (r T / th) + i) * s T + (w * iw + x / sq))%nat.
  2:{ fold ih. fold q. rewrite Eb. generalize (x / sq)%nat. intro X.
      clearbody q ih iw. rewrite Es, Eiw. ring. }
  apply store_bit; try assumption.
  - rewrite Hrows, Er. nia.
  - rewrite Es. nia.
Qed.

Lemma tiles_length (T : Torus) (tw th sq : nat) :
  length (tiles T tw th sq) = (th * tw)%nat.
Proof.
  unfold tiles. rewrite flat_map_concat_map.
  rewrite concat_length_const with (k := tw).
  - now rewrite length_map, length_seq.
  - rewrite Forall_map, Forall_forall. intros h _.
    now rewrite length_map, length_seq.
Qed.

Lemma tiles_nth (T : Torus) (tw th sq h w : nat) (d : image) :
  (h < th)%nat -> (w < tw)%nat ->
  nth (h * tw + w) (tiles T tw th sq) d = tile_image T tw th sq h w.
Proof.
  intros Hh Hw. unfold tiles. rewrite flat_map_concat_map.
  rewrite nth_concat with (k := tw).
  - rewrite (nth_indep _ []
               (map (tile_image T tw th sq 0) (seq 0 tw)))
      by now rewrite length_map, length_seq.
    rewrite (map_nth (fun h => map (tile_image T tw th sq h) (seq 0 tw))).
    rewrite seq_nth by assumption.
    rewrite (nth_indep _ d (tile_image T tw th sq (0 + h) 0))
      by now rewrite length_map, length_seq.
    rewrite (map_nth (tile_image T tw th sq (0 + h))).
    now rewrite seq_nth.
  - rewrite Forall_map, Forall_forall. intros h' _.
    now rewrite length_map, length_seq.
  - now rewrite length_map, length_seq.
  - exact Hw.
Qed.

Lemma save_whole_data (T : Torus) (rows : list N) :
  stored T rows ->
  concat (map (fun i => cell T (s T / 1) 1 (band T 1 0) i 0)
              (seq 0 (r T / 1))) = file T.
Proof.
  intro Hst. pose proof (stored_complete T rows Hst) as Hc.
  unfold store_complete in Hc. rewrite !Nat.div_1_r.
  assert (Hb : band T 1 0 = file T).
  { unfold band. cbv zeta. rewrite Nat.div_1_r. cbn [Nat.mul skipn].
    apply firstn_all2. lia. }
  rewrite Hb.
  rewrite (map_ext _ (fun i => firstn (_bytes (s T))
                                 (skipn (i * _bytes (s T)) (file T)))).
  2:{ intro i. unfold cell, get_next_data. cbn [Nat.ltb Nat.leb].
      now rewrite Nat.mul_0_l, Nat.add_0_r. }
  rewrite concat_chunks. cbn [Nat.mul skipn]. apply firstn_all2. lia.
Qed.

Lemma save_run (T : Torus) (rows : list N) (tw th sq : nat) :
  dims_ok T -> stored T rows ->
  (1 <= tw)%nat -> (1 <= th)%nat -> (1 <= sq)%nat ->
  (s T mod tw = 0)%nat -> (r T mod th = 0)%nat ->
  ((s T / tw) mod 8 = 0)%nat ->
  save tw th sq T = (tiles T tw th sq, None).
Proof.
  intros Hd Hst Htw Hth Hsq Hs Hr H8.
  pose proof (fun h w i => save_cells_ok T rows tw th sq h w i Hd Hst Htw Hth
                             Hsq Hs Hr H8) as Hcell.
  cbv zeta in Hcell.
  unfold save. destruct tw as [|tw']; [lia|]. rewrite Hs. cbn [Nat.eqb negb].
  destruct th as [|th']; [lia|]. rewrite Hr, H8. cbn [Nat.eqb negb].
  destruct ((tw' =? 0) && (th' =? 0) && (sq =? 1))%nat eqn:E1.
  - apply andb_prop in E1. destruct E1 as [E1 E3].
    apply andb_prop in E1. destruct E1 as [E1 E2].
    apply Nat.eqb_eq in E1, E2, E3. subst tw' th' sq.
    unfold tiles. cbn [seq flat_map map app]. unfold tile_image.
    cbn [Nat.eqb andb]. now rewrite (save_whole_data T rows Hst).
  - rewrite (save_bands_ok T (S tw') (S th') sq (S th') 0).
    + reflexivity.
    + reflexivity.
    + intros h w i Hh Hw Hi. apply Hcell; lia.
Qed.

(** [save] on a torus whose store holds its rows, with tile counts that
    divide the dimensions and a tile width that is a multiple of 8: no
    exception is raised; [tile_height * tile_width] images are saved, tile
    row after tile row; each has the pixel dimensions
    [(s / tile_width * square_size, r / tile_height * square_size)] and
    exactly the number of bytes a raw 1-bit image of these dimensions
    takes; and the pixel [(y, x)] of the image of tile [(h, w)] is the
    element of the torus in row [h * (r / tile_height) + y / square_size],
    column [w * (s / tile_width) + x / square_size]. *)
Theorem save_pixels (T : Torus) (rows : list N) (tw th sq : nat) :
  dims_ok T -> stored T rows ->
  (1 <= tw)%nat -> (1 <= th)%nat -> (1 <= sq)%nat ->
  (s T mod tw = 0)%nat -> (r T mod th = 0)%nat ->
  ((s T / tw) mod 8 = 0)%nat ->
  save tw th sq T = (tiles T tw th sq, None) /\
  length (tiles T tw th sq) = (th * tw)%nat /\
  forall h w, (h < th)%nat -> (w < tw)%nat ->
    let img := tile_image T tw th sq h w in
    nth (h * tw + w) (tiles T tw th sq) img = img /\
    image_dim img = (s T / tw * sq, r T / th * sq)%nat /\
    length (image_data img) = raw_size (image_dim img) /\
    forall y x, (y < r T / th * sq)%nat -> (x < s T / tw * sq)%nat ->
      pixel img y x =
      torus_bit (s T) rows (h * (r T / th) + y / sq) (w * (s T / tw) + x / sq).
Proof.
  intros Hd Hst Htw Hth Hsq Hs Hr H8.
  pose proof (fun h w i => save_cells_ok T rows tw th sq h w i Hd Hst Htw Hth
                             Hsq Hs Hr H8) as Hcell.
  cbv zeta in Hcell.
  destruct (save_geometry T tw th Hd Htw Hth Hs Hr H8)
    as (Eiw & Es & Er & Eb & Hq & Hih & Hs8).
  split; [|split; [apply tiles_length|]].
  - (* the images saved *)
    now apply (save_run T rows).
  - intros h w Hh Hw img. split; [now apply tiles_nth|].
    split; [reflexivity|].
    assert (Hcells : Forall (fun c => length c = (sq * (sq * _bytes (s T / tw)))%nat)
              (map (fun i => cell T (s T / tw) sq (band T th h) i w)
                   (seq 0 (r T / th)))).
    { rewrite Forall_map, Forall_forall. intros i Hi. apply in_seq in Hi.
      apply Hcell; lia. }
    split.
    + subst img. unfold tile_image, raw_size. cbn [image_data image_dim fst snd].
      rewrite (concat_length_const _ _ Hcells), length_map, length_seq.
      replace (s T / tw * sq)%nat with (8 * (_bytes (s T / tw) * sq))%nat
        by (rewrite Eiw at 2; lia).
      rewrite bytes_mul8. lia.
    + intros y x Hy Hx. subst img. unfold pixel, tile_image.
      cbn [image_data image_dim fst snd].
      assert (Hyq : (y / sq < r T / th)%nat)
        by (apply Nat.Div0.div_lt_upper_bound; lia).
      assert (Hym : (y mod sq < sq)%nat) by (apply Nat.mod_upper_bound; lia).
      pose proof (Nat.div_mod_eq y sq) as Ey.
      replace (y * (s T / tw * sq) + x)%nat
        with (y / sq * (8 * (sq * (sq * _bytes (s T / tw)))) +
              (y mod sq * (s T / tw * sq) + x))%nat.
      2:{ rewrite Ey at 3. rewrite Eiw at 2 3. lia. }
      rewrite bit_at_concat with (k := (sq * (sq * _bytes (s T / tw)))%nat).
      * rewrite (nth_indep _ []
                   (cell T (s T / tw) sq (band T th h) 0 w))
          by now rewrite length_map, length_seq.
        rewrite (map_nth (fun i => cell T (s T / tw) sq (band T th h) i w)).
        rewrite seq_nth by assumption. cbn [Nat.add].
        apply Hcell; assumption.
      * exact Hcells.
      * now rewrite length_map, length_seq.
      * rewrite Eiw in Hx at 1. nia.
Qed.

Lemma sample_large_stored :
  stored (new_torus sample_large 3 2 None) (map bits_value sample_large).
Proof.
  split; [reflexivity|]. split; [|vm_compute; reflexivity].
  vm_compute. repeat constructor.
Qed.

Lemma save_pixels_witness :
  let T := new_torus sample_large 3 2 None in
  let rows := map bits_value sample_large in
  save 2 2 2 T = (tiles T 2 2 2, None) /\
  length (tiles T 2 2 2) = (2 * 2)%nat /\
  forall h w, (h < 2)%nat -> (w < 2)%nat ->
    let img := tile_image T 2 2 2 h w in
    nth (h * 2 + w) (tiles T 2 2 2) img = img /\
    image_dim img = (s T / 2 * 2, r T / 2 * 2)%nat /\
    length (image_data img) = raw_size (image_dim img) /\
    forall y x, (y < r T / 2 * 2)%nat -> (x < s T / 2 * 2)%nat ->
      pixel img y x =
      torus_bit (s T) rows (h * (r T / 2) + y / 2) (w * (s T / 2) + x / 2).
Proof.
  intros T rows.
  apply (save_pixels T rows 2 2 2).
  - vm_compute. reflexivity.
  - exact sample_large_stored.
  - lia.
  - lia.
  - lia.
  - vm_compute. reflexivity.
  - vm_compute. reflexivity.
  - vm_compute. reflexivity.
Defined.



(** ** The default seed *)

(** With the default seed, on every consistent torus with [n <= 10]: the
    step succeeds with dimensions [(r, s*2^n; m+1, n)] when every column
    is even, and with [(2r, s*2^(n-1); m+1, n)] when every column is odd
    and [n >= 1]; and in the even case with [n >= 2] every row produced has
    an even number of ones, so that the row summary is 0 and a transpose of
    the result is again in the even case. *)
Theorem make_default_seed (T : Torus) :
  wf T -> (n T <= 10)%nat ->
  (col_sums T = 0 ->
   exists T' rows',
     make None T = (Ok tt, T') /\
     get_size T' = (r T, s T * 2 ^ n T, m T + 1, n T)%nat /\
     ((2 <= n T)%nat ->
      row_sums T' = 0 /\ length rows' = r T /\ all_even rows' /\
      ((2 <= r T)%nat -> stored T' rows') /\
      (forall T'', transpose T' = (Ok tt, T'') ->
                   choose_mode T'' = Ok EVEN))) /\
  (col_sums T = all_ones (s T) -> (1 <= n T)%nat ->
   exists T',
     make None T = (Ok tt, T') /\
     get_size T' = (2 * r T, s T * 2 ^ (n T - 1), m T + 1, n T)%nat).
Proof.
  intros Hwf Hn. pose proof Hwf as (Hd & (rows & Hst) & _ & Hq).
  destruct (dims_ok_pos T Hd) as [Hr Hs]. split.
  - intro H0. destruct (Nat.le_gt_cases 2 (n T)) as [H2|H2].
    + destruct (even_step_made None T rows Hwf Hst H0 ltac:(lia)
                  (default_seed_even (n T) (s T) ltac:(lia)))
        as (next & Hrun & Hrest).
      exists (made EVEN T (2 ^ n T) next rows),
             (all_rows EVEN T (2 ^ n T) next rows).
      split; [exact Hrun|]. split; [reflexivity|].
      intros _. exact Hrest.
    + destruct (make_run EVEN None T (2 ^ n T) rows Hd Hst Hq
                  (choose_mode_even T H0) eq_refl
                  (default_seed_fits (n T))) as (next & _ & _ & Hrun).
      eexists. exists []. split; [exact Hrun|]. split; [reflexivity|]. lia.
  - intros H1 Hn1.
    assert (Hc : num_copies_of ODD T = Some (2 ^ (n T - 1))%nat).
    { cbn. destruct (n T) as [|k]; [lia|]. do 2 f_equal. lia. }
    destruct (make_run ODD None T _ rows Hd Hst Hq
                (choose_mode_odd T Hs H1) Hc) as (next & _ & _ & Hrun).
    { intros _. apply default_seed_fits. }
    eexists. split; [exact Hrun|reflexivity].
Qed.

Lemma make_default_seed_witness :
  exists T' rows',
    make None sample_large_t = (Ok tt, T') /\
    get_size T' =
      (r sample_large_t, s sample_large_t * 2 ^ n sample_large_t,
       m sample_large_t + 1, n sample_large_t)%nat /\
    ((2 <= n sample_large_t)%nat ->
     row_sums T' = 0 /\ length rows' = r sample_large_t /\ all_even rows' /\
     ((2 <= r sample_large_t)%nat -> stored T' rows') /\
     (forall T'', transpose T' = (Ok tt, T'') -> choose_mode T'' = Ok EVEN)).
Proof.
  apply (proj1 (make_default_seed sample_large_t sample_large_t_wf
                  ltac:(vm_compute; lia))).
  vm_compute. reflexivity.
Defined.

(** ** Failures during the rewrite of the store *)





(** *** Computations that fill the store *)

















(** *** The rewrite, once the two files are open *)



















(** *** A device that fails while [transpose] writes the new rows *)

Lemma write_from_array_fault (len : nat) (lines : list (list bool)) :
  forall (k : nat) (T : Torus),
    quota T = Some k -> (k < length lines)%nat ->
    Forall (fun l => l <> [] /\ (length l <= 8 * len)%nat) lines ->
    _write_from_array len lines T =
    (Raise OSError,
     set_quota (Some 0%nat)
       (set_file
          (firstn (landed T)
             (file T ++
              concat (map (fun l => be_bytes len (bits_value l))
                          (firstn (S k) lines))))
          T)).
Proof.
  induction lines as [|l lines IH]; intros k T Hq Hk Hall.
  - cbn in Hk. lia.
  - inversion Hall as [|? ? [Hne Hl] Hall']; subst.
    cbn [_write_from_array]. unfold bind at 1, lift.
    rewrite pack_ok by assumption. unfold bind at 1. unfold write, device.
    rewrite Hq. destruct k as [|k].
    + cbn [firstn map concat]. rewrite app_nil_r. destruct T; cbn in *.
      now subst.
    + rewrite (IH k); [|reflexivity|cbn [length] in Hk; lia|assumption].
      cbn [firstn map concat file set_file set_quota r s m n row_sums
           col_sums temp quota landed].
      now rewrite <- app_assoc.
Qed.

(** When the device fails at the row [k] that [transpose] writes, after
    the copy, the opening of the two files and [k] rows, [transpose] raises
    [OSError]; the store file then holds the first [b] bytes of the first
    [k + 1] rows of the transposed torus, [b] being the number of bytes the
    device let through, the scratch file holds the complete prior store,
    and the dimensions and summaries of the object are the old ones. *)
Theorem transpose_device_failure (T : Torus) (rows : list N) (k b : nat) :
  dims_ok T -> stored T rows -> (k < s T)%nat ->
  exists T',
    transpose (set_fault (Some (3 + k)%nat) b T) = (Raise OSError, T') /\
    file T' =
      firstn b (store_of (r T) (firstn (S k) (transposed_rows (s T) rows))) /\
    temp T' = Some (file T) /\
    get_size T' = get_size T /\
    row_sums T' = row_sums T /\ col_sums T' = col_sums T.
Proof.
  intros Hd (Hlen & Hall & Hfile) Hk.
  destruct (dims_ok_pos T Hd) as [Hr Hs].
  rewrite transpose_start. cbn [quota set_fault Nat.add].
  unfold transpose_body. cbn [r set_fault]. rewrite <- Hlen.
  set (B := set_quota (Some k) (begin_rewrite (set_fault (Some (S (S (S k)))) b T))).
  pose proof (read_loop_run rows 0 [] (file T) [] B) as Hread.
  change (s B) with (s T) in Hread. specialize (Hread Hall).
  rewrite app_nil_r in Hread. rewrite <- Hfile in Hread.
  cbn [file set_fault]. rewrite (bind_run _ _ _ _ _ Hread). cbn [fst app].
  pose proof (matrix_rect (s T) rows Hs Hall) as HM.
  assert (Hr' : (1 <= length rows)%nat) by lia.
  pose proof (zip_star_is_rect _ _ _ Hr' HM) as [Hcl Hcols].
  eexists. split.
  - erewrite bind_raise; [reflexivity|].
    apply (write_from_array_fault _ _ k); [reflexivity|lia|].
    eapply Forall_impl; [|exact Hcols]. cbn beta. intros col Hcol.
    pose proof (bytes_bound (length rows)).
    split; [destruct col; [cbn in Hcol; lia|easy]|lia].
  - cbn [file temp row_sums col_sums get_size r s m n set_quota set_file
         set_temp set_fault begin_rewrite app landed B].
    unfold store_of, transposed_rows.
    rewrite firstn_map, map_map. now repeat split.
Qed.

Lemma transpose_device_failure_witness :
  let T := new_torus sample_small 2 2 None in
  exists T',
    transpose (set_fault (Some (3 + 2)%nat) 3 T) = (Raise OSError, T') /\
    file T' =
      firstn 3 (store_of (r T)
                  (firstn 3 (transposed_rows (s T) [2; 1; 7; 11]))) /\
    temp T' = Some (file T) /\
    get_size T' = get_size T /\
    row_sums T' = row_sums T /\ col_sums T' = col_sums T.
Proof.
  intro T. apply (transpose_device_failure T [2; 1; 7; 11] 2 3).
  - vm_compute. reflexivity.
  - split; [reflexivity|]. split; [|reflexivity].
    repeat constructor.
  - vm_compute. lia.
Defined.

(** ** The elements of a transposed torus *)

Lemma format_b_nth (w : nat) (x : N) (j : nat) :
  (1 <= w)%nat -> x < 2 ^ N.of_nat w -> (j < w)%nat ->
  nth j (format_b w x) false = N.testbit x (N.of_nat (w - 1 - j)).
Proof.
  intros Hw Hx Hj.
  rewrite <- (format_b_value w x) at 2.
  rewrite bits_value_testbit, format_b_length by assumption.
  destruct (Nat.ltb_spec (w - 1 - j) w) as [_|H]; [|lia].
  f_equal. lia.
Qed.

Lemma transposed_rows_bit (w : nat) (rows : list N) (i j : nat) :
  (1 <= w)%nat -> Forall (fun x => x < 2 ^ N.of_nat w) rows ->
  (i < w)%nat -> (j < length rows)%nat ->
  torus_bit (length rows) (transposed_rows w rows) i j =
  torus_bit w rows j i.
Proof.
  intros Hw Hall Hi Hj. unfold torus_bit, transposed_rows.
  pose proof (matrix_rect w rows Hw Hall) as HM.
  change 0 with (bits_value []) at 1. rewrite map_nth.
  rewrite (zip_star_column (length rows) w _ i) by (assumption || lia).
  rewrite bits_value_testbit, !length_map.
  destruct (Nat.ltb_spec (length rows - 1 - j) (length rows)) as [_|H]; [|lia].
  replace (length rows - 1 - (length rows - 1 - j))%nat with j by lia.
  rewrite (nth_indep _ false (nth i [] false))
    by now rewrite !length_map.
  rewrite (map_nth (fun line => nth i line false)).
  rewrite (nth_indep _ [] (format_b w 0)) by now rewrite length_map.
  rewrite (map_nth (format_b w)).
  apply format_b_nth; [assumption| |assumption].
  rewrite Forall_forall in Hall. apply Hall, nth_In, Hj.
Qed.

(** [transpose] really transposes: on a consistent torus it succeeds, the
    new store holds [s] rows of [r] bits, and the element in row [i],
    column [j] of the new torus is the element in row [j], column [i] of
    the old one. *)
Theorem transpose_elements (T : Torus) (rows : list N) :
  wf T -> stored T rows ->
  exists T' rows',
    transpose T = (Ok tt, T') /\
    get_size T' = (s T, r T, n T, m T) /\
    stored T' rows' /\
    forall i j, (i < s T)%nat -> (j < r T)%nat ->
      torus_bit (s T') rows' i j = torus_bit (s T) rows j i.
Proof.
  intros Hwf Hst. pose proof Hwf as (Hd & _ & _ & Hq).
  destruct (dims_ok_pos T Hd) as [Hr Hs].
  exists (transposed T rows), (transposed_rows (s T) rows).
  split; [now apply transpose_run|]. split; [reflexivity|].
  split; [now apply transposed_stored|].
  intros i j Hi Hj. destruct Hst as (Hlen & Hall & _).
  unfold transposed. cbn [s]. rewrite <- Hlen in Hj |- *.
  now apply transposed_rows_bit.
Qed.

Lemma transpose_elements_witness :
  let T := new_torus sample_small 2 2 None in
  exists T' rows',
    transpose T = (Ok tt, T') /\
    get_size T' = (s T, r T, n T, m T) /\
    stored T' rows' /\
    forall i j, (i < s T)%nat -> (j < r T)%nat ->
      torus_bit (s T') rows' i j =
      torus_bit (s T) (map bits_value sample_small) j i.
Proof.
  intro T. apply (transpose_elements T (map bits_value sample_small)).
  - exact sample_small_wf.
  - split; [reflexivity|]. split; [|vm_compute; reflexivity].
    vm_compute. repeat constructor.
Defined.

(** ** The elements of a torus built by [make] *)

Lemma testbit_above (x : N) (k i : nat) :
  x < 2 ^ N.of_nat k -> (k <= i)%nat -> N.testbit x (N.of_nat i) = false.
Proof.
  intros Hx Hi. rewrite <- (N.mod_small x (2 ^ N.of_nat k)) by assumption.
  apply N.mod_pow2_bits_high. lia.
Qed.

Lemma testbit_shifted (k : nat) (a o : N) (i : nat) :
  a < 2 ^ N.of_nat k ->
  N.testbit (a + N.shiftl o (N.of_nat k)) (N.of_nat i) =
  if (i <? k)%nat then N.testbit a (N.of_nat i)
  else N.testbit o (N.of_nat (i - k)).
Proof.
  intro Ha. rewrite N.shiftl_mul_pow2.
  assert (Hp : 2 ^ N.of_nat k <> 0) by (apply N.pow_nonzero; lia).
  destruct (Nat.ltb_spec i k) as [H|H].
  - rewrite <- (N.mod_pow2_bits_low _ (N.of_nat k)) by lia.
    now rewrite N.Div0.mod_add, N.mod_small.
  - replace (N.of_nat i) with (N.of_nat (i - k) + N.of_nat k) by lia.
    rewrite <- N.div_pow2_bits, N.div_add by assumption.
    now rewrite N.div_small.
Qed.

(** The shifted copies of an old row that [make] adds up do not overlap:
    bit [i] of the sum is bit [i mod s] of the old row. *)
Lemma repeat_pattern_testbit (o : N) (w c i : nat) :
  o < 2 ^ N.of_nat w -> (1 <= w)%nat ->
  N.testbit (repeat_pattern o w c) (N.of_nat i) =
  if (i <? w * c)%nat then N.testbit o (N.of_nat (i mod w)) else false.
Proof.
  intros Ho Hw. induction c as [|c IH].
  - rewrite Nat.mul_0_r. cbn [Nat.ltb Nat.leb].
    unfold repeat_pattern. cbn [seq fold_left]. apply N.bits_0.
  - rewrite repeat_pattern_S, testbit_shifted by now apply repeat_pattern_lt.
    destruct (Nat.ltb_spec i (w * c)) as [H|H].
    + rewrite IH. destruct (Nat.ltb_spec i (w * c)) as [_|]; [|lia].
      destruct (Nat.ltb_spec i (w * S c)) as [_|]; [reflexivity|lia].
    + destruct (Nat.ltb_spec i (w * S c)) as [H'|H'].
      * f_equal. f_equal.
        replace i with (i - w * c + c * w)%nat at 2 by lia.
        rewrite Nat.Div0.mod_add. symmetry. apply Nat.mod_small. lia.
      * apply (testbit_above o w); [assumption|lia].
Qed.

Lemma new_rows_step (w c : nat) (line : N) (olds : list N) (i : nat) :
  (i < length olds)%nat ->
  nth (S i) (line :: new_rows w c line olds) 0 =
  N.lxor (nth i (line :: new_rows w c line olds) 0)
         (repeat_pattern (nth i olds 0) w c).
Proof.
  revert line i. induction olds as [|o olds IH]; intros line i Hi.
  - cbn in Hi. lia.
  - cbn [new_rows]. destruct i as [|i]; [reflexivity|].
    cbn [length] in Hi.
    change (nth (S (S i)) (line :: ?l) 0) with (nth (S i) l 0).
    change (nth (S i) (line :: ?l) 0) with (nth i l 0).
    rewrite IH by lia. reflexivity.
Qed.

Lemma rows_read_nth (MODE : mode) (T : Torus) (rows : list N) (i : nat) :
  (1 <= r T)%nat -> length rows = r T ->
  (i < num_rows_of MODE T - 1)%nat ->
  nth i (rows_read MODE T rows) 0 = nth (i mod r T) rows 0.
Proof.
  intros Hr Hlen Hi. unfold rows_read. rewrite nth_firstn.
  destruct (Nat.ltb_spec i (num_rows_of MODE T - 1)) as [_|]; [|lia].
  assert (Hi2 : (i < 2 * r T)%nat) by (destruct MODE; cbn in Hi; lia).
  destruct (Nat.lt_ge_cases i (r T)) as [H|H].
  - rewrite app_nth1, Nat.mod_small by lia. reflexivity.
  - rewrite app_nth2, Hlen by lia. f_equal.
    replace i with (i - r T + 1 * r T)%nat at 2 by lia.
    rewrite Nat.Div0.mod_add. symmetry. apply Nat.mod_small. lia.
Qed.

Lemma tiled_bit (w c j : nat) :
  (1 <= w)%nat -> (j < w * c)%nat ->
  ((w * c - 1 - j) mod w = w - 1 - j mod w)%nat.
Proof.
  intros Hw Hj.
  pose proof (Nat.div_mod_eq j w) as E.
  pose proof (Nat.mod_upper_bound j w ltac:(lia)) as Hm.
  assert (Hq : (j / w < c)%nat) by (apply Nat.Div0.div_lt_upper_bound; lia).
  replace (w * c - 1 - j)%nat
    with (w - 1 - j mod w + (c - 1 - j / w) * w)%nat by nia.
  rewrite Nat.Div0.mod_add. apply Nat.mod_small. lia.
Qed.

(** [make] builds the new torus by differences: on a consistent torus, in
    a step that produces at least two rows, the first new row is the first
    line, and every further element is the element above it XORed with the
    element of the old torus in the same row and column, both taken
    cyclically (row [i mod r], column [j mod s]). *)
Theorem make_elements (MODE : mode) (seed : option (list bool))
  (T : Torus) (rows : list N) :
  wf T -> stored T rows -> choose_mode T = Ok MODE ->
  (2 <= num_rows_of MODE T)%nat ->
  match MODE with
  | EVEN => seed_fits seed (n T)
  | ODD => (1 <= n T)%nat /\ ((3 <= n T)%nat -> seed_fits seed (n T - 1))
  end ->
  exists T' rows' next,
    make seed T = (Ok tt, T') /\
    stored T' rows' /\
    rbind (first_line MODE seed T) _list_to_num = Ok next /\
    nth 0 rows' 0 = next /\
    forall i j, (i + 1 < r T')%nat -> (j < s T')%nat ->
      torus_bit (s T') rows' (i + 1) j =
      xorb (torus_bit (s T') rows' i j)
           (torus_bit (s T) rows (i mod r T) (j mod s T)).
Proof.
  intros Hwf Hst Hm H2 Hseed. pose proof Hwf as (Hd & _ & _ & Hq).
  destruct (dims_ok_pos T Hd) as [Hr Hs].
  assert (Hc : exists copies, num_copies_of MODE T = Some copies).
  { destruct MODE; cbn [num_copies_of]; [now eexists|].
    destruct (n T); [lia|now eexists]. }
  destruct Hc as [copies Hc].
  destruct (make_run MODE seed T copies rows Hd Hst Hq Hm Hc)
    as (next & Hfl & Hnext & Hrun).
  { destruct MODE; [exact Hseed|exact (proj2 Hseed)]. }
  exists (made MODE T copies next rows), (all_rows MODE T copies next rows),
         next.
  split; [exact Hrun|]. split; [now apply made_stored|].
  split; [exact Hfl|]. split; [reflexivity|].
  intros i j Hi Hj. unfold made in Hi, Hj |- *. cbn [r s] in Hi, Hj |- *.
  destruct Hst as (Hlen & Hall & _).
  unfold torus_bit, all_rows. rewrite Nat.add_1_r.
  rewrite new_rows_step by (rewrite rows_read_length by assumption; lia).
  rewrite N.lxor_spec. f_equal.
  rewrite rows_read_nth by (assumption || lia).
  assert (Hold : nth (i mod r T) rows 0 < 2 ^ N.of_nat (s T)).
  { rewrite Forall_forall in Hall. apply Hall, nth_In. rewrite Hlen.
    apply Nat.mod_upper_bound. lia. }
  rewrite repeat_pattern_testbit by assumption.
  destruct (Nat.ltb_spec (s T * copies - 1 - j) (s T * copies)) as [_|]; [|lia].
  now rewrite tiled_bit.
Qed.

Lemma make_elements_witness :
  exists T' rows' next,
    make None sample_large_t = (Ok tt, T') /\
    stored T' rows' /\
    rbind (first_line EVEN None sample_large_t) _list_to_num = Ok next /\
    nth 0 rows' 0 = next /\
    forall i j, (i + 1 < r T')%nat -> (j < s T')%nat ->
      torus_bit (s T') rows' (i + 1) j =
      xorb (torus_bit (s T') rows' i j)
           (torus_bit (s sample_large_t)
              (transposed_rows 16 (map bits_value sample_large))
              (i mod r sample_large_t) (j mod s sample_large_t)).
Proof.
  apply (make_elements EVEN None sample_large_t
           (transposed_rows 16 (map bits_value sample_large))).
  - exact sample_large_t_wf.
  - split; [vm_compute; reflexivity|]. split; [|vm_compute; reflexivity].
    vm_compute. repeat constructor.
  - vm_compute. reflexivity.
  - vm_compute. lia.
  - exists (match debruijn (n sample_large_t) with Ok sd => sd | Raise _ => [] end).
    split; vm_compute; [reflexivity|lia].
Defined.

(** *** The two halves of the odd construction *)

Lemma track_cols_lxor (c : N) (l : list N) :
  track_cols c l = N.lxor c (track_cols 0 l).
Proof.
  unfold track_cols. revert c. induction l as [|x l IH]; intro c.
  - cbn. now rewrite N.lxor_0_r.
  - cbn [fold_left]. rewrite IH, (IH (N.lxor 0 x)), N.lxor_0_l.
    now rewrite N.lxor_assoc.
Qed.

Lemma track_cols_lt (w : N) (l : list N) :
  Forall (fun x => x < 2 ^ w) l -> track_cols 0 l < 2 ^ w.
Proof.
  assert (H0 : 0 < 2 ^ w) by (apply N.neq_0_lt_0, N.pow_nonzero; lia).
  unfold track_cols. generalize 0 H0.
  intros c Hc Hall. revert c Hc.
  induction Hall as [|x l Hx _ IH]; intros c Hc; [exact Hc|].
  cbn [fold_left]. apply IH. now apply lxor_lt.
Qed.

Lemma repeat_pattern_lxor (a b : N) (w c : nat) :
  a < 2 ^ N.of_nat w -> b < 2 ^ N.of_nat w -> (1 <= w)%nat ->
  repeat_pattern (N.lxor a b) w c =
  N.lxor (repeat_pattern a w c) (repeat_pattern b w c).
Proof.
  intros Ha Hb Hw. apply N.bits_inj. intro k. rewrite <- (N2Nat.id k).
  rewrite N.lxor_spec, !repeat_pattern_testbit
    by (try apply lxor_lt; assumption).
  destruct (N.to_nat k <? w * c)%nat; [apply N.lxor_spec|reflexivity].
Qed.

Lemma repeat_pattern_0 (w c : nat) : repeat_pattern 0 w c = 0.
Proof.
  induction c as [|c IH]; [reflexivity|].
  now rewrite repeat_pattern_S, IH, N.shiftl_0_l.
Qed.

Lemma firstn_succ_nth (l : list N) (k : nat) :
  (k < length l)%nat -> firstn (S k) l = firstn k l ++ [nth k l 0].
Proof.
  revert k. induction l as [|x l IH]; intros k Hk; [cbn in Hk; lia|].
  destruct k as [|k]; [reflexivity|].
  cbn [firstn nth app length] in *. now rewrite IH by lia.
Qed.

(** Row [k] of the new torus is the first line XORed with the repeated XOR
    of the old rows read so far. *)
Lemma new_rows_nth_acc (w c : nat) (line : N) (olds : list N) (k : nat) :
  (1 <= w)%nat -> Forall (fun x => x < 2 ^ N.of_nat w) olds ->
  (k <= length olds)%nat ->
  nth k (line :: new_rows w c line olds) 0 =
  N.lxor line (repeat_pattern (track_cols 0 (firstn k olds)) w c).
Proof.
  intros Hw Hall. induction k as [|k IH]; intro Hk.
  - cbn [nth firstn track_cols fold_left].
    now rewrite repeat_pattern_0, N.lxor_0_r.
  - rewrite new_rows_step, IH, firstn_succ_nth by lia.
    unfold track_cols at 2. rewrite fold_left_app. cbn [fold_left].
    fold (track_cols 0 (firstn k olds)).
    rewrite repeat_pattern_lxor, N.lxor_assoc; try assumption.
    + reflexivity.
    + apply track_cols_lt, Forall_firstn, Hall.
    + rewrite Forall_forall in Hall. apply Hall, nth_In. lia.
Qed.

Lemma all_ones_testbit (w i : nat) :
  (i < w)%nat -> N.testbit (all_ones w) (N.of_nat i) = true.
Proof.
  intro H. unfold all_ones. rewrite N.sub_1_r.
  change (N.pred (N.shiftl 1 (N.of_nat w))) with (N.ones (N.of_nat w)).
  apply N.ones_spec_low. lia.
Qed.

Lemma all_ones_lt (w : nat) : all_ones w < 2 ^ N.of_nat w.
Proof.
  unfold all_ones. rewrite N.shiftl_1_l.
  assert (2 ^ N.of_nat w <> 0) by (apply N.pow_nonzero; lia). lia.
Qed.

(** In the odd construction the lower half of the new torus is the
    complement of the upper half: on a consistent torus whose summaries
    agree with the store and all of whose columns are odd, with [n >= 1]
    and the default seed or a seed of at most [2^(n-1)] bits, [make]
    succeeds with [2r] rows, and the element in row [r + i] is the negation
    of the element in row [i] of the same column. *)
Theorem odd_step_complement (seed : option (list bool)) (T : Torus)
  (rows : list N) :
  wf T -> stored T rows -> sums_consistent T ->
  col_sums T = all_ones (s T) -> (1 <= n T)%nat ->
  ((3 <= n T)%nat -> seed_short seed (n T - 1)) ->
  exists T' rows',
    make seed T = (Ok tt, T') /\
    get_size T' = (2 * r T, s T * 2 ^ (n T - 1), m T + 1, n T)%nat /\
    stored T' rows' /\
    forall i j, (i < r T)%nat -> (j < s T')%nat ->
      torus_bit (s T') rows' (r T + i) j =
      negb (torus_bit (s T') rows' i j).
Proof.
  intros Hwf Hst [_ Hcs] H1 Hn Hseed. pose proof Hwf as (Hd & _ & _ & Hq).
  destruct (dims_ok_pos T Hd) as [Hr Hs].
  assert (Hc : num_copies_of ODD T = Some (2 ^ (n T - 1))%nat).
  { cbn. destruct (n T) as [|k]; [lia|]. do 2 f_equal. lia. }
  destruct (make_run ODD seed T _ rows Hd Hst Hq
              (choose_mode_odd T Hs H1) Hc
              (fun H3 => seed_short_fits _ _ (Hseed H3)))
    as (next & _ & Hnext & Hrun).
  set (copies := (2 ^ (n T - 1))%nat) in *.
  exists (made ODD T copies next rows), (all_rows ODD T copies next rows).
  split; [exact Hrun|]. split; [reflexivity|].
  split; [apply made_stored; try assumption; cbn [num_rows_of]; lia|].
  intros i j Hi Hj. unfold made in Hj |- *. cbn [s] in Hj |- *.
  rewrite (stored_rows_of T rows Hst), H1 in Hcs.
  destruct Hst as (Hlen & Hall & _).
  pose proof (rows_read_lt ODD T rows Hall) as Holds.
  pose proof (rows_read_length ODD T rows Hr Hlen) as Hol.
  cbn [num_rows_of] in Hol.
  unfold torus_bit, all_rows.
  rewrite !new_rows_nth_acc by (assumption || lia).
  unfold rows_read. cbn [num_rows_of]. rewrite !firstn_firstn.
  rewrite !Nat.min_l by lia. rewrite !firstn_app, Hlen.
  replace (i - r T)%nat with 0%nat by lia.
  replace (r T + i - r T)%nat with i by lia.
  rewrite (firstn_all2 (n := (r T + i)%nat)) by lia.
  cbn [firstn]. rewrite app_nil_r.
  unfold track_cols at 1. rewrite fold_left_app.
  fold (track_cols 0 rows). fold (track_cols (track_cols 0 rows) (firstn i rows)).
  rewrite track_cols_lxor, <- Hcs.
  rewrite repeat_pattern_lxor;
    [|apply all_ones_lt|apply track_cols_lt, Forall_firstn, Hall|assumption].
  rewrite !N.lxor_spec.
  rewrite (repeat_pattern_testbit (all_ones (s T))) by (apply all_ones_lt || assumption).
  destruct (Nat.ltb_spec (s T * copies - 1 - j) (s T * copies)) as [_|]; [|lia].
  rewrite all_ones_testbit by (apply Nat.mod_upper_bound; lia).
  now destruct (N.testbit next _), (N.testbit (repeat_pattern _ _ _) _).
Qed.

Lemma odd_step_complement_witness :
  let T := new_torus sample_small 2 2 None in
  exists T' rows',
    make None T = (Ok tt, T') /\
    get_size T' = (2 * r T, s T * 2 ^ (n T - 1), m T + 1, n T)%nat /\
    stored T' rows' /\
    forall i j, (i < r T)%nat -> (j < s T')%nat ->
      torus_bit (s T') rows' (r T + i) j =
      negb (torus_bit (s T') rows' i j).
Proof.
  intro T. apply (odd_step_complement None T (map bits_value sample_small)).
  - exact sample_small_wf.
  - split; [reflexivity|]. split; [|vm_compute; reflexivity].
    vm_compute. repeat constructor.
  - exact sample_small_consistent.
  - vm_compute. reflexivity.
  - vm_compute. lia.
  - vm_compute. lia.
Defined.

(** ** What the constructor checks *)

(** [__init__] checks the row count against the length of the first row
    only.  With no row at all it raises [IndexError] at [values[0]], when
    it has assigned [r = 0] and nothing else.  Otherwise, when
    [len(values) * len(values[0]) = 2^(m*n)], any rows that are not empty
    and no longer than [8 * ceil(s/8)] bits are accepted, whatever their
    lengths: the constructor succeeds, and each row is stored
    right-justified in [ceil(s/8)] bytes. *)
Theorem init_row_lengths_unchecked (values : list (list bool))
  (m0 n0 : nat) (T0 : Torus) :
  (values = [] ->
   __init__ values m0 n0 T0 =
   (Raise IndexError, set_dims 0 (s T0) (m T0) (n T0) T0)) /\
  (forall row0 rows,
      values = row0 :: rows -> quota T0 = None ->
      (length values * length row0 = 2 ^ (m0 * n0))%nat ->
      Forall (fun l => l <> [] /\
                       (length l <= 8 * _bytes (length row0))%nat) values ->
      exists T,
        __init__ values m0 n0 T0 = (Ok tt, T) /\
        get_size T = (length values, length row0, m0, n0) /\
        file T = store_of (length row0) (map bits_value values) /\
        col_sums T = track_cols 0 (map bits_value values)).
Proof.
  split.
  - intros ->. reflexivity.
  - intros row0 rows E Hq Hd Hall. subst values.
    exists (initialised (row0 :: rows) (length row0) m0 n0 T0).
    split; [now apply init_rows_run|].
    split; [reflexivity|split; reflexivity].
Qed.

Lemma init_row_lengths_unchecked_witness :
  let values := [[false; true]; [true]] in
  exists T,
    __init__ values 1 2 (blank None) = (Ok tt, T) /\
    get_size T = (length values, length [false; true], 1, 2)%nat /\
    file T = store_of (length [false; true]) (map bits_value values) /\
    col_sums T = track_cols 0 (map bits_value values).
Proof.
  intro values.
  apply (proj2 (init_row_lengths_unchecked values 1 2 (blank None))
           [false; true] [[true]]).
  - reflexivity.
  - reflexivity.
  - reflexivity.
  - repeat constructor; (discriminate || (vm_compute; lia)).
Defined.
